(** * On-call scheduler: a shallow embedding of [scheduler.js]

    The class [OnCallScheduler] is embedded as a record of its fields and one
    Rocq function per method.  A method that can throw returns a [Result];
    a method that mutates [this] returns the new scheduler state.  The
    JavaScript built-ins the class relies on ([parseInt], [split],
    [padStart], [Date]) are modelled in the module [JS]. *)

From Stdlib Require Import ZArith List String Ascii Bool Lia Permutation.
From stdpp Require Import gmap strings list pretty.

Local Open Scope Z_scope.

(** ** Exceptions *)

(** [new Error(msg)] thrown by the class itself, and the [TypeError] the
    engine raises when a property is read from [undefined] or [null]. *)
Inductive Error : Type :=
| Err (msg : string)
| TypeError.

Inductive Result (A : Type) : Type :=
| Ok (a : A)
| Throw (e : Error).
Arguments Ok {A} a.
Arguments Throw {A} e.

(** Sequencing: an exception ends the computation.  With these instances
    stdpp's [x ← e; k] reads as a JavaScript statement sequence. *)
#[global] Instance Result_ret : MRet Result := fun A a => Ok a.
#[global] Instance Result_bind : MBind Result := fun A B k r =>
  match r with
  | Ok a => k a
  | Throw e => Throw e
  end.

(** Reading a property of a value that may be [undefined]. *)
Definition deref {A} (o : option A) : Result A :=
  match o with
  | Some a => Ok a
  | None => Throw TypeError
  end.

(** [Array.prototype.filter] with a callback that may throw. *)
Fixpoint filterR {A} (f : A -> Result bool) (l : list A) : Result (list A) :=
  match l with
  | [] => Ok []
  | x :: rest =>
      b ← f x;
      tl ← filterR f rest;
      Ok (if b : bool then x :: tl else tl)
  end.

(** [Array.prototype.map] with a callback that may throw. *)
Fixpoint mapR {A B} (f : A -> Result B) (l : list A) : Result (list B) :=
  match l with
  | [] => Ok []
  | x :: rest =>
      y ← f x;
      tl ← mapR f rest;
      Ok (y :: tl)
  end.

(** A loop that stops ([break]) at the first element for which the body
    reports success. *)
Fixpoint firstR {A B} (f : A -> Result (option B)) (l : list A) : Result (option B) :=
  match l with
  | [] => Ok None
  | x :: rest =>
      r ← f x;
      match r with
      | Some b => Ok (Some b)
      | None => firstR f rest
      end
  end.

(** ** JavaScript built-ins *)

Module JS.

(** *** Strings *)

Definition dash : ascii := "-"%char.

(** [s.split('-')] *)
Fixpoint split (sep : ascii) (s : string) : list string :=
  match s with
  | EmptyString => [EmptyString]
  | String c rest =>
      if Ascii.eqb c sep then EmptyString :: split sep rest
      else match split sep rest with
           | hd :: tl => String c hd :: tl
           | [] => [String c EmptyString]
           end
  end.

(** [s.replace(/-/g, '')] for a one-character pattern. *)
Fixpoint removeAll (ch : ascii) (s : string) : string :=
  match s with
  | EmptyString => EmptyString
  | String c rest =>
      if Ascii.eqb c ch then removeAll ch rest else String c (removeAll ch rest)
  end.

(** [s.padStart(2, '0')] *)
Definition padStart2 (s : string) : string :=
  match s with
  | EmptyString => "00"
  | String c EmptyString => String "0"%char (String c EmptyString)
  | _ => s
  end.

Definition upperChar (c : ascii) : ascii :=
  let n := Z.of_N (N_of_ascii c) in
  if (97 <=? n) && (n <=? 122) then ascii_of_N (Z.to_N (n - 32)) else c.

(** [s.toUpperCase()] on ASCII text. *)
Fixpoint toUpperCase (s : string) : string :=
  match s with
  | EmptyString => EmptyString
  | String c rest => String (upperChar c) (toUpperCase rest)
  end.

(** [s.charAt(0).toUpperCase() + s.slice(1)] *)
Definition capitalize (s : string) : string :=
  match s with
  | EmptyString => EmptyString
  | String c rest => String (upperChar c) rest
  end.

(** [arr.join(sep)] *)
Fixpoint join (sep : string) (l : list string) : string :=
  match l with
  | [] => EmptyString
  | [x] => x
  | x :: rest => x +:+ sep +:+ join sep rest
  end.

(** [String(n)] for a number that is an integer or [NaN] ([None]). *)
Definition numToString (n : option Z) : string :=
  match n with
  | Some z => pretty z
  | None => "NaN"
  end.

(** *** [parseInt] *)

(** The white space and line terminators that [parseInt] skips, among the
    code units below 256: tab to carriage return, space and the no-break
    space. *)
Definition isWhite (c : ascii) : bool :=
  let n := N_of_ascii c in
  ((9 <=? n) && (n <=? 13) || (n =? 32) || (n =? 160))%N.

Fixpoint skipWhite (s : string) : string :=
  match s with
  | String c rest => if isWhite c then skipWhite rest else s
  | EmptyString => s
  end.

Definition digitVal (radix : Z) (c : ascii) : option Z :=
  let n := Z.of_N (N_of_ascii c) in
  let v :=
    if (48 <=? n) && (n <=? 57) then n - 48
    else if (97 <=? n) && (n <=? 122) then n - 87
    else if (65 <=? n) && (n <=? 90) then n - 55
    else 99 in
  if v <? radix then Some v else None.

Fixpoint readDigits (radix acc : Z) (s : string) : Z :=
  match s with
  | String c rest =>
      match digitVal radix c with
      | Some d => readDigits radix (acc * radix + d) rest
      | None => acc
      end
  | EmptyString => acc
  end.

Definition stripSign (s : string) : bool * string :=
  match s with
  | String c rest =>
      if Ascii.eqb c "-" then (true, rest)
      else if Ascii.eqb c "+" then (false, rest)
      else (false, s)
  | EmptyString => (false, s)
  end.

Definition stripRadix (s : string) : Z * string :=
  match s with
  | String c0 (String c1 rest) =>
      if Ascii.eqb c0 "0" && (Ascii.eqb c1 "x" || Ascii.eqb c1 "X")
      then (16, rest) else (10, s)
  | _ => (10, s)
  end.

(** [parseInt(s)]: leading white space, an optional sign, an optional
    [0x] prefix, then the longest run of digits; [None] is [NaN]. *)
Definition parseInt (s : string) : option Z :=
  let '(neg, s1) := stripSign (skipWhite s) in
  let '(radix, s2) := stripRadix s1 in
  match s2 with
  | String c _ =>
      match digitVal radix c with
      | Some _ =>
          let v := readDigits radix 0 s2 in
          Some (if neg then - v else v)
      | None => None
      end
  | EmptyString => None
  end.

(** *** [Date]

    The scheduler only ever reads the local calendar day of a [Date]
    ([getFullYear], [getMonth], [getDate], [getDay]) and compares or
    advances dates that sit at local midnight, so a [Date] is represented
    by the number of its local calendar day, counted from 1970-01-01, or
    by [InvalidDate] (time value [NaN]).  This takes the local midnight
    of every day to be on the clock of the host; where a time zone skips
    one, [new Date(y, m, d)] and [setDate] land later than the midnight
    they name, and the module [Instant] further down has the same calls
    on time values. *)
Inductive Date : Type :=
| InvalidDate
| Day (n : Z).

(** The time value of a [Date] is limited to 100,000,000 days either side
    of the epoch. *)
Definition maxDay : Z := 100000000.

Definition clip (n : Z) : Date :=
  if (- maxDay <=? n) && (n <=? maxDay) then Day n else InvalidDate.

(** ECMAScript's day-number arithmetic. *)
Definition DayFromYear (y : Z) : Z :=
  365 * (y - 1970) + (y - 1969) / 4 - (y - 1901) / 100 + (y - 1601) / 400.

Definition InLeapYear (y : Z) : Z :=
  if (y mod 4 =? 0) && (negb (y mod 100 =? 0) || (y mod 400 =? 0)) then 1 else 0.

(** The largest [y] with [DayFromYear y <= n]. *)
Definition YearFromDay (n : Z) : Z :=
  let y0 := 1970 + (400 * n) / 146097 in
  if n <? DayFromYear y0 then y0 - 1
  else if DayFromYear (y0 + 1) <=? n then y0 + 1
  else y0.

(** First day of month [m] (0-based) within a year. *)
Definition monthStart (leap m : Z) : Z :=
  match m with
  | 0 => 0
  | 1 => 31
  | 2 => 59 + leap
  | 3 => 90 + leap
  | 4 => 120 + leap
  | 5 => 151 + leap
  | 6 => 181 + leap
  | 7 => 212 + leap
  | 8 => 243 + leap
  | 9 => 273 + leap
  | 10 => 304 + leap
  | _ => 334 + leap
  end.

Definition MonthFromDayInYear (leap d : Z) : Z :=
  if d <? 31 then 0
  else if d <? 59 + leap then 1
  else if d <? 90 + leap then 2
  else if d <? 120 + leap then 3
  else if d <? 151 + leap then 4
  else if d <? 181 + leap then 5
  else if d <? 212 + leap then 6
  else if d <? 243 + leap then 7
  else if d <? 273 + leap then 8
  else if d <? 304 + leap then 9
  else if d <? 334 + leap then 10
  else 11.

Definition yearOf (n : Z) : Z := YearFromDay n.
Definition monthOf (n : Z) : Z :=
  let y := YearFromDay n in
  MonthFromDayInYear (InLeapYear y) (n - DayFromYear y).
Definition dateOf (n : Z) : Z :=
  let y := YearFromDay n in
  let leap := InLeapYear y in
  let d := n - DayFromYear y in
  d - monthStart leap (MonthFromDayInYear leap d) + 1.

(** Getters; [None] is [NaN]. *)
Definition getFullYear (d : Date) : option Z :=
  match d with Day n => Some (yearOf n) | InvalidDate => None end.
Definition getMonth (d : Date) : option Z :=
  match d with Day n => Some (monthOf n) | InvalidDate => None end.
Definition getDate (d : Date) : option Z :=
  match d with Day n => Some (dateOf n) | InvalidDate => None end.
Definition getDay (d : Date) : option Z :=
  match d with Day n => Some ((n + 4) mod 7) | InvalidDate => None end.

(** [MakeDay(year, month, date)] *)
Definition MakeDay (y m d : Z) : Z :=
  let ym := y + m / 12 in
  let mn := m mod 12 in
  DayFromYear ym + monthStart (InLeapYear ym) mn + d - 1.

(** [new Date(year, monthIndex, day)]: a year from 0 to 99 means
    1900 + year; a [NaN] argument gives an invalid date. *)
Definition newDate3 (y m d : option Z) : Date :=
  match y, m, d with
  | Some y, Some m, Some d =>
      let yr := if (0 <=? y) && (y <=? 99) then 1900 + y else y in
      clip (MakeDay yr m d)
  | _, _, _ => InvalidDate
  end.

(** [d.setDate(d.getDate() + k)] *)
Definition addDays (d : Date) (k : Z) : Date :=
  match d with
  | Day n => clip (n + k)
  | InvalidDate => InvalidDate
  end.

(** [a <= b] on dates: false as soon as one is invalid. *)
Definition leDate (a b : Date) : bool :=
  match a, b with
  | Day x, Day y => x <=? y
  | _, _ => false
  end.

End JS.

(** What the host decides: which strings [new Date(s)] accepts, and the
    time zone that turns an instant into a local calendar day. *)
Class HostEnv : Type := {
  (** local calendar day of [new Date(s)] for a string [s] *)
  hostDateParse : string -> JS.Date;
  (** local calendar day of [new Date(null)], the epoch: 0 or -1 *)
  hostEpochDay : Z
}.

(** ** Data model *)

Module Person.
Record t : Type := mk { name : string; email : string; id : string }.
End Person.

Inductive Role : Type := primary | secondary.

Definition roleName (r : Role) : string :=
  match r with
  | primary => "primary"
  | secondary => "secondary"
  end.

Definition Role_eqb (a b : Role) : bool :=
  match a, b with
  | primary, primary | secondary, secondary => true
  | _, _ => false
  end.

Module Slot.
Record t : Type := mk {
  id : string;
  date : JS.Date;
  dateStr : string;
  role : Role;
  slot : string;
  slotIndex : Z;
  isWeekend : bool;
  duration : Z;
  assignedPerson : option Person.t;
  warning : option string;
  cost : option Z
}.

Definition setAssigned (s : t) (p : Person.t) (c : option Z) : t :=
  mk (id s) (date s) (dateStr s) (role s) (slot s) (slotIndex s)
     (isWeekend s) (duration s) (Some p) (warning s) c.

Definition setWarning (s : t) (w : string) : t :=
  mk (id s) (date s) (dateStr s) (role s) (slot s) (slotIndex s)
     (isWeekend s) (duration s) (assignedPerson s) (Some w) (cost s).
End Slot.

(** The four keys [`${weekend}_${role}`] of a load record and of the
    target table. *)
Module ShiftType.
Inductive t : Type :=
| weekday_primary
| weekend_primary
| weekday_secondary
| weekend_secondary.

Definition eqb (a b : t) : bool :=
  match a, b with
  | weekday_primary, weekday_primary
  | weekend_primary, weekend_primary
  | weekday_secondary, weekday_secondary
  | weekend_secondary, weekend_secondary => true
  | _, _ => false
  end.

(** The order in which [balanceShifts] visits the categories. *)
Definition all : list t :=
  [weekday_primary; weekend_primary; weekday_secondary; weekend_secondary].
End ShiftType.

Module Load.
Record t : Type := mk {
  weekday_primary : Z;
  weekend_primary : Z;
  weekday_secondary : Z;
  weekend_secondary : Z;
  total_hours : Z
}.

(** [load[shiftType]] *)
Definition get (l : t) (k : ShiftType.t) : Z :=
  match k with
  | ShiftType.weekday_primary => weekday_primary l
  | ShiftType.weekend_primary => weekend_primary l
  | ShiftType.weekday_secondary => weekday_secondary l
  | ShiftType.weekend_secondary => weekend_secondary l
  end.

(** [load[shiftType] += dc; load.total_hours += dh] *)
Definition bump (l : t) (k : ShiftType.t) (dc dh : Z) : t :=
  match k with
  | ShiftType.weekday_primary =>
      mk (weekday_primary l + dc) (weekend_primary l) (weekday_secondary l)
         (weekend_secondary l) (total_hours l + dh)
  | ShiftType.weekend_primary =>
      mk (weekday_primary l) (weekend_primary l + dc) (weekday_secondary l)
         (weekend_secondary l) (total_hours l + dh)
  | ShiftType.weekday_secondary =>
      mk (weekday_primary l) (weekend_primary l) (weekday_secondary l + dc)
         (weekend_secondary l) (total_hours l + dh)
  | ShiftType.weekend_secondary =>
      mk (weekday_primary l) (weekend_primary l) (weekday_secondary l)
         (weekend_secondary l + dc) (total_hours l + dh)
  end.

Definition zero : t := mk 0 0 0 0 0.
End Load.

Module Target.
Record t : Type := mk { total : Z; min : Z; max : Z }.
End Target.

Module Targets.
Record t : Type := mk {
  weekday_primary : Target.t;
  weekend_primary : Target.t;
  weekday_secondary : Target.t;
  weekend_secondary : Target.t
}.

(** [targets[shiftType]] *)
Definition get (ts : t) (k : ShiftType.t) : Target.t :=
  match k with
  | ShiftType.weekday_primary => weekday_primary ts
  | ShiftType.weekend_primary => weekend_primary ts
  | ShiftType.weekday_secondary => weekday_secondary ts
  | ShiftType.weekend_secondary => weekend_secondary ts
  end.
End Targets.

Module Prefs.
Record t : Type := mk { preferred : gset string; notPreferred : gset string }.
Definition empty : t := mk ∅ ∅.
End Prefs.

(** The fields of [OnCallScheduler] (the two colour palettes, which only
    the calendar view reads, are left out).  [dateRange] is [None] for
    the constructor's [{ start: null, end: null }]; [setDateRange] is the
    only writer and sets both ends. *)
Record Scheduler : Type := mkScheduler {
  people : list Person.t;
  dateRange : option (JS.Date * JS.Date);
  preferences : gmap string Prefs.t;
  schedule : list Slot.t;
  primaryCount : Z;
  secondaryCount : Z
}.

(** [constructor()] *)
Definition newScheduler : Scheduler := mkScheduler [] None ∅ [] 1 1.

Definition withSchedule (st : Scheduler) (sch : list Slot.t) : Scheduler :=
  mkScheduler (people st) (dateRange st) (preferences st) sch
              (primaryCount st) (secondaryCount st).

(** A date argument is a string or a [Date] object. *)
Inductive DateInput : Type :=
| InStr (s : string)
| InDate (d : JS.Date).

(** ** Roster and configuration *)

Definition setShiftCounts (p s : Z) (st : Scheduler) : Result Scheduler :=
  Ok (mkScheduler (people st) (dateRange st) (preferences st) (schedule st)
        (Z.max 0 (Z.min 10 p)) (Z.max 0 (Z.min 10 s))).

(** [rid] is the value [generateId()] draws for the new person. *)
Definition addPerson (name email rid : string) (st : Scheduler) : Result Scheduler :=
  if existsb (fun p => String.eqb (Person.email p) email) (people st)
  then Throw (Err ("Person with email " +:+ email +:+ " already exists"))
  else Ok (mkScheduler (people st ++ [Person.mk name email rid]) (dateRange st)
             (<[email := Prefs.empty]> (preferences st)) (schedule st)
             (primaryCount st) (secondaryCount st)).

Definition removePerson (email : string) (st : Scheduler) : Result Scheduler :=
  Ok (mkScheduler
        (List.filter (fun p => negb (String.eqb (Person.email p) email)) (people st))
        (dateRange st) (delete email (preferences st)) (schedule st)
        (primaryCount st) (secondaryCount st)).

(** ** Dates *)

Section Dates.
Context `{HostEnv}.

Definition parseLocalDate (x : DateInput) : JS.Date :=
  match x with
  | InDate d => d
  | InStr s =>
      match JS.split JS.dash s with
      | [p0; p1; p2] =>
          JS.newDate3 (JS.parseInt p0)
                      ((fun m => m - 1) <$> JS.parseInt p1)
                      (JS.parseInt p2)
      | _ => hostDateParse s
      end
  end.

Definition normalizeDate (x : DateInput) : string :=
  let d := match x with
           | InStr s => parseLocalDate (InStr s)
           | InDate d => d
           end in
  let year := JS.getFullYear d in
  let month := JS.padStart2 (JS.numToString ((fun m => m + 1) <$> JS.getMonth d)) in
  let day := JS.padStart2 (JS.numToString (JS.getDate d)) in
  JS.numToString year +:+ "-" +:+ month +:+ "-" +:+ day.

Definition setDateRange (startDate endDate : DateInput) (st : Scheduler)
  : Result Scheduler :=
  Ok (mkScheduler (people st)
        (Some (parseLocalDate startDate, parseLocalDate endDate))
        (preferences st) (schedule st) (primaryCount st) (secondaryCount st)).

Definition setPreferences (email : string) (preferred notPreferred : list DateInput)
           (st : Scheduler) : Result Scheduler :=
  match preferences st !! email with
  | None => Throw (Err ("Person with email " +:+ email +:+ " not found"))
  | Some _ =>
      Ok (mkScheduler (people st) (dateRange st)
            (<[email := Prefs.mk (list_to_set (normalizeDate <$> preferred))
                                 (list_to_set (normalizeDate <$> notPreferred))]>
               (preferences st))
            (schedule st) (primaryCount st) (secondaryCount st))
  end.

(** The [while (current <= end)] loop; [fuel] bounds its iterations. *)
Fixpoint generateDates_loop (fuel : nat) (current end_ : JS.Date) : list JS.Date :=
  match fuel with
  | O => []
  | S fuel' =>
      if JS.leDate current end_
      then current :: generateDates_loop fuel' (JS.addDays current 1) end_
      else []
  end.

Definition generateDates (st : Scheduler) : list JS.Date :=
  match dateRange st with
  | Some (JS.Day s, JS.Day e) =>
      generateDates_loop (Z.to_nat (e - s + 1)) (JS.Day s) (JS.Day e)
  | Some (_, _) => []
  | None => [JS.Day hostEpochDay]
  end.

Definition isWeekendNight (d : JS.Date) : bool :=
  match JS.getDay d with
  | Some day => (day =? 5) || (day =? 6)
  | None => false
  end.

Definition dayNames : list string :=
  ["Sunday"; "Monday"; "Tuesday"; "Wednesday"; "Thursday"; "Friday"; "Saturday"].

(** [days[date.getDay()]]; [None] is [undefined]. *)
Definition getDayName (d : JS.Date) : option string :=
  match JS.getDay d with
  | Some day => dayNames !! Z.to_nat day
  | None => None
  end.

(** [String.fromCharCode(97 + index)], for the indices below 159 whose
    code fits one byte. *)
Definition getSlotLabel (index : Z) : string :=
  String (ascii_of_N (Z.to_N (97 + index))) EmptyString.

(** ** Slot generation *)

Definition mkSlot (d : JS.Date) (ds : string) (r : Role) (w : bool) (i : Z) : Slot.t :=
  let slotLabel := getSlotLabel i in
  Slot.mk (ds +:+ "-" +:+ roleName r +:+ "-" +:+ slotLabel) d ds r slotLabel i w
          (match r with
           | primary => if w then 24 else 12
           | secondary => 12
           end)
          None None None.

Definition slotsOfDate (st : Scheduler) (d : JS.Date) : list Slot.t :=
  let w := isWeekendNight d in
  let ds := normalizeDate (InDate d) in
  (mkSlot d ds primary w <$> seqZ 0 (primaryCount st))
    ++ (mkSlot d ds secondary w <$> seqZ 0 (secondaryCount st)).

Definition generateSlots (st : Scheduler) : list Slot.t :=
  concat (slotsOfDate st <$> generateDates st).

End Dates.

(** ** Scheduling helpers *)

(** [arr.sort(cmp)]: the sort is stable, and a comparator result at or
    below zero keeps [a] before [b]. *)
Fixpoint sortInsert {A} (cmp : A -> A -> Z) (x : A) (l : list A) : list A :=
  match l with
  | [] => [x]
  | y :: rest => if cmp x y <=? 0 then x :: y :: rest else y :: sortInsert cmp x rest
  end.

Definition stableSort {A} (cmp : A -> A -> Z) (l : list A) : list A :=
  foldr (sortInsert cmp) [] l.

(** An array with its indices, for loops that write back to [arr[i]]. *)
Definition indexed {A} (l : list A) : list (nat * A) :=
  zip (seq 0 (length l)) l.

(** [Math.min(...xs)] and [Math.max(...xs)] on a non-empty list. *)
Definition minList (x : Z) (xs : list Z) : Z := foldr Z.min x xs.
Definition maxList (x : Z) (xs : list Z) : Z := foldr Z.max x xs.

Definition getShiftTypeKey (s : Slot.t) : ShiftType.t :=
  match Slot.isWeekend s, Slot.role s with
  | false, primary => ShiftType.weekday_primary
  | true, primary => ShiftType.weekend_primary
  | false, secondary => ShiftType.weekday_secondary
  | true, secondary => ShiftType.weekend_secondary
  end.

(** [s.assignedPerson && s.assignedPerson.email === email] *)
Definition assignedTo (email : string) (s : Slot.t) : bool :=
  match Slot.assignedPerson s with
  | Some q => String.eqb (Person.email q) email
  | None => false
  end.

Definition canAssign (st : Scheduler) (person : Person.t) (slot : Slot.t) : bool :=
  match preferences st !! Person.email person with
  | Some prefs => negb (bool_decide (Slot.dateStr slot ∈ Prefs.notPreferred prefs))
  | None => true
  end.

Definition getSameDayShifts (st : Scheduler) (person : Person.t) (slot : Slot.t)
  : list Slot.t :=
  List.filter (fun s => assignedTo (Person.email person) s
                        && String.eqb (Slot.dateStr s) (Slot.dateStr slot))
              (schedule st).

(** The same filter with the slot itself left out ([s.id !== slot.id]), as
    [optimizeWithSwaps] and [balanceShifts] write it inline. *)
Definition otherSameDayShifts (st : Scheduler) (person : Person.t) (slot : Slot.t)
  : list Slot.t :=
  List.filter (fun s => negb (String.eqb (Slot.id s) (Slot.id slot))
                        && assignedTo (Person.email person) s
                        && String.eqb (Slot.dateStr s) (Slot.dateStr slot))
              (schedule st).

(** The preference adjustment shared by [calculateCost] and the ranking of
    the initial fill: -5 preferred, else +10 not preferred, else 0. *)
Definition prefCost (st : Scheduler) (person : Person.t) (slot : Slot.t) : Z :=
  match preferences st !! Person.email person with
  | Some prefs =>
      if bool_decide (Slot.dateStr slot ∈ Prefs.preferred prefs) then -5
      else if bool_decide (Slot.dateStr slot ∈ Prefs.notPreferred prefs) then 10
      else 0
  | None => 0
  end.

Definition calculateCost (st : Scheduler) (person : Person.t) (slot : Slot.t)
           (currentLoad : gmap string Load.t) (targets : option Targets.t)
  : Result Z :=
  let cost := 0 in
  load ← deref (currentLoad !! Person.email person);
  let shiftType := getShiftTypeKey slot in
  let personCount := Load.get load shiftType in
  let cost :=
    match targets with
    | Some ts =>
        let target := Targets.get ts shiftType in
        if Target.max target <=? personCount then cost + 100000
        else
          let cost := cost + personCount * 1000 in
          if (Target.min target <=? personCount) && (0 <? Target.min target)
          then cost + 500 else cost
    | None => cost
    end in
  let cost := cost + prefCost st person slot in
  let cost := if Slot.isWeekend slot then cost + 2 else cost in
  let sameDayShifts := getSameDayShifts st person slot in
  let cost := if (0 <? length sameDayShifts)%nat then cost + 1000000 else cost in
  Ok cost.

Definition initializeLoad (st : Scheduler) : gmap string Load.t :=
  foldl (fun load person => <[Person.email person := Load.zero]> load) ∅ (people st).

(** [load[shiftType] += dc; load.total_hours += dh] on the record stored
    under [email]. *)
Definition bumpLoad (currentLoad : gmap string Load.t) (email : string)
           (k : ShiftType.t) (dc dh : Z) : Result (gmap string Load.t) :=
  load ← deref (currentLoad !! email);
  Ok (<[email := Load.bump load k dc dh]> currentLoad).

Section Engine.
Context `{HostEnv}.

(** [Math.floor(total / n)] and [Math.ceil(total / n)].  With an empty
    roster JavaScript yields [NaN] or an infinity where [Z] division
    yields 0; no comparison with a target is made then, because each one
    is made while visiting a person. *)
Definition mkTarget (total n : Z) : Target.t :=
  Target.mk total (total / n) (- ((- total) / n)).

Definition calculateTargetShifts (st : Scheduler) : Targets.t :=
  let dates := generateDates st in
  let weekdayCount :=
    Z.of_nat (length (List.filter (fun d => negb (isWeekendNight d)) dates)) in
  let weekendCount := Z.of_nat (length (List.filter isWeekendNight dates)) in
  let n := Z.of_nat (length (people st)) in
  Targets.mk (mkTarget (weekdayCount * primaryCount st) n)
             (mkTarget (weekendCount * primaryCount st) n)
             (mkTarget (weekdayCount * secondaryCount st) n)
             (mkTarget (weekendCount * secondaryCount st) n).

(** The comparator of [slots.sort] in [generateSchedule]. *)
Definition compareSlots (a b : Slot.t) : Z :=
  if negb (String.eqb (Slot.dateStr a) (Slot.dateStr b)) then
    match Slot.date a, Slot.date b with
    | JS.Day x, JS.Day y => x - y
    | _, _ => 0
    end
  else
    let diff s := (if Slot.isWeekend s then 10 else 0)
                  + (if Role_eqb (Slot.role s) primary then 5 else 0) in
    diff b - diff a.

(** *** Initial fill: the body of [for (const slot of slots)] *)

Definition strictCandidate (st : Scheduler) (currentLoad : gmap string Load.t)
           (target : Target.t) (slot : Slot.t) (p : Person.t) : Result bool :=
  load ← deref (currentLoad !! Person.email p);
  let shiftTypeKey := getShiftTypeKey slot in
  if Target.max target <=? Load.get load shiftTypeKey then Ok false
  else if (0 <? length (getSameDayShifts st p slot))%nat then Ok false
  else if Load.get load shiftTypeKey <? Target.min target then Ok true
  else Ok (canAssign st p slot).

Definition freeThatDay (st : Scheduler) (slot : Slot.t) (p : Person.t) : bool :=
  (length (getSameDayShifts st p slot) =? 0)%nat.

Definition overrideWarning : string :=
  "Assigned despite unavailable date - required coverage".

Definition cannotScheduleMessage (slot : Slot.t) : string :=
  "Cannot schedule slot " +:+ Slot.id slot
    +:+ ": all RAs are already assigned that day".

(** The first [filter]: the strict pool. *)
Definition strictPool (st : Scheduler) (currentLoad : gmap string Load.t)
           (target : Target.t) (slot : Slot.t) : Result (list Person.t) :=
  filterR (strictCandidate st currentLoad target slot) (people st).

(** The candidate pool and the slot, flagged when the last resort was
    needed. *)
Definition candidatePool (st : Scheduler) (currentLoad : gmap string Load.t)
           (target : Target.t) (slot : Slot.t)
  : Result (list Person.t * Slot.t) :=
  candidates ← strictPool st currentLoad target slot;
  match candidates with
  | _ :: _ => Ok (candidates, slot)
  | [] =>
      let candidates := List.filter (freeThatDay st slot) (people st) in
      match candidates with
      | [] => Throw (Err (cannotScheduleMessage slot))
      | _ :: _ => Ok (candidates, Slot.setWarning slot overrideWarning)
      end
  end.

Record Ranked : Type := mkRanked {
  rPerson : Person.t;
  rPrefCost : Z;
  rRotatedIndex : option Z
}.

(** [a - b] on numbers that may be [NaN]; the sort reads a [NaN]
    comparison as 0. *)
Definition compareRanked (a b : Ranked) : Z :=
  if negb (rPrefCost a =? rPrefCost b) then rPrefCost a - rPrefCost b
  else match rRotatedIndex a, rRotatedIndex b with
       | Some x, Some y => x - y
       | _, _ => 0
       end.

Definition rankCandidates (st : Scheduler) (slot : Slot.t)
           (fairCandidates : list Person.t) : list Ranked :=
  let len := Z.of_nat (length fairCandidates) in
  let dateNum := JS.parseInt (JS.removeAll JS.dash (Slot.dateStr slot)) in
  let slotNum := Slot.slotIndex slot
                 + (if Role_eqb (Slot.role slot) primary then 0 else 100) in
  let rotationSeed := (fun d => Z.rem (d + slotNum) len) <$> dateNum in
  stableSort compareRanked
    ((fun '(originalIndex, person) =>
        mkRanked person (prefCost st person slot)
                 ((fun seed => Z.rem (Z.of_nat originalIndex + seed) len)
                    <$> rotationSeed))
       <$> indexed fairCandidates).

Definition assignSlot (targets : Targets.t) (st : Scheduler)
           (currentLoad : gmap string Load.t) (slot : Slot.t)
  : Result (Scheduler * gmap string Load.t) :=
  let shiftTypeKey := getShiftTypeKey slot in
  let target := Targets.get targets shiftTypeKey in
  '(candidates, slot) ← candidatePool st currentLoad target slot;
  counts ← mapR (fun p => load ← deref (currentLoad !! Person.email p);
                          Ok (Load.get load shiftTypeKey)) candidates;
  let minShiftCount :=
    match counts with
    | c :: cs => minList c cs
    | [] => 0
    end in
  fairCandidates ←
    filterR (fun p => load ← deref (currentLoad !! Person.email p);
                      Ok (Load.get load shiftTypeKey =? minShiftCount))
            candidates;
  best ← deref (head (rankCandidates st slot fairCandidates));
  let slot := Slot.setAssigned slot (rPerson best) None in
  currentLoad ← bumpLoad currentLoad (Person.email (rPerson best))
                         shiftTypeKey 1 (Slot.duration slot);
  Ok (withSchedule st (schedule st ++ [slot]), currentLoad).

(** The loop itself.  It stops at the first exception; the state it
    returns is the one the exception leaves behind. *)
Fixpoint assignAll (targets : Targets.t) (slots : list Slot.t) (st : Scheduler)
         (currentLoad : gmap string Load.t)
  : Scheduler * gmap string Load.t * option Error :=
  match slots with
  | [] => (st, currentLoad, None)
  | slot :: rest =>
      match assignSlot targets st currentLoad slot with
      | Ok (st', load') => assignAll targets rest st' load'
      | Throw e => (st, currentLoad, Some e)
      end
  end.

(** *** Swap optimizer *)

Definition reassign (st : Scheduler) (i : nat) (slot : Slot.t)
           (person : Person.t) (c : option Z) : Scheduler :=
  withSchedule st (<[i := Slot.setAssigned slot person c]> (schedule st)).

(** One turn of [for (const person of this.people)]: [Some] when the slot
    was handed to [person]. *)
Definition trySwap (targets : Targets.t) (st : Scheduler)
           (currentLoad : gmap string Load.t) (i : nat) (slot : Slot.t)
           (currentPerson : Person.t) (currentCost : Z) (person : Person.t)
  : Result (option (Scheduler * gmap string Load.t)) :=
  let shiftType := getShiftTypeKey slot in
  let target := Targets.get targets shiftType in
  if String.eqb (Person.email person) (Person.email currentPerson) then Ok None
  else
    newPersonLoad ← deref (currentLoad !! Person.email person);
    if Target.max target <=? Load.get newPersonLoad shiftType then Ok None
    else if negb (canAssign st person slot)
            && (Target.min target <=? Load.get newPersonLoad shiftType)
    then Ok None
    else if (0 <? length (otherSameDayShifts st person slot))%nat then Ok None
    else
      swapCost ← calculateCost st person slot currentLoad (Some targets);
      if swapCost <? currentCost - 20 then
        currentLoad ← bumpLoad currentLoad (Person.email currentPerson)
                               shiftType (-1) (- Slot.duration slot);
        currentLoad ← bumpLoad currentLoad (Person.email person)
                               shiftType 1 (Slot.duration slot);
        Ok (Some (reassign st i slot person (Some swapCost), currentLoad))
      else Ok None.

(** The body of [for (const slot of this.schedule)]; the flag tells
    whether a swap was made. *)
Definition optimizeSlot (targets : Targets.t) (st : Scheduler)
           (currentLoad : gmap string Load.t) (i : nat) (slot : Slot.t)
  : Result (Scheduler * gmap string Load.t * bool) :=
  currentPerson ← deref (Slot.assignedPerson slot);
  let shiftType := getShiftTypeKey slot in
  let target := Targets.get targets shiftType in
  currentPersonLoad ← deref (currentLoad !! Person.email currentPerson);
  if Load.get currentPersonLoad shiftType <=? Target.min target
  then Ok (st, currentLoad, false)
  else
    currentCost ← calculateCost st currentPerson slot currentLoad (Some targets);
    r ← firstR (trySwap targets st currentLoad i slot currentPerson currentCost)
               (people st);
    match r with
    | Some (st', load') => Ok (st', load', true)
    | None => Ok (st, currentLoad, false)
    end.

(** One pass over the schedule, slot [i] onwards. *)
Fixpoint optimizePass (targets : Targets.t) (n : nat) (i : nat) (st : Scheduler)
         (currentLoad : gmap string Load.t) (improved : bool)
  : Result (Scheduler * gmap string Load.t * bool) :=
  match n with
  | O => Ok (st, currentLoad, improved)
  | S n' =>
      match schedule st !! i with
      | None => Ok (st, currentLoad, improved)
      | Some slot =>
          '(st', load', swapped) ← optimizeSlot targets st currentLoad i slot;
          optimizePass targets n' (S i) st' load' (improved || swapped)
      end
  end.

(** [while (improved && iterations < maxIterations)] *)
Fixpoint optimizeLoop (targets : Targets.t) (maxIterations : nat) (st : Scheduler)
         (currentLoad : gmap string Load.t)
  : Result (Scheduler * gmap string Load.t) :=
  match maxIterations with
  | O => Ok (st, currentLoad)
  | S k =>
      '(st', load', improved) ←
        optimizePass targets (length (schedule st)) 0 st currentLoad false;
      if improved : bool then optimizeLoop targets k st' load' else Ok (st', load')
  end.

Definition optimizeWithSwaps (targets : Targets.t) (st : Scheduler)
           (currentLoad : gmap string Load.t)
  : Result (Scheduler * gmap string Load.t) :=
  optimizeLoop targets 100 st currentLoad.

(** *** Balancer *)

Definition hasNotPreferred (st : Scheduler) (p : Person.t) (slot : Slot.t) : bool :=
  match preferences st !! Person.email p with
  | Some prefs => bool_decide (Slot.dateStr slot ∈ Prefs.notPreferred prefs)
  | None => false
  end.

(** [prefs?.preferred.has(d) ? -1 : (prefs?.notPreferred.has(d) ? 1 : 0)] *)
Definition transferScore (st : Scheduler) (slot : Slot.t) (p : Person.t) : Z :=
  match preferences st !! Person.email p with
  | Some prefs =>
      if bool_decide (Slot.dateStr slot ∈ Prefs.preferred prefs) then -1
      else if bool_decide (Slot.dateStr slot ∈ Prefs.notPreferred prefs) then 1
      else 0
  | None => 0
  end.

(** The slots of [person] in category [shiftType], with their positions. *)
Definition slotsOf (st : Scheduler) (shiftType : ShiftType.t) (person : Person.t)
  : list (nat * Slot.t) :=
  List.filter (fun '(_, s) => assignedTo (Person.email person) s
                              && ShiftType.eqb (getShiftTypeKey s) shiftType)
              (indexed (schedule st)).

(** Strategy 1 for one slot of the donor. *)
Definition tryTransfer (shiftType : ShiftType.t) (recipients : list Person.t)
           (st : Scheduler) (currentLoad : gmap string Load.t)
           (fromPerson : Person.t) (islot : nat * Slot.t)
  : Result (option (Scheduler * gmap string Load.t)) :=
  let '(i, slot) := islot in
  let candidates :=
    stableSort (fun a b => transferScore st slot a - transferScore st slot b)
      (List.filter (fun p => (length (otherSameDayShifts st p slot) =? 0)%nat)
                   recipients) in
  let toPerson :=
    match List.find (fun p => negb (hasNotPreferred st p slot)) candidates with
    | Some p => Some p
    | None => head candidates
    end in
  match toPerson with
  | Some toPerson =>
      currentLoad ← bumpLoad currentLoad (Person.email fromPerson)
                             shiftType (-1) (- Slot.duration slot);
      currentLoad ← bumpLoad currentLoad (Person.email toPerson)
                             shiftType 1 (Slot.duration slot);
      Ok (Some (reassign st i slot toPerson (Slot.cost slot), currentLoad))
  | None => Ok None
  end.

Definition directTransfer (shiftType : ShiftType.t) (donors recipients : list Person.t)
           (st : Scheduler) (currentLoad : gmap string Load.t)
  : Result (option (Scheduler * gmap string Load.t)) :=
  firstR (fun fromPerson =>
            firstR (tryTransfer shiftType recipients st currentLoad fromPerson)
                   (slotsOf st shiftType fromPerson))
         donors.

(** Strategy 2, innermost loop: one slot of the intermediary. *)
Definition tryTriangle (shiftType : ShiftType.t) (recipients : list Person.t)
           (st : Scheduler) (currentLoad : gmap string Load.t)
           (donor : Person.t) (idonorSlot : nat * Slot.t)
           (intermediary : Person.t) (iintSlot : nat * Slot.t)
  : Result (option (Scheduler * gmap string Load.t)) :=
  let '(di, donorSlot) := idonorSlot in
  let '(ii, intSlot) := iintSlot in
  match List.find (fun p => (length (otherSameDayShifts st p intSlot) =? 0)%nat)
                  recipients with
  | Some recipient =>
      currentLoad ← bumpLoad currentLoad (Person.email donor)
                             shiftType (-1) (- Slot.duration donorSlot);
      currentLoad ← bumpLoad currentLoad (Person.email intermediary)
                             shiftType 1 (Slot.duration donorSlot);
      let st := reassign st di donorSlot intermediary (Slot.cost donorSlot) in
      currentLoad ← bumpLoad currentLoad (Person.email intermediary)
                             shiftType (-1) (- Slot.duration intSlot);
      currentLoad ← bumpLoad currentLoad (Person.email recipient)
                             shiftType 1 (Slot.duration intSlot);
      let st := reassign st ii intSlot recipient (Slot.cost intSlot) in
      Ok (Some (st, currentLoad))
  | None => Ok None
  end.

Definition triangleSwap (shiftType : ShiftType.t) (minCount maxCount : Z)
           (donors recipients : list Person.t)
           (st : Scheduler) (currentLoad : gmap string Load.t)
  : Result (option (Scheduler * gmap string Load.t)) :=
  firstR (fun donor =>
    firstR (fun idonorSlot : nat * Slot.t =>
      let donorSlot := snd idonorSlot in
      intermediaries ←
        filterR (fun p =>
                   load ← deref (currentLoad !! Person.email p);
                   let pCount := Load.get load shiftType in
                   Ok (negb (String.eqb (Person.email p) (Person.email donor))
                       && negb (existsb (fun r => String.eqb (Person.email r)
                                                             (Person.email p))
                                        recipients)
                       && (minCount <=? pCount) && (pCount <=? maxCount)))
                (people st);
      firstR (fun intermediary =>
        if (0 <? length (otherSameDayShifts st intermediary donorSlot))%nat
        then Ok None
        else
          let intSlots :=
            List.filter (fun '(_, s) => negb (String.eqb (Slot.dateStr s)
                                                         (Slot.dateStr donorSlot)))
                        (slotsOf st shiftType intermediary) in
          firstR (tryTriangle shiftType recipients st currentLoad
                              donor idonorSlot intermediary)
                 intSlots)
        intermediaries)
      (slotsOf st shiftType donor))
    donors.

(** One turn of the [while] loop for a category: [None] when the loop
    ends there (the counts are within 1, or no move was found). *)
Definition balanceStep (shiftType : ShiftType.t) (st : Scheduler)
           (currentLoad : gmap string Load.t)
  : Result (option (Scheduler * gmap string Load.t)) :=
  counts ← mapR (fun p => load ← deref (currentLoad !! Person.email p);
                          Ok (p, Load.get load shiftType))
                (people st);
  match counts with
  | [] => Ok None
  | (_, c) :: cs =>
      let minCount := minList c (snd <$> cs) in
      let maxCount := maxList c (snd <$> cs) in
      if maxCount - minCount <=? 1 then Ok None
      else
        let donors := fst <$> List.filter (fun pc => snd pc =? maxCount) counts in
        let recipients := fst <$> List.filter (fun pc => snd pc =? minCount) counts in
        r ← directTransfer shiftType donors recipients st currentLoad;
        match r with
        | Some moved => Ok (Some moved)
        | None => triangleSwap shiftType minCount maxCount donors recipients
                               st currentLoad
        end
  end.

(** [while (madeChange && iterations < maxIterations)] *)
Fixpoint balanceLoop (shiftType : ShiftType.t) (maxIterations : nat)
         (st : Scheduler) (currentLoad : gmap string Load.t)
  : Result (Scheduler * gmap string Load.t) :=
  match maxIterations with
  | O => Ok (st, currentLoad)
  | S k =>
      r ← balanceStep shiftType st currentLoad;
      match r with
      | Some (st', load') => balanceLoop shiftType k st' load'
      | None => Ok (st, currentLoad)
      end
  end.

Fixpoint balanceTypes (shiftTypes : list ShiftType.t) (st : Scheduler)
         (currentLoad : gmap string Load.t)
  : Result (Scheduler * gmap string Load.t) :=
  match shiftTypes with
  | [] => Ok (st, currentLoad)
  | shiftType :: rest =>
      '(st', load') ← balanceLoop shiftType 500 st currentLoad;
      balanceTypes rest st' load'
  end.

Definition balanceShifts (st : Scheduler) (currentLoad : gmap string Load.t)
  : Result (Scheduler * gmap string Load.t) :=
  balanceTypes ShiftType.all st currentLoad.

End Engine.

(** ** Fairness report and the main entry point *)

Module PersonReport.
Record t : Type := mk {
  name : string;
  email : string;
  weekdayPrimary : Z;
  weekendPrimary : Z;
  weekdaySecondary : Z;
  weekendSecondary : Z;
  totalHours : Z;
  totalShifts : Z;
  preferredAssignments : Z;
  indifferentAssignments : Z;
  notPreferredAssignments : Z
}.
End PersonReport.

(** The integer part of the report.  [averageLoad] and [fairnessScore]
    are floating-point figures computed from the same counters; they are
    not part of this embedding, and computing them cannot throw. *)
Module FairnessReport.
Record t : Type := mk {
  byPerson : list PersonReport.t;
  totalShifts : Z;
  totalDays : Z;
  weekendDays : Z
}.
End FairnessReport.

Record Output : Type := mkOutput {
  outSchedule : list Slot.t;
  fairnessReport : FairnessReport.t
}.

Section Main.
Context `{HostEnv}.

Definition personReport (st : Scheduler) (currentLoad : gmap string Load.t)
           (person : Person.t) : Result PersonReport.t :=
  let load := currentLoad !! Person.email person in
  let prefs := preferences st !! Person.email person in
  let assignedSlots := List.filter (assignedTo (Person.email person)) (schedule st) in
  kinds ← mapR (fun slot =>
                  prefs ← deref prefs;
                  Ok (if bool_decide (Slot.dateStr slot ∈ Prefs.preferred prefs)
                      then 0%nat
                      else if bool_decide (Slot.dateStr slot ∈ Prefs.notPreferred prefs)
                           then 2%nat else 1%nat))
               assignedSlots;
  load ← deref load;
  let count k := Z.of_nat (length (List.filter (Nat.eqb k) kinds)) in
  Ok (PersonReport.mk (Person.name person) (Person.email person)
        (Load.weekday_primary load) (Load.weekend_primary load)
        (Load.weekday_secondary load) (Load.weekend_secondary load)
        (Load.total_hours load) (Z.of_nat (length assignedSlots))
        (count 0%nat) (count 1%nat) (count 2%nat)).

Definition generateFairnessReport (st : Scheduler) (currentLoad : gmap string Load.t)
  : Result FairnessReport.t :=
  let totalShifts := Z.of_nat (length (schedule st)) in
  let totalDays := Z.of_nat (length (generateDates st)) in
  let weekendDays := Z.of_nat (length (List.filter isWeekendNight (generateDates st))) in
  byPerson ← mapR (personReport st currentLoad) (people st);
  Ok (FairnessReport.mk byPerson totalShifts totalDays weekendDays).

Definition capacityMessage (st : Scheduler) : string :=
  "Need at least " +:+ pretty (primaryCount st + secondaryCount st)
    +:+ " people to schedule (" +:+ pretty (primaryCount st) +:+ " primary + "
    +:+ pretty (secondaryCount st) +:+ " secondary per day)".

(** The three phases after the pre-flight checks.  An exception of the
    fill leaves the slots assigned before it in [this.schedule].  The
    optimizer and the balancer raise none on the states the fill leaves
    ([optimizeLoop_total], [balanceTypes_total] below); their [Throw]
    branches are there for the types only. *)
Definition runPhases (st : Scheduler) (slots : list Slot.t)
           (currentLoad : gmap string Load.t) (targets : Targets.t)
  : Result Output * Scheduler :=
  match assignAll targets slots st currentLoad with
  | (st, _, Some e) => (Throw e, st)
  | (st, currentLoad, None) =>
      match optimizeWithSwaps targets st currentLoad with
      | Throw e => (Throw e, st)
      | Ok (st, currentLoad) =>
          match balanceShifts st currentLoad with
          | Throw e => (Throw e, st)
          | Ok (st, currentLoad) =>
              match generateFairnessReport st currentLoad with
              | Throw e => (Throw e, st)
              | Ok report => (Ok (mkOutput (schedule st) report), st)
              end
          end
      end
  end.

(** [generateSchedule()]: the outcome of the call and the scheduler it
    leaves behind. *)
Definition generateSchedule (st : Scheduler) : Result Output * Scheduler :=
  let totalSlotsPerDay := primaryCount st + secondaryCount st in
  if Z.of_nat (length (people st)) <? totalSlotsPerDay
  then (Throw (Err (capacityMessage st)), st)
  else
    match dateRange st with
    | None => (Throw (Err "Date range not set"), st)
    | Some _ =>
        let slots := generateSlots st in
        let currentLoad := initializeLoad st in
        let targets := calculateTargetShifts st in
        let st := withSchedule st [] in
        let slots := stableSort compareSlots slots in
        runPhases st slots currentLoad targets
    end.

(** ** Export *)

Definition newline : string := String (ascii_of_N 10) EmptyString.

Definition csvHeader : list string :=
  ["Date"; "Day"; "Role"; "Slot"; "Weekend"; "Duration (hours)";
   "Person Name"; "Person Email"].

(** One row of [exportToCSV]; [join] prints [undefined] as the empty
    string. *)
Definition csvRow (s : Slot.t) : list string :=
  [Slot.dateStr s;
   default EmptyString (getDayName (Slot.date s));
   roleName (Slot.role s);
   JS.toUpperCase (Slot.slot s);
   if Slot.isWeekend s then "Yes" else "No";
   pretty (Slot.duration s);
   match Slot.assignedPerson s with Some p => Person.name p | None => "UNASSIGNED" end;
   match Slot.assignedPerson s with Some p => Person.email p | None => EmptyString end].

Definition csvRows (st : Scheduler) : list (list string) :=
  csvHeader :: (csvRow <$> schedule st).

Definition exportToCSV (st : Scheduler) : string :=
  JS.join newline (JS.join "," <$> csvRows st).

Definition w2wHeader : list string :=
  ["Date"; "Day"; "Start Time"; "End Time"; "Position"; "Employee Name";
   "Employee Email"].

(** One row of [exportForWhenToWork], or nothing for a slot the loop
    skips ([continue]). *)
Definition w2wRow (teamName : string) (s : Slot.t) : option (list string) :=
  match Slot.assignedPerson s with
  | None => None
  | Some p =>
      let startTime := "8:00 PM" in
      let endTime :=
        if Slot.isWeekend s && Role_eqb (Slot.role s) primary
        then "8:00 PM" else "8:00 AM" in
      let position := teamName +:+ " - " +:+ JS.capitalize (roleName (Slot.role s))
                               +:+ " " +:+ JS.toUpperCase (Slot.slot s) in
      Some [Slot.dateStr s;
            default "undefined" (getDayName (Slot.date s));
            startTime; endTime; position; Person.name p; Person.email p]
  end.

Definition w2wRows (teamName : string) (st : Scheduler) : list (list string) :=
  w2wHeader :: omap (w2wRow teamName) (schedule st).

Definition dquote : ascii := ascii_of_N 34.

Definition quote (cell : string) : string :=
  String dquote cell +:+ String dquote EmptyString.

Definition exportForWhenToWork (teamName : string) (st : Scheduler) : string :=
  JS.join newline ((fun row => JS.join "," (quote <$> row)) <$> w2wRows teamName st).

End Main.

(** A sample host: UTC, with a [Date] parser that accepts no string. *)
Definition sampleHost : HostEnv :=
  {| hostDateParse := fun _ => JS.InvalidDate; hostEpochDay := 0 |}.


(** ** The cost formula in the specification's words

    The sum the specification gives for [calculateCost], term by term, for
    a person whose load record is [load]; it is compared with
    [calculateCost] below. *)
Definition specifiedCost (st : Scheduler) (person : Person.t) (slot : Slot.t)
           (load : Load.t) (targets : Targets.t) : Z :=
  let currentCategoryCount := Load.get load (getShiftTypeKey slot) in
  let target := Targets.get targets (getShiftTypeKey slot) in
  currentCategoryCount * 1000
  + (if Target.min target <=? currentCategoryCount then 500 else 0)
  + (if Target.max target <=? currentCategoryCount then 100000 else 0)
  + prefCost st person slot
  + (if Slot.isWeekend slot then 2 else 0)
  + (if (0 <? length (otherSameDayShifts st person slot))%nat then 1000000 else 0).

(** ** Auxiliary predicates on strings, used in the proofs *)

Definition isDigitChar (c : ascii) : bool :=
  let n := N_of_ascii c in ((48 <=? n) && (n <=? 57))%N.

Fixpoint allDigits (s : string) : bool :=
  match s with
  | EmptyString => true
  | String c rest => isDigitChar c && allDigits rest
  end.

Fixpoint noDash (s : string) : bool :=
  match s with
  | EmptyString => true
  | String c rest => negb (Ascii.eqb c JS.dash) && noDash rest
  end.

(** Every value from 0 to 99, padded to two characters. *)
Definition twoDigitsOk (v : Z) : bool :=
  let s := JS.padStart2 (pretty v) in
  allDigits s && negb (String.eqb s EmptyString) && (JS.readDigits 10 0 s =? v)
  && (String.length s =? 2)%nat.

(** ** Invariants of a scheduling run *)

(** The number of slots of category [k] that a schedule assigns to the
    person with address [email], and the hours of all slots it assigns to
    that person. *)
Definition shiftCount (email : string) (k : ShiftType.t) (sch : list Slot.t) : Z :=
  Z.of_nat (length (List.filter
                      (fun s => assignedTo email s
                                && ShiftType.eqb (getShiftTypeKey s) k) sch)).

Definition hoursOf (email : string) (sch : list Slot.t) : Z :=
  foldr (fun s acc => Slot.duration s + acc) 0 (List.filter (assignedTo email) sch).

(** The load record stored under [email] agrees with the schedule. *)
Definition recordMatches (sch : list Slot.t) (email : string) (l : Load.t) : Prop :=
  (forall k, Load.get l k = shiftCount email k sch)
  /\ Load.total_hours l = hoursOf email sch.

(** Every person of the roster has a load record, and it agrees with the
    stored schedule. *)
Definition LoadMatches (st : Scheduler) (currentLoad : gmap string Load.t) : Prop :=
  forall p, p ∈ people st ->
    exists l, currentLoad !! Person.email p = Some l
              /\ recordMatches (schedule st) (Person.email p) l.

(** No two slots of the schedule with equal calendar-day strings are
    assigned to the same person. *)
Definition NoDoubleBooking (sch : list Slot.t) : Prop :=
  forall i j s1 s2 email,
    sch !! i = Some s1 -> sch !! j = Some s2 -> i <> j ->
    assignedTo email s1 = true -> assignedTo email s2 = true ->
    Slot.dateStr s1 <> Slot.dateStr s2.

(** The range [setShiftCounts] keeps the two counts in. *)
Definition shiftCountsClamped (st : Scheduler) : Prop :=
  0 <= primaryCount st <= 10 /\ 0 <= secondaryCount st <= 10.

Section Run.
Context `{HostEnv}.

(** The slots of a run in the order the fill takes them. *)
Definition sortedSlots (st0 : Scheduler) : list Slot.t :=
  stableSort compareSlots (generateSlots st0).

(** The states [generateSchedule] passes through once the pre-flight
    checks are over: the stored schedule and the load map after the first
    [k] slots have been assigned, after a turn of the optimizer's loop
    over the slots, and after a turn of the balancer's loop. *)
Inductive Visited (st0 : Scheduler) : Scheduler -> gmap string Load.t -> Prop :=
| visited_fill (k : nat) st currentLoad :
    assignAll (calculateTargetShifts st0) (take k (sortedSlots st0))
              (withSchedule st0 []) (initializeLoad st0)
    = (st, currentLoad, None) ->
    Visited st0 st currentLoad
| visited_swap st currentLoad i slot st' load' swapped :
    Visited st0 st currentLoad ->
    schedule st !! i = Some slot ->
    optimizeSlot (calculateTargetShifts st0) st currentLoad i slot
    = Ok (st', load', swapped) ->
    Visited st0 st' load'
| visited_balance st currentLoad shiftType st' load' :
    Visited st0 st currentLoad ->
    balanceStep shiftType st currentLoad = Ok (Some (st', load')) ->
    Visited st0 st' load'.

End Run.

(** The same agreement for every record of the load map, and the sum that
    both counters are instances of; used in the proofs. *)
Definition LoadExact (sch : list Slot.t) (currentLoad : gmap string Load.t) : Prop :=
  forall email l, currentLoad !! email = Some l -> recordMatches sch email l.

Definition sumOver (f : Slot.t -> Z) (sch : list Slot.t) : Z :=
  foldr (fun s acc => f s + acc) 0 sch.

Definition countTerm (email : string) (k : ShiftType.t) (s : Slot.t) : Z :=
  if assignedTo email s && ShiftType.eqb (getShiftTypeKey s) k then 1 else 0.

Definition hoursTerm (email : string) (s : Slot.t) : Z :=
  if assignedTo email s then Slot.duration s else 0.

(** One reassignment as every phase after the fill performs it: slot [i],
    held by the person with address [from], goes to [toPerson], a person
    of the roster who has no other slot that day, and the two load records
    follow. *)
Definition isMove (st : Scheduler) (currentLoad : gmap string Load.t)
           (st' : Scheduler) (load' : gmap string Load.t) : Prop :=
  exists i slot from toPerson c load1,
    schedule st !! i = Some slot
    /\ assignedTo from slot = true
    /\ toPerson ∈ people st
    /\ Person.email toPerson <> from
    /\ otherSameDayShifts st toPerson slot = []
    /\ bumpLoad currentLoad from (getShiftTypeKey slot) (-1) (- Slot.duration slot)
       = Ok load1
    /\ bumpLoad load1 (Person.email toPerson) (getShiftTypeKey slot) 1 (Slot.duration slot)
       = Ok load'
    /\ st' = reassign st i slot toPerson c.

Inductive Moves : Scheduler -> gmap string Load.t ->
                  Scheduler -> gmap string Load.t -> Prop :=
| moves_none st currentLoad : Moves st currentLoad st currentLoad
| moves_step st currentLoad st1 load1 st2 load2 :
    isMove st currentLoad st1 load1 ->
    Moves st1 load1 st2 load2 ->
    Moves st currentLoad st2 load2.

(** The counter of category [k] in a row of the fairness report. *)
Definition reportCount (r : PersonReport.t) (k : ShiftType.t) : Z :=
  match k with
  | ShiftType.weekday_primary => PersonReport.weekdayPrimary r
  | ShiftType.weekend_primary => PersonReport.weekendPrimary r
  | ShiftType.weekday_secondary => PersonReport.weekdaySecondary r
  | ShiftType.weekend_secondary => PersonReport.weekendSecondary r
  end.

(** The identifier [generateSlots] gives a slot. *)
Definition slotId (ds : string) (r : Role) (i : Z) : string :=
  ds +:+ "-" +:+ roleName r +:+ "-" +:+ getSlotLabel i.

(** Every person of the roster has a load record and every slot of the
    schedule is held by a person of the roster: the two facts that keep
    the optimizer and the balancer from reading a property of [undefined]
    or [null]. *)
Definition RunReady (st : Scheduler) (currentLoad : gmap string Load.t) : Prop :=
  (forall p, p ∈ people st -> is_Some (currentLoad !! Person.email p))
  /\ (forall s, s ∈ schedule st ->
        exists p, Slot.assignedPerson s = Some p /\ p ∈ people st).

(** * The rest of the class, and two helpers of the page script

    [hashString], [getCalendarEvents] and [getShiftsByWeek] of
    [scheduler.js], and [parseCSVLine] of [app.js].  Strings are taken as
    sequences of code units below 256, which is what [charCodeAt] and
    indexing see of a Latin-1 text. *)

(** ** 32-bit integers, as the bitwise operators see them *)

Module Int32.

(** [ToInt32]: the representative of [z] modulo 2^32 from -2^31 up to
    2^31 - 1. *)
Definition wrap (z : Z) : Z := (z + 2 ^ 31) mod 2 ^ 32 - 2 ^ 31.

(** [x << k] for a shift count from 0 to 31. *)
Definition shl (x k : Z) : Z := wrap (Z.shiftl (wrap x) k).

(** [x & y] *)
Definition and (x y : Z) : Z := wrap (Z.land (wrap x) (wrap y)).

End Int32.

(** [str.charCodeAt(i)] for every [i], in order. *)
Definition charCodes (s : string) : list Z :=
  (fun c => Z.of_N (N_of_ascii c)) <$> list_ascii_of_string s.

(** The body of the loop of [hashString]: the arithmetic between the two
    bitwise operators is the exact arithmetic of numbers, which integers
    below 2^53 have. *)
Definition hashStep (hash char : Z) : Z :=
  let hash := (Int32.shl hash 5 - hash) + char in
  Int32.and hash hash.

Definition hashCodes (codes : list Z) : Z := Z.abs (foldl hashStep 0 codes).

Definition hashString (str : string) : Z := hashCodes (charCodes str).

(** The polynomial that [hashString] evaluates, without the wrap-around. *)
Definition poly31 (codes : list Z) : Z := foldl (fun h c => 31 * h + c) 0 codes.

(** ** [trim] and [parseCSVLine] *)

Module Text.

(** White space and line terminators among the code units below 256. *)
Definition isSpace (c : ascii) : bool :=
  let n := N_of_ascii c in
  ((9 <=? n) && (n <=? 13) || (n =? 32) || (n =? 160))%N.

Fixpoint trimStart (s : string) : string :=
  match s with
  | String c rest => if isSpace c then trimStart rest else s
  | EmptyString => s
  end.

Fixpoint trimEnd (s : string) : string :=
  match s with
  | EmptyString => EmptyString
  | String c rest =>
      match trimEnd rest with
      | EmptyString => if isSpace c then EmptyString else String c EmptyString
      | t => String c t
      end
  end.

(** [s.trim()] *)
Definition trim (s : string) : string := trimEnd (trimStart s).

Fixpoint noChar (ch : ascii) (s : string) : bool :=
  match s with
  | EmptyString => true
  | String c rest => negb (Ascii.eqb c ch) && noChar ch rest
  end.

End Text.

Definition comma : ascii := ","%char.

(** The [for] loop of [parseCSVLine] from position [i] on, [line] being
    what is left of the line there, and the [push] after it. *)
Fixpoint parseCSVLine_loop (line : string) (result : list string) (current : string)
         (inQuotes : bool) : list string :=
  match line with
  | EmptyString => result ++ [Text.trim current]
  | String char rest =>
      if Ascii.eqb char dquote
      then parseCSVLine_loop rest result current (negb inQuotes)
      else if Ascii.eqb char comma && negb inQuotes
      then parseCSVLine_loop rest (result ++ [Text.trim current]) EmptyString inQuotes
      else parseCSVLine_loop rest result (current +:+ String char EmptyString) inQuotes
  end.

Definition parseCSVLine (line : string) : list string :=
  parseCSVLine_loop line [] EmptyString false.

(** ** Calendar view *)

Definition primaryColors : list string :=
  ["#1e40af"; "#3b82f6"; "#6366f1"; "#8b5cf6"; "#a855f7";
   "#c084fc"; "#d8b4fe"; "#7c3aed"; "#4f46e5"; "#4338ca"].

Definition secondaryColors : list string :=
  ["#166534"; "#22c55e"; "#10b981"; "#14b8a6"; "#06b6d4";
   "#0891b2"; "#0e7490"; "#155e75"; "#059669"; "#047857"].

Module CalendarEvent.
Record t : Type := mk {
  id : string;
  title : string;
  start : string;
  backgroundColor : option string;
  borderColor : option string;
  borderWidth : Z;
  role : Role;
  slot : string;
  slotIndex : Z;
  isWeekend : bool;
  duration : Z;
  person : option Person.t
}.
End CalendarEvent.

(** A filter argument is [null] or a string, and the empty string counts
    as no filter ([filterPerson && ...]). *)
Definition truthy (filter : option string) : bool :=
  match filter with
  | Some s => negb (String.eqb s EmptyString)
  | None => false
  end.

(** The callback of [filter] in [getCalendarEvents]. *)
Definition eventShown (filterPerson filterRole : option string) (slot : Slot.t) : bool :=
  if truthy filterPerson
     && negb (assignedTo (default EmptyString filterPerson) slot)
  then false
  else if truthy filterRole
          && negb (String.eqb (roleName (Slot.role slot)) (default EmptyString filterRole))
  then false
  else true.

(** [palette[slotIndex % palette.length]]: the remainder has the sign of
    [slotIndex], and a negative index reads [undefined]. *)
Definition paletteColor (palette : list string) (slotIndex : Z) : option string :=
  let r := Z.rem slotIndex (Z.of_nat (length palette)) in
  if r <? 0 then None else palette !! Z.to_nat r.

(** [`(${slot.role.charAt(0).toUpperCase()}${slot.slot.toUpperCase()})`] *)
Definition shiftTag (slot : Slot.t) : string :=
  "(" +:+ (match roleName (Slot.role slot) with
           | String c _ => String (JS.upperChar c) EmptyString
           | EmptyString => EmptyString
           end)
      +:+ JS.toUpperCase (Slot.slot slot) +:+ ")".

(** The callback of [map] in [getCalendarEvents]. *)
Definition eventOf (slot : Slot.t) : CalendarEvent.t :=
  let slotIndex := Slot.slotIndex slot in
  let color :=
    match Slot.role slot with
    | primary => paletteColor primaryColors slotIndex
    | secondary => paletteColor secondaryColors slotIndex
    end in
  CalendarEvent.mk
    (Slot.id slot)
    (match Slot.assignedPerson slot with
     | Some p => Person.name p +:+ " " +:+ shiftTag slot
     | None => "UNASSIGNED " +:+ shiftTag slot
     end)
    (Slot.dateStr slot)
    color
    (if Slot.isWeekend slot then Some "#fbbf24" else color)
    (if Slot.isWeekend slot then 3 else 1)
    (Slot.role slot) (Slot.slot slot) slotIndex (Slot.isWeekend slot)
    (Slot.duration slot) (Slot.assignedPerson slot).

Definition getCalendarEvents (filterPerson filterRole : option string) (st : Scheduler)
  : list CalendarEvent.t :=
  eventOf <$> List.filter (eventShown filterPerson filterRole) (schedule st).

(** ** Shifts by week *)

Module WeekShift.
Record t : Type := mk {
  date : string;
  dayName : option string;
  dayOfWeek : option Z;
  role : Role;
  slot : string;
  isWeekend : bool;
  startTime : string;
  endTime : string;
  duration : Z;
  person : Person.t
}.
End WeekShift.

(** [weekStart.setDate(date.getDate() - dayOfWeek)] on a copy of [date]. *)
Definition weekStart (date : JS.Date) : JS.Date :=
  match date, JS.getDay date with
  | JS.Day n, Some dayOfWeek => JS.clip (n - dayOfWeek)
  | _, _ => JS.InvalidDate
  end.

(** [weeks[weekKey].push(x)], after [weeks[weekKey] = []] for a key that
    is not there yet.  The object keeps its keys in the order they were
    added, and no key is the name of an inherited property: each one
    holds a dash. *)
Fixpoint pushWeek (weekKey : string) (x : WeekShift.t)
         (weeks : list (string * list WeekShift.t)) : list (string * list WeekShift.t) :=
  match weeks with
  | [] => [(weekKey, [x])]
  | (k, xs) :: rest =>
      if String.eqb k weekKey then (k, xs ++ [x]) :: rest
      else (k, xs) :: pushWeek weekKey x rest
  end.

(** [weeks[weekKey]] *)
Fixpoint weekOf (weekKey : string) (weeks : list (string * list WeekShift.t))
  : option (list WeekShift.t) :=
  match weeks with
  | [] => None
  | (k, xs) :: rest => if String.eqb k weekKey then Some xs else weekOf weekKey rest
  end.

Section Weeks.
Context `{HostEnv}.

Definition weekKeyOf (slot : Slot.t) : string :=
  normalizeDate (InDate (weekStart (Slot.date slot))).

Definition weekShiftOf (slot : Slot.t) (p : Person.t) : WeekShift.t :=
  WeekShift.mk (Slot.dateStr slot) (getDayName (Slot.date slot))
               (JS.getDay (Slot.date slot)) (Slot.role slot) (Slot.slot slot)
               (Slot.isWeekend slot) "8:00 PM"
               (if Slot.isWeekend slot && Role_eqb (Slot.role slot) primary
                then "8:00 PM" else "8:00 AM")
               (Slot.duration slot) p.

(** The body of [for (const slot of this.schedule)]. *)
Definition addShift (weeks : list (string * list WeekShift.t)) (slot : Slot.t)
  : list (string * list WeekShift.t) :=
  match Slot.assignedPerson slot with
  | None => weeks
  | Some p => pushWeek (weekKeyOf slot) (weekShiftOf slot p) weeks
  end.

Definition getShiftsByWeek (st : Scheduler) : list (string * list WeekShift.t) :=
  foldl addShift [] (schedule st).

(** The entries [getShiftsByWeek] files under [weekKey], read off the
    schedule. *)
Definition shiftsOfWeek (weekKey : string) (sch : list Slot.t) : list WeekShift.t :=
  omap (fun slot =>
          match Slot.assignedPerson slot with
          | Some p => if String.eqb (weekKeyOf slot) weekKey
                      then Some (weekShiftOf slot p) else None
          | None => None
          end) sch.

End Weeks.

(** ** Predicates used in the statements *)

(** A slot as [generateSlots] made it: nobody assigned, no warning, no
    cost. *)
Definition bareSlot (s : Slot.t) : Slot.t :=
  Slot.mk (Slot.id s) (Slot.date s) (Slot.dateStr s) (Slot.role s) (Slot.slot s)
          (Slot.slotIndex s) (Slot.isWeekend s) (Slot.duration s) None None None.

(** The addresses of the roster are pairwise different and the preference
    table has an entry for exactly these addresses: what [addPerson] and
    [removePerson] keep. *)
Definition RosterOk (st : Scheduler) : Prop :=
  NoDup (Person.email <$> people st)
  /\ forall e, is_Some (preferences st !! e) <-> e ∈ Person.email <$> people st.

(** Everyone of the roster has a load record whose counter of category
    [k] lies between [lo] and [hi]. *)
Definition countsWithin (ps : list Person.t) (currentLoad : gmap string Load.t)
           (k : ShiftType.t) (lo hi : Z) : Prop :=
  forall p, p ∈ ps ->
    exists l, currentLoad !! Person.email p = Some l /\ lo <= Load.get l k <= hi.

(** Every element comes before all later ones under the comparator: an
    array in this state is what [sort] returns unchanged. *)
Fixpoint inOrder {A} (cmp : A -> A -> Z) (l : list A) : Prop :=
  match l with
  | [] => True
  | x :: rest => (forall y, y ∈ rest -> cmp x y <= 0) /\ inOrder cmp rest
  end.

(** [load'] is [currentLoad] with the counter of category [k] moved by
    [f email] in the record of every address [email]; the other counters
    are as they were, and no record is added or lost. *)
Definition loadShift (f : string -> Z) (k : ShiftType.t)
           (currentLoad load' : gmap string Load.t) : Prop :=
  forall e,
    match currentLoad !! e, load' !! e with
    | Some l, Some l' =>
        forall k', Load.get l' k' = Load.get l k' + (if ShiftType.eqb k' k then f e else 0)
    | None, None => True
    | _, _ => False
    end.

(** 1 for the address [email], 0 for any other. *)
Definition at_ (email e : string) : Z := if String.eqb e email then 1 else 0.

(** From [currentLoad] to [load'] no counter that was at or below its
    category maximum went above it, and none that was at or above its
    category minimum went below it. *)
Definition keepsTargets (targets : Targets.t) (currentLoad load' : gmap string Load.t)
  : Prop :=
  forall e l', load' !! e = Some l' ->
    exists l, currentLoad !! e = Some l
      /\ forall k,
           (Load.get l k <= Target.max (Targets.get targets k) ->
            Load.get l' k <= Target.max (Targets.get targets k))
           /\ (Target.min (Targets.get targets k) <= Load.get l k ->
               Target.min (Targets.get targets k) <= Load.get l' k).

Definition sumZ (l : list Z) : Z := foldr Z.add 0 l.

(** The number of slots of a schedule in category [k]. *)
Definition slotsIn (k : ShiftType.t) (sch : list Slot.t) : Z :=
  Z.of_nat (length (List.filter (fun s => ShiftType.eqb (getShiftTypeKey s) k) sch)).

(** The number of slots of a schedule on the calendar day [ds]. *)
Definition slotsOn (ds : string) (sch : list Slot.t) : nat :=
  length (List.filter (fun s => String.eqb (Slot.dateStr s) ds) sch).

Section Api.
Context `{HostEnv}.

(** The schedulers a caller can reach from [new OnCallScheduler()] with
    the methods of the class. *)
Inductive Built : Scheduler -> Prop :=
| built_new : Built newScheduler
| built_setShiftCounts p s st st' :
    Built st -> setShiftCounts p s st = Ok st' -> Built st'
| built_addPerson name email rid st st' :
    Built st -> addPerson name email rid st = Ok st' -> Built st'
| built_removePerson email st st' :
    Built st -> removePerson email st = Ok st' -> Built st'
| built_setDateRange startDate endDate st st' :
    Built st -> setDateRange startDate endDate st = Ok st' -> Built st'
| built_setPreferences email preferred notPreferred st st' :
    Built st -> setPreferences email preferred notPreferred st = Ok st' -> Built st'
| built_generateSchedule st r st' :
    Built st -> generateSchedule st = (r, st') -> Built st'.

End Api.

(** ** The date range on time values

    A [Date] object holds a time value, the milliseconds since the epoch,
    and the time zone of the host turns it into local time and back.
    [JS.Date] keeps the local calendar day only, which is all the class
    reads of a date, and takes the local midnight of every day to exist.
    Here the calls that [setDateRange] and [generateDates] make on their
    [Date] objects are written on time values, as ECMAScript defines them,
    for a host given by its two conversions, so that the day numbers can
    be compared with them: the two agree on a host whose clock does not
    skip the midnights of the range, and not on every host. *)
Module Instant.

(** What the host decides: [LocalTime(t)] and [UTC(t)]. *)
Class Zone : Type := {
  LocalTime : Z -> Z;
  UTC : Z -> Z
}.

Definition msPerDay : Z := 86400000.

Definition Day (t : Z) : Z := t / msPerDay.

Definition TimeWithinDay (t : Z) : Z := t mod msPerDay.

Definition MakeDate (day time : Z) : Z := day * msPerDay + time.

(** [TimeClip]; a time value is an integer or [NaN] ([None]). *)
Definition maxTime : Z := 8640000000000000.

Definition TimeClip (t : Z) : option Z :=
  if (- maxTime <=? t) && (t <=? maxTime) then Some t else None.

(** [a <= b] on two [Date] objects: on their time values, and false as
    soon as one is [NaN]. *)
Definition leDate (a b : option Z) : bool :=
  match a, b with
  | Some x, Some y => x <=? y
  | _, _ => false
  end.

Section Host.
Context `{Zone}.

(** [new Date(year, monthIndex, day)] *)
Definition newDate3 (y m d : option Z) : option Z :=
  match y, m, d with
  | Some y, Some m, Some d =>
      let yr := if (0 <=? y) && (y <=? 99) then 1900 + y else y in
      TimeClip (UTC (MakeDate (JS.MakeDay yr m d) 0))
  | _, _, _ => None
  end.

(** [d.setHours(0, 0, 0, 0)] *)
Definition setHours0 (tv : option Z) : option Z :=
  match tv with
  | Some tv => TimeClip (UTC (MakeDate (Day (LocalTime tv)) 0))
  | None => None
  end.

(** [d.getDate()] *)
Definition getDate (tv : option Z) : option Z :=
  (fun tv => JS.dateOf (Day (LocalTime tv))) <$> tv.

(** [d.setDate(dt)]: the day of the month changes, the local time of day
    stays. *)
Definition setDate (tv dt : option Z) : option Z :=
  match tv, dt with
  | Some tv, Some dt =>
      let t := LocalTime tv in
      let day := JS.MakeDay (JS.yearOf (Day t)) (JS.monthOf (Day t)) dt in
      TimeClip (UTC (MakeDate day (TimeWithinDay t)))
  | _, _ => None
  end.

(** The [while (current <= this.dateRange.end)] loop of [generateDates];
    [fuel] bounds its iterations. *)
Fixpoint generateDates_loop (fuel : nat) (current end_ : option Z) : list (option Z) :=
  match fuel with
  | O => []
  | S fuel' =>
      if leDate current end_
      then current
             :: generateDates_loop fuel'
                  (setDate current ((fun d => d + 1) <$> getDate current)) end_
      else []
  end.

(** [generateDates()] for a date range that holds the time values [start]
    and [end_]. *)
Definition generateDates (fuel : nat) (start end_ : option Z) : list (option Z) :=
  generateDates_loop fuel start end_.

(** The local calendar day of a [Date], which is what [JS.Date] keeps of
    it. *)
Definition localDay (tv : option Z) : JS.Date :=
  match tv with
  | Some t => JS.Day (Day (LocalTime t))
  | None => JS.InvalidDate
  end.

(** The local midnight of day [n] is on the clock of the host, and within
    the range of a time value. *)
Definition midnightExists (n : Z) : Prop :=
  LocalTime (UTC (MakeDate n 0)) = MakeDate n 0
  /\ - maxTime <= UTC (MakeDate n 0) <= maxTime.

End Host.

(** A host whose local time is always [offset] milliseconds ahead of
    UTC. *)
Definition fixedZone (offset : Z) : Zone :=
  {| LocalTime := fun t => t + offset; UTC := fun t => t - offset |}.

(** A host on the clock of America/Santiago around 2024-09-08, the day
    (number 19974) whose first hour does not exist there: local time is
    four hours behind UTC until 04:00 UTC that day and three hours behind
    from then on.  A local time inside the gap is read with the offset in
    force before it. *)
Definition santiago : Zone :=
  {| LocalTime := fun t =>
       if t <? 19974 * msPerDay + 14400000 then t - 14400000 else t - 10800000;
     UTC := fun t =>
       if t <? 19974 * msPerDay + 3600000 then t + 14400000 else t + 10800000 |}.

(** A host on the clock of Pacific/Apia around 2011-12-30, the day
    (number 15338) that does not exist there: local time is ten hours
    behind UTC until 10:00 UTC that day and fourteen hours ahead from
    then on. *)
Definition apia : Zone :=
  {| LocalTime := fun t =>
       if t <? 15338 * msPerDay + 36000000 then t - 36000000 else t + 50400000;
     UTC := fun t =>
       if t <? 15339 * msPerDay then t + 36000000 else t - 50400000 |}.

End Instant.
(** ** Sample inputs *)

(** Three people, two primary and two secondary slots a day, and a
    schedule left over from an earlier run. *)
Definition shortRoster : Scheduler :=
  mkScheduler
    [Person.mk "Ann" "ann@x.org" "id_1"; Person.mk "Bo" "bo@x.org" "id_2";
     Person.mk "Cy" "cy@x.org" "id_3"]
    (Some (JS.Day 20094, JS.Day 20100)) ∅
    [Slot.mk "2024-12-30-primary-a" (JS.Day 20087) "2024-12-30" primary "a" 0 false 12
             (Some (Person.mk "Ann" "ann@x.org" "id_1")) None None]
    2 2.

(** One primary and one secondary slot a night, Friday 2025-01-10 to
    Sunday 2025-01-12. *)
Definition weekendRange : Scheduler :=
  mkScheduler [Person.mk "Ann" "ann@x.org" "id_1"; Person.mk "Bo" "bo@x.org" "id_2"]
    (Some (JS.Day 20098, JS.Day 20100)) ∅ [] 1 1.


(** A weekday primary slot and a person who already holds two weekday
    primary shifts, the category maximum. *)
Definition mondaySlot : Slot.t :=
  Slot.mk "2025-01-06-primary-a" (JS.Day 20094) "2025-01-06" primary "a" 0 false 12
          None None None.

Definition ann : Person.t := Person.mk "Ann" "ann@x.org" "id_1".

Definition annAtMax : gmap string Load.t := {["ann@x.org" := Load.mk 2 0 0 0 24]}.

Definition oneToTwo : Targets.t :=
  Targets.mk (Target.mk 5 1 2) (Target.mk 0 0 0) (Target.mk 5 1 2) (Target.mk 0 0 0).

(** A stored schedule with one slot nobody holds. *)
Definition oneUnassigned : Scheduler :=
  mkScheduler [ann] (Some (JS.Day 20094, JS.Day 20094)) ∅ [mondaySlot] 1 0.

(** Six people, three primary and two secondary slots a night, Monday
    2025-01-06 to Wednesday 2025-01-08; the first person would rather skip
    Monday and the last one Wednesday.  Built through the public methods. *)
Definition sixPeopleThreeNights : Result Scheduler :=
  st ← setShiftCounts 3 2 newScheduler;
  st ← addPerson "P0" "p0@x.org" "id_0" st;
  st ← addPerson "P1" "p1@x.org" "id_1" st;
  st ← addPerson "P2" "p2@x.org" "id_2" st;
  st ← addPerson "P3" "p3@x.org" "id_3" st;
  st ← addPerson "P4" "p4@x.org" "id_4" st;
  st ← addPerson "P5" "p5@x.org" "id_5" st;
  st ← @setDateRange sampleHost (InStr "2025-01-06") (InStr "2025-01-08") st;
  st ← @setPreferences sampleHost "p0@x.org" [] [InStr "2025-01-06"] st;
  @setPreferences sampleHost "p5@x.org" [] [InStr "2025-01-08"] st.

(** Two people who both marked Monday 2025-01-06 as not preferred, one
    primary slot that night, nothing assigned yet. *)
Definition bo : Person.t := Person.mk "Bo" "bo@x.org" "id_2".

Definition bothReluctant : Scheduler :=
  mkScheduler [ann; bo] (Some (JS.Day 20094, JS.Day 20094))
    (<["ann@x.org" := Prefs.mk ∅ {["2025-01-06"]}]>
       (<["bo@x.org" := Prefs.mk ∅ {["2025-01-06"]}]> ∅))
    [] 1 0.

Definition oneSlotForTwo : Targets.t :=
  Targets.mk (Target.mk 1 0 1) (Target.mk 0 0 0) (Target.mk 0 0 0) (Target.mk 0 0 0).

(** The scheduler that [sixPeopleThreeNights] builds. *)
Definition sixPeople : Scheduler :=
  match sixPeopleThreeNights with
  | Ok st => st
  | Throw _ => newScheduler
  end.

(** Another way to share the fifteen slots of [sixPeople]: slot by slot, in
    the order of the fill, the position in the roster of the person on
    duty. *)
Definition sixPeopleFair : list Slot.t :=
  zip_with (fun slot i =>
              match people sixPeople !! i with
              | Some p => Slot.setAssigned slot p None
              | None => slot
              end)
           (@sortedSlots sampleHost sixPeople)
           [1; 2; 3; 4; 5;  2; 4; 5; 0; 1;  0; 1; 4; 2; 3]%nat.

(** ** More sample inputs *)

Definition tuesdaySlot : Slot.t :=
  Slot.mk "2025-01-07-primary-a" (JS.Day 20095) "2025-01-07" primary "a" 0 false 12
          None None None.

Definition wednesdaySlot : Slot.t :=
  Slot.mk "2025-01-08-primary-a" (JS.Day 20096) "2025-01-08" primary "a" 0 false 12
          None None None.

(** Ann holds all three nights, Bo none. *)
Definition lopsided : Scheduler :=
  mkScheduler [ann; bo] (Some (JS.Day 20094, JS.Day 20096))
    (<["ann@x.org" := Prefs.empty]> (<["bo@x.org" := Prefs.empty]> ∅))
    [Slot.setAssigned mondaySlot ann None; Slot.setAssigned tuesdaySlot ann None;
     Slot.setAssigned wednesdaySlot ann None]
    1 0.

Definition lopsidedLoad : gmap string Load.t :=
  {["ann@x.org" := Load.mk 3 0 0 0 36; "bo@x.org" := Load.zero]}.


(** Two people and three slots a night. *)
Definition twoForThree : Scheduler :=
  mkScheduler [ann; bo] (Some (JS.Day 20094, JS.Day 20096))
    (<["ann@x.org" := Prefs.empty]> (<["bo@x.org" := Prefs.empty]> ∅)) [] 2 1.

(** Two people who both marked both nights, Monday 2025-01-06 and Tuesday
    2025-01-07, as not preferred; one primary slot a night. *)
Definition twoNights : Scheduler :=
  mkScheduler [ann; bo] (Some (JS.Day 20094, JS.Day 20095))
    (<["ann@x.org" := Prefs.mk ∅ {["2025-01-06"; "2025-01-07"]}]>
       (<["bo@x.org" := Prefs.mk ∅ {["2025-01-06"; "2025-01-07"]}]> ∅))
    [] 1 0.
(** * Properties *)

(** ** Generic facts about the exception plumbing *)

Lemma bind_Ok_inv {A B} (r : Result A) (k : A -> Result B) (b : B) :
  r ≫= k = Ok b -> exists a, r = Ok a /\ k a = Ok b.
Proof. destruct r as [a|e]; simpl; [eauto | discriminate]. Qed.

Lemma deref_Ok_inv {A} (o : option A) (a : A) : deref o = Ok a -> o = Some a.
Proof. destruct o; simpl; congruence. Qed.

(** Inverts a hypothesis [r ≫= k = Ok b], naming the intermediate value. *)
Ltac inv_bind Hyp :=
  let a := fresh "v" in
  let H1 := fresh "Hv" in
  apply bind_Ok_inv in Hyp as (a & H1 & Hyp).

Lemma filterR_Ok_elem {A} (f : A -> Result bool) (l l' : list A) (x : A) :
  filterR f l = Ok l' -> x ∈ l' -> x ∈ l /\ f x = Ok true.
Proof.
  revert l'. induction l as [|y l IH]; simpl; intros l' Hf Hx.
  - injection Hf as <-. inversion Hx.
  - inv_bind Hf. inv_bind Hf. injection Hf as <-.
    destruct v.
    + apply elem_of_cons in Hx as [-> | Hx].
      * split; [left | done].
      * destruct (IH _ Hv0 Hx). split; [by right | done].
    + destruct (IH _ Hv0 Hx). split; [by right | done].
Qed.

Lemma filterR_Ok_keep {A} (f : A -> Result bool) (l l' : list A) (x : A) :
  filterR f l = Ok l' -> x ∈ l -> f x = Ok true -> x ∈ l'.
Proof.
  revert l'. induction l as [|y l IH]; simpl; intros l' Hf Hx Hfx.
  - inversion Hx.
  - inv_bind Hf. inv_bind Hf. injection Hf as <-.
    apply elem_of_cons in Hx as [-> | Hx].
    + rewrite Hfx in Hv. injection Hv as <-. left.
    + destruct v; [right |]; eauto.
Qed.

Lemma filterR_total {A} (f : A -> Result bool) (l : list A) :
  (forall x, x ∈ l -> exists b, f x = Ok b) -> exists l', filterR f l = Ok l'.
Proof.
  induction l as [|y l IH]; simpl; intros Hall; [eauto |].
  destruct (Hall y) as [b Hb]; [left |]. rewrite Hb. simpl.
  destruct IH as [l' Hl']. { intros x Hx. apply Hall. by right. }
  rewrite Hl'. simpl. eauto.
Qed.

Lemma mapR_total {A B} (f : A -> Result B) (l : list A) :
  (forall x, x ∈ l -> exists b, f x = Ok b) -> exists l', mapR f l = Ok l'.
Proof.
  induction l as [|y l IH]; simpl; intros Hall; [eauto |].
  destruct (Hall y) as [b Hb]; [left |]. rewrite Hb. simpl.
  destruct IH as [l' Hl']. { intros x Hx. apply Hall. by right. }
  rewrite Hl'. simpl. eauto.
Qed.

Lemma mapR_Ok_Forall2 {A B} (f : A -> Result B) (l : list A) (l' : list B) :
  mapR f l = Ok l' -> Forall2 (fun x y => f x = Ok y) l l'.
Proof.
  revert l'. induction l as [|y l IH]; simpl; intros l' Hm.
  - injection Hm as <-. constructor.
  - inv_bind Hm. inv_bind Hm. injection Hm as <-. constructor; auto.
Qed.

Lemma firstR_Some_inv {A B} (f : A -> Result (option B)) (l : list A) (b : B) :
  firstR f l = Ok (Some b) -> exists x, x ∈ l /\ f x = Ok (Some b).
Proof.
  induction l as [|y l IH]; simpl; intros Hf; [discriminate |].
  inv_bind Hf. destruct v as [b'|].
  - injection Hf as <-. exists y. split; [left | done].
  - destruct (IH Hf) as (x & Hx & Hfx). exists x. split; [by right | done].
Qed.

(** ** C4: the capacity check comes first *)

(** C4. When the roster is smaller than [primaryCount + secondaryCount],
    [generateSchedule] throws the capacity error and leaves the scheduler,
    its stored schedule included, exactly as it was. *)
Theorem generateSchedule_capacity_error `{HostEnv} (st : Scheduler) :
  Z.of_nat (length (people st)) < primaryCount st + secondaryCount st ->
  generateSchedule st = (Throw (Err (capacityMessage st)), st).
Proof.
  intros Hsmall. unfold generateSchedule.
  destruct (Z.ltb_spec (Z.of_nat (length (people st)))
                       (primaryCount st + secondaryCount st)) as [_ | Hge].
  - reflexivity.
  - lia.
Qed.

Lemma generateSchedule_capacity_error_witness :
  @generateSchedule sampleHost shortRoster
  = (Throw (Err "Need at least 4 people to schedule (2 primary + 2 secondary per day)"),
     shortRoster).
Proof.
  apply (@generateSchedule_capacity_error sampleHost shortRoster).
  vm_compute. reflexivity.
Defined.

(** ** C8: durations of generated slots *)

Lemma isWeekendNight_getDay (d : JS.Date) :
  isWeekendNight d = true <-> JS.getDay d = Some 5 \/ JS.getDay d = Some 6.
Proof.
  unfold isWeekendNight. destruct (JS.getDay d) as [k|].
  - rewrite orb_true_iff, !Z.eqb_eq. split.
    + intros [-> | ->]; auto.
    + intros [[= ->] | [= ->]]; auto.
  - split; [discriminate | intros [? | ?]; discriminate].
Qed.

Lemma generateSlots_elem `{HostEnv} (st : Scheduler) (s : Slot.t) :
  s ∈ generateSlots st ->
  exists d r i, d ∈ generateDates st
    /\ (0 <= i < match r with primary => primaryCount st | secondary => secondaryCount st end)
    /\ s = mkSlot d (normalizeDate (InDate d)) r (isWeekendNight d) i.
Proof.
  unfold generateSlots. intros Hs.
  apply list_elem_of_In, in_concat in Hs as (l & Hl & Hs).
  apply list_elem_of_In in Hl, Hs.
  apply list_elem_of_fmap in Hl as (d & -> & Hd).
  unfold slotsOfDate in Hs. apply elem_of_app in Hs as [Hs | Hs];
    apply list_elem_of_fmap in Hs as (i & -> & Hi);
    apply elem_of_seqZ in Hi.
  - exists d, primary, i. split; [done |]. split; [lia | done].
  - exists d, secondary, i. split; [done |]. split; [lia | done].
Qed.

(** C8. A slot produced by [generateSlots] lasts 24 hours exactly when it
    is a primary slot whose date falls on a Friday (day 5) or a Saturday
    (day 6); every other slot lasts 12 hours. *)
Theorem generateSlots_duration `{HostEnv} (st : Scheduler) (s : Slot.t) :
  s ∈ generateSlots st ->
  (Slot.duration s = 24 <->
     Slot.role s = primary
     /\ (JS.getDay (Slot.date s) = Some 5 \/ JS.getDay (Slot.date s) = Some 6))
  /\ (Slot.duration s <> 24 -> Slot.duration s = 12).
Proof.
  intros Hs. apply generateSlots_elem in Hs as (d & r & i & _ & _ & ->).
  rewrite <- isWeekendNight_getDay. simpl.
  destruct r, (isWeekendNight d); simpl; split; try split;
    try (intros [? ?]); try intros ?; try split; congruence.
Qed.

Lemma generateSlots_duration_witness :
  let s := Slot.mk "2025-01-10-primary-a" (JS.Day 20098) "2025-01-10" primary "a" 0
                   true 24 None None None in
  (Slot.duration s = 24 <->
     Slot.role s = primary
     /\ (JS.getDay (Slot.date s) = Some 5 \/ JS.getDay (Slot.date s) = Some 6))
  /\ (Slot.duration s <> 24 -> Slot.duration s = 12).
Proof.
  intros s. apply (@generateSlots_duration sampleHost weekendRange s).
  vm_compute. left.
Defined.

(** ** C1: a run the balancer leaves uneven *)

(** C1 (the code falls short of it).  On [sixPeopleThreeNights] the call
    returns normally, the six weekday secondary slots end up shared as
    1, 1, 1, 2, 0, 1, and so the fourth person holds two slots of that
    category more than the fifth. *)
Theorem generateSchedule_uneven_run :
  exists out st' p3 p4,
    sixPeopleThreeNights = Ok sixPeople
    /\ @generateSchedule sampleHost sixPeople = (Ok out, st')
    /\ outSchedule out = schedule st'
    /\ PersonReport.weekdaySecondary <$> FairnessReport.byPerson (fairnessReport out)
       = [1; 1; 1; 2; 0; 1]
    /\ people sixPeople !! 3%nat = Some p3
    /\ people sixPeople !! 4%nat = Some p4
    /\ shiftCount (Person.email p3) ShiftType.weekday_secondary (schedule st')
       - shiftCount (Person.email p4) ShiftType.weekday_secondary (schedule st') = 2.
Proof.
  eexists _, _, _, _. split_and!; vm_compute; reflexivity.
Qed.

(** The bound was within reach on that input: in [sixPeopleFair] the same
    fifteen slots are all assigned, nobody is on duty twice a day or on a
    date they marked not preferred, and every count of every category
    lies between the floor and the ceiling of the average. *)
Lemma sixPeople_even_schedule :
  let st := withSchedule sixPeople sixPeopleFair in
  let targets := @calculateTargetShifts sampleHost sixPeople in
  Slot.id <$> sixPeopleFair = Slot.id <$> @sortedSlots sampleHost sixPeople
  /\ forallb (fun s => existsb (fun p => assignedTo (Person.email p) s) (people st))
             sixPeopleFair = true
  /\ forallb (fun p =>
        forallb (fun s => (length (getSameDayShifts st p s) <=? 1)%nat
                          && (negb (assignedTo (Person.email p) s) || canAssign st p s))
                sixPeopleFair)
        (people st) = true
  /\ forallb (fun p =>
        forallb (fun k =>
                   let c := shiftCount (Person.email p) k sixPeopleFair in
                   (Target.min (Targets.get targets k) <=? c)
                   && (c <=? Target.max (Targets.get targets k)))
                ShiftType.all)
        (people st) = true.
Proof. split_and!; vm_compute; reflexivity. Qed.

(** ** C5: the cost function *)

(** C5, as the specification states it, fails: at the category maximum
    the code charges 100000 alone, not the count and the at-minimum terms
    on top of it. *)
Lemma calculateCost_not_specifiedCost :
  calculateCost newScheduler ann mondaySlot annAtMax (Some oneToTwo) = Ok 100000
  /\ specifiedCost newScheduler ann mondaySlot (Load.mk 2 0 0 0 24) oneToTwo = 102500.
Proof. split; vm_compute; reflexivity. Qed.

Lemma getSameDayShifts_other (st : Scheduler) (person : Person.t) (slot : Slot.t) :
  (forall s, s ∈ schedule st -> Slot.id s = Slot.id slot ->
             assignedTo (Person.email person) s = false) ->
  getSameDayShifts st person slot = otherSameDayShifts st person slot.
Proof.
  intros Hnot. unfold getSameDayShifts, otherSameDayShifts.
  apply filter_ext_in. intros s Hs. apply list_elem_of_In in Hs.
  destruct (String.eqb_spec (Slot.id s) (Slot.id slot)) as [Heq | Hne]; simpl.
  - rewrite (Hnot s Hs Heq). reflexivity.
  - reflexivity.
Qed.

(** C5, amended.  For a person with a load record and a slot that person
    does not hold in the stored schedule, [calculateCost] returns: 100000
    when the category count has reached the category maximum, and
    otherwise the count times 1000, plus 500 when the count has reached a
    category minimum above zero; plus -5 for a preferred date, else +10
    for a not-preferred one; plus 2 for a weekend slot; plus 1000000 when
    the person holds another slot on the same calendar day. *)
Theorem calculateCost_by_terms (st : Scheduler) (person : Person.t) (slot : Slot.t)
        (currentLoad : gmap string Load.t) (load : Load.t) (targets : Targets.t) :
  currentLoad !! Person.email person = Some load ->
  (forall s, s ∈ schedule st -> Slot.id s = Slot.id slot ->
             assignedTo (Person.email person) s = false) ->
  let count := Load.get load (getShiftTypeKey slot) in
  let target := Targets.get targets (getShiftTypeKey slot) in
  let fairness :=
    if Target.max target <=? count then 100000
    else count * 1000
         + (if (Target.min target <=? count) && (0 <? Target.min target)
            then 500 else 0) in
  let preference :=
    match preferences st !! Person.email person with
    | Some prefs =>
        if bool_decide (Slot.dateStr slot ∈ Prefs.preferred prefs) then -5
        else if bool_decide (Slot.dateStr slot ∈ Prefs.notPreferred prefs) then 10
        else 0
    | None => 0
    end in
  let weekend := if Slot.isWeekend slot then 2 else 0 in
  let sameDay :=
    if (0 <? length (otherSameDayShifts st person slot))%nat then 1000000 else 0 in
  calculateCost st person slot currentLoad (Some targets)
  = Ok (fairness + preference + weekend + sameDay).
Proof.
  intros Hload Hnot. simpl. unfold calculateCost. rewrite Hload. simpl.
  rewrite (getSameDayShifts_other st person slot Hnot).
  unfold prefCost. f_equal.
  destruct (Target.max _ <=? _);
    [| destruct ((Target.min _ <=? _) && (0 <? Target.min _))];
    destruct (Slot.isWeekend slot);
    destruct (0 <? length (otherSameDayShifts st person slot))%nat; lia.
Qed.

Lemma calculateCost_by_terms_witness :
  calculateCost newScheduler ann mondaySlot annAtMax (Some oneToTwo) = Ok 100000.
Proof.
  apply (calculateCost_by_terms newScheduler ann mondaySlot annAtMax
           (Load.mk 2 0 0 0 24) oneToTwo).
  - vm_compute. reflexivity.
  - intros s Hs. vm_compute in Hs. inversion Hs.
Defined.

(** ** C6: removing an unknown email *)

(** C6, as the specification states it, fails: removing an email that is
    not in the roster throws nothing. *)
Lemma removePerson_unknown_no_error :
  ~ exists e, removePerson "dee@x.org" shortRoster = Throw e.
Proof. intros [e He]. discriminate He. Qed.

(** C6, amended.  [removePerson] with an email that is not in the roster
    returns normally: the roster, the date range, the schedule and the
    shift counts are unchanged, and a preference record stored under that
    email, if any, is dropped. *)
Theorem removePerson_unknown_email (email : string) (st : Scheduler) :
  (forall p, p ∈ people st -> Person.email p <> email) ->
  removePerson email st
  = Ok (mkScheduler (people st) (dateRange st) (delete email (preferences st))
          (schedule st) (primaryCount st) (secondaryCount st)).
Proof.
  intros Hunknown. unfold removePerson. do 2 f_equal.
  induction (people st) as [|p ps IH]; simpl; [reflexivity |].
  destruct (String.eqb_spec (Person.email p) email) as [Heq | Hne]; simpl.
  - exfalso. apply (Hunknown p); [left | exact Heq].
  - f_equal. apply IH. intros q Hq. apply Hunknown. by right.
Qed.

Lemma removePerson_unknown_email_witness :
  removePerson "dee@x.org" shortRoster
  = Ok (mkScheduler (people shortRoster) (dateRange shortRoster)
          (delete "dee@x.org" (preferences shortRoster))
          (schedule shortRoster) (primaryCount shortRoster)
          (secondaryCount shortRoster)).
Proof.
  apply (removePerson_unknown_email "dee@x.org" shortRoster).
  intros p Hp. vm_compute in Hp.
  repeat (apply elem_of_cons in Hp as [-> | Hp]; [discriminate |]).
  inversion Hp.
Defined.

(** ** C7: the two exports *)

(** C7, as the specification states it, fails for [exportForWhenToWork]:
    a schedule of one unassigned slot yields the header and no data row. *)
Lemma exportForWhenToWork_omits_unassigned :
  length (schedule oneUnassigned) = 1%nat
  /\ length (w2wRows "RAOD" oneUnassigned) = 1%nat
  /\ exportForWhenToWork "RAOD" oneUnassigned
     = JS.join "," (quote <$> w2wHeader).
Proof. repeat split; vm_compute; reflexivity. Qed.

(** C7, amended.  [exportToCSV] emits the header and one row per slot of
    the schedule, in order; the row of a slot without a person carries
    ["UNASSIGNED"] as the person name.  [exportForWhenToWork] emits the
    header and one row per slot that has a person, and none for the
    others. *)
Theorem export_rows (teamName : string) (st : Scheduler) :
  length (csvRows st) = S (length (schedule st))
  /\ (forall i s, schedule st !! i = Some s ->
        csvRows st !! S i = Some (csvRow s)
        /\ (Slot.assignedPerson s = None -> csvRow s !! 6%nat = Some "UNASSIGNED"))
  /\ exportToCSV st = JS.join newline (JS.join "," <$> csvRows st)
  /\ length (w2wRows teamName st)
     = S (length (List.filter (fun s => bool_decide (is_Some (Slot.assignedPerson s)))
                              (schedule st)))
  /\ exportForWhenToWork teamName st
     = JS.join newline ((fun row => JS.join "," (quote <$> row)) <$> w2wRows teamName st).
Proof.
  split; [| split; [| split; [| split]]].
  - unfold csvRows. simpl. by rewrite length_fmap.
  - intros i s Hs. split.
    + unfold csvRows. simpl. rewrite list_lookup_fmap, Hs. reflexivity.
    + intros Hnone. unfold csvRow. rewrite Hnone. reflexivity.
  - reflexivity.
  - unfold w2wRows. simpl. f_equal.
    induction (schedule st) as [|s l IH]; simpl; [reflexivity |].
    unfold w2wRow at 1. destruct (Slot.assignedPerson s) as [p|]; simpl.
    + f_equal. exact IH.
    + exact IH.
  - reflexivity.
Qed.

(** ** Sorting and minima *)

Lemma sortInsert_perm {A} (cmp : A -> A -> Z) (x : A) (l : list A) :
  sortInsert cmp x l ≡ₚ x :: l.
Proof.
  induction l as [|y l IH]; simpl; [reflexivity |].
  destruct (cmp x y <=? 0); [reflexivity |].
  rewrite IH. apply perm_swap.
Qed.

Lemma stableSort_perm {A} (cmp : A -> A -> Z) (l : list A) :
  stableSort cmp l ≡ₚ l.
Proof.
  induction l as [|x l IH]; simpl; [reflexivity |].
  unfold stableSort in *. simpl. rewrite sortInsert_perm. by rewrite IH.
Qed.

Lemma stableSort_elem {A} (cmp : A -> A -> Z) (l : list A) (x : A) :
  x ∈ stableSort cmp l <-> x ∈ l.
Proof. by rewrite stableSort_perm. Qed.

Lemma head_elem {A} (l : list A) (x : A) : head l = Some x -> x ∈ l.
Proof. destruct l; simpl; [discriminate | intros [= ->]; left]. Qed.

Lemma head_nonempty_perm {A} (l l' : list A) :
  l ≡ₚ l' -> l' <> [] -> exists x, head l = Some x.
Proof.
  intros Hp Hne. destruct l as [|x l]; [| simpl; eauto].
  apply Permutation_nil in Hp. congruence.
Qed.

Lemma minList_elem (x : Z) (xs : list Z) : minList x xs ∈ x :: xs.
Proof.
  induction xs as [|y xs IH]; simpl; [left |].
  destruct (Z.min_spec y (minList x xs)) as [[_ ->] | [_ ->]].
  - right. left.
  - apply elem_of_cons in IH as [-> | IH]; [left | right; by right].
Qed.

Lemma minList_le (x : Z) (xs : list Z) (y : Z) : y ∈ x :: xs -> minList x xs <= y.
Proof.
  induction xs as [|z xs IH]; simpl; intros Hy.
  - apply elem_of_cons in Hy as [-> | Hy]; [lia | inversion Hy].
  - apply elem_of_cons in Hy as [-> | Hy].
    + assert (minList x xs <= x) by (apply IH; left). lia.
    + apply elem_of_cons in Hy as [-> | Hy]; [lia |].
      assert (minList x xs <= y) by (apply IH; by right). lia.
Qed.

Lemma maxList_elem (x : Z) (xs : list Z) : maxList x xs ∈ x :: xs.
Proof.
  induction xs as [|y xs IH]; simpl; [left |].
  destruct (Z.max_spec y (maxList x xs)) as [[_ ->] | [_ ->]].
  - apply elem_of_cons in IH as [-> | IH]; [left | right; by right].
  - right. left.
Qed.

Lemma maxList_ge (x : Z) (xs : list Z) (y : Z) : y ∈ x :: xs -> y <= maxList x xs.
Proof.
  induction xs as [|z xs IH]; simpl; intros Hy.
  - apply elem_of_cons in Hy as [-> | Hy]; [lia | inversion Hy].
  - apply elem_of_cons in Hy as [-> | Hy].
    + assert (x <= maxList x xs) by (apply IH; left). lia.
    + apply elem_of_cons in Hy as [-> | Hy]; [lia |].
      assert (y <= maxList x xs) by (apply IH; by right). lia.
Qed.

Lemma indexed_elem {A} (l : list A) (i : nat) (x : A) :
  (i, x) ∈ indexed l <-> l !! i = Some x.
Proof.
  unfold indexed. rewrite elem_of_lookup_zip_with. split.
  - intros (j & a & b & [= -> ->] & Ha & Hb).
    apply lookup_seq in Ha as [-> _]. exact Hb.
  - intros Hx. exists i, i, x. split; [reflexivity |]. split; [| exact Hx].
    apply lookup_seq. split; [reflexivity |]. by eapply lookup_lt_Some.
Qed.

(** ** C3: coverage override *)

Lemma rankCandidates_perm (st : Scheduler) (slot : Slot.t) (fc : list Person.t) :
  rPerson <$> rankCandidates st slot fc ≡ₚ fc.
Proof.
  unfold rankCandidates. rewrite stableSort_perm.
  rewrite <- list_fmap_compose. unfold indexed.
  erewrite (list_fmap_ext _ snd); [| intros i [j p] _; reflexivity].
  rewrite snd_zip; [reflexivity |]. rewrite length_seq. lia.
Qed.

Lemma rankCandidates_head (st : Scheduler) (slot : Slot.t) (fc : list Person.t) :
  fc <> [] ->
  exists best, head (rankCandidates st slot fc) = Some best /\ rPerson best ∈ fc.
Proof.
  intros Hne.
  pose proof (rankCandidates_perm st slot fc) as Hp.
  destruct (rankCandidates st slot fc) as [|b l] eqn:Hr.
  - simpl in Hp. apply Permutation_nil in Hp. congruence.
  - exists b. split; [reflexivity |]. rewrite <- Hp. simpl. left.
Qed.

Lemma canAssign_false (st : Scheduler) (p : Person.t) (slot : Slot.t) :
  canAssign st p slot = false <->
  exists prefs, preferences st !! Person.email p = Some prefs
                /\ Slot.dateStr slot ∈ Prefs.notPreferred prefs.
Proof.
  unfold canAssign. destruct (preferences st !! Person.email p) as [prefs|].
  - rewrite negb_false_iff, bool_decide_eq_true. split.
    + intros Hin. eauto.
    + intros (? & [= <-] & Hin). exact Hin.
  - split; [discriminate | intros (? & ? & _); discriminate].
Qed.

Lemma freeThatDay_true (st : Scheduler) (slot : Slot.t) (p : Person.t) :
  freeThatDay st slot p = true <-> getSameDayShifts st p slot = [].
Proof.
  unfold freeThatDay. rewrite Nat.eqb_eq. split.
  - intros Hl. by apply nil_length_inv.
  - intros ->. reflexivity.
Qed.

Lemma strictCandidate_Ok (st : Scheduler) (currentLoad : gmap string Load.t)
      (target : Target.t) (slot : Slot.t) (p : Person.t) (load : Load.t) :
  currentLoad !! Person.email p = Some load ->
  strictCandidate st currentLoad target slot p
  = Ok (bool_decide (Load.get load (getShiftTypeKey slot) < Target.max target
                     /\ getSameDayShifts st p slot = []
                     /\ (Load.get load (getShiftTypeKey slot) < Target.min target
                         \/ canAssign st p slot = true))).
Proof.
  intros Hl. unfold strictCandidate. rewrite Hl. simpl.
  destruct (Z.leb_spec (Target.max target) (Load.get load (getShiftTypeKey slot))).
  { rewrite bool_decide_false; [reflexivity | lia]. }
  destruct (getSameDayShifts st p slot) as [|x xs] eqn:Hsame; simpl.
  - destruct (Z.ltb_spec (Load.get load (getShiftTypeKey slot)) (Target.min target)).
    + rewrite bool_decide_true; [reflexivity | auto].
    + destruct (canAssign st p slot) eqn:Hc.
      * rewrite bool_decide_true; [reflexivity | auto].
      * rewrite bool_decide_false; [reflexivity |]. intros (_ & _ & [? | ?]); [lia | done].
  - rewrite bool_decide_false; [reflexivity |]. by intros (_ & ? & _).
Qed.

Lemma assignSlot_from_pool (targets : Targets.t) (st : Scheduler)
      (currentLoad : gmap string Load.t) (slot slot1 : Slot.t) (pool : list Person.t) :
  let shiftTypeKey := getShiftTypeKey slot in
  let target := Targets.get targets shiftTypeKey in
  candidatePool st currentLoad target slot = Ok (pool, slot1) ->
  (forall p, p ∈ pool -> is_Some (currentLoad !! Person.email p)) ->
  pool <> [] ->
  exists best lb,
    best ∈ pool
    /\ currentLoad !! Person.email best = Some lb
    /\ assignSlot targets st currentLoad slot
       = Ok (withSchedule st (schedule st ++ [Slot.setAssigned slot1 best None]),
             <[Person.email best := Load.bump lb shiftTypeKey 1 (Slot.duration slot1)]>
               currentLoad).
Proof.
  intros shiftTypeKey target Hcp Hload Hne.
  set (count := fun p : Person.t =>
                  load ← deref (currentLoad !! Person.email p);
                  Ok (Load.get load shiftTypeKey)).
  assert (Hcount : forall p, p ∈ pool -> exists c, count p = Ok c).
  { intros p Hp. destruct (Hload p Hp) as [l Hl].
    unfold count. rewrite Hl. simpl. eauto. }
  destruct (mapR_total count pool Hcount) as [counts Hcounts].
  pose proof (mapR_Ok_Forall2 _ _ _ Hcounts) as Hf2.
  set (m := match counts with c :: cs => minList c cs | [] => 0 end).
  assert (Hmin : exists p, p ∈ pool /\ count p = Ok m).
  { destruct counts as [|c cs].
    - apply Forall2_nil_inv_r in Hf2. congruence.
    - pose proof (minList_elem c cs) as Hm. fold m in Hm.
      apply list_elem_of_lookup in Hm as [i Hi].
      destruct (Forall2_lookup_r _ _ _ _ _ Hf2 Hi) as (p & Hp & Hpc).
      exists p. split; [| exact Hpc]. apply list_elem_of_lookup. eauto. }
  set (isMin := fun p : Person.t =>
                  load ← deref (currentLoad !! Person.email p);
                  Ok (Load.get load shiftTypeKey =? m)).
  assert (HisMin : forall p, p ∈ pool -> exists b, isMin p = Ok b).
  { intros p Hp. destruct (Hcount p Hp) as [c Hc]. unfold count in Hc.
    inv_bind Hc. unfold isMin. rewrite Hv. simpl. eauto. }
  destruct (filterR_total isMin pool HisMin) as [fc Hfc].
  assert (Hfcne : fc <> []).
  { destruct Hmin as (p & Hp & Hpc).
    assert (Hin : p ∈ fc).
    { eapply filterR_Ok_keep; [exact Hfc | exact Hp |].
      unfold count in Hpc. inv_bind Hpc. injection Hpc as Hpc.
      unfold isMin. rewrite Hv. simpl. by rewrite Hpc, Z.eqb_refl. }
    intros ->. inversion Hin. }
  destruct (rankCandidates_head st slot1 fc Hfcne) as (best & Hhead & Hbest).
  destruct (filterR_Ok_elem _ _ _ _ Hfc Hbest) as [Hbpool _].
  destruct (Hload _ Hbpool) as [lb Hlb].
  exists (rPerson best), lb. split; [exact Hbpool |]. split; [exact Hlb |].
  unfold assignSlot. fold shiftTypeKey target. rewrite Hcp. simpl.
  fold count. rewrite Hcounts. simpl. fold m. fold isMin. rewrite Hfc. simpl.
  rewrite Hhead. simpl. unfold bumpLoad. rewrite Hlb. simpl. reflexivity.
Qed.

(** C3, as the specification states it, fails: on [twoNights] both people
    have marked both nights as not preferred, so whoever survives the
    fairness and same-day filters has marked the date, and yet the run
    fills both slots and flags neither.  Somebody below the category
    minimum stays in the strict pool whatever the preferences say, and
    the warning is only set when that pool is empty. *)
Lemma coverage_override_not_flagged :
  (forall p slot, p ∈ people twoNights -> slot ∈ @generateSlots sampleHost twoNights ->
     canAssign twoNights p slot = false)
  /\ @generateSlots sampleHost twoNights = [mondaySlot; tuesdaySlot]
  /\ strictPool twoNights (initializeLoad twoNights)
                (Targets.get (@calculateTargetShifts sampleHost twoNights)
                             (getShiftTypeKey mondaySlot))
                mondaySlot
     = Ok [ann; bo]
  /\ exists out st',
       @generateSchedule sampleHost twoNights = (Ok out, st')
       /\ length (outSchedule out) = 2%nat
       /\ bareSlot <$> outSchedule out = @generateSlots sampleHost twoNights
       /\ Forall (fun slot => is_Some (Slot.assignedPerson slot) /\ Slot.warning slot = None)
                 (outSchedule out).
Proof.
  split.
  - intros p slot Hp Hs. vm_compute in Hp. vm_compute in Hs.
    repeat (apply elem_of_cons in Hp as [-> | Hp]);
      [| | inversion Hp];
      repeat (apply elem_of_cons in Hs as [-> | Hs]); try (inversion Hs);
      vm_compute; reflexivity.
  - split; [vm_compute; reflexivity |]. split; [vm_compute; reflexivity |].
    eexists _, _. split; [vm_compute; reflexivity |].
    split; [reflexivity |]. split; [vm_compute; reflexivity |].
    repeat constructor; eauto.
Qed.

(** C3, amended.  During slot assignment, when somebody in the roster
    has no slot that calendar day, the slot is not refused: [assignSlot]
    returns normally, the slot is appended to the schedule unchanged but
    for its holder, cost and warning, its holder is a person of the
    roster without a slot that day, and the loop of [generateSchedule]
    moves on to the next slot.  The slot carries the coverage-override
    warning when the strict pool is empty, that is when nobody is below
    the category maximum, without a slot that day, and either below the
    category minimum or not unwilling on that date; when the strict pool
    has a member, the slot goes to one of its members and its warning is
    left as it was. *)
Theorem assignSlot_coverage_override (targets : Targets.t) (st : Scheduler)
        (currentLoad : gmap string Load.t) (slot : Slot.t) :
  let shiftTypeKey := getShiftTypeKey slot in
  let target := Targets.get targets shiftTypeKey in
  (forall p, p ∈ people st -> is_Some (currentLoad !! Person.email p)) ->
  (exists p, p ∈ people st /\ getSameDayShifts st p slot = []) ->
  exists pool best st' load' slot',
    strictPool st currentLoad target slot = Ok pool
    /\ (forall q, q ∈ pool <->
          q ∈ people st
          /\ exists load, currentLoad !! Person.email q = Some load
               /\ Load.get load shiftTypeKey < Target.max target
               /\ getSameDayShifts st q slot = []
               /\ (Load.get load shiftTypeKey < Target.min target
                   \/ canAssign st q slot = true))
    /\ assignSlot targets st currentLoad slot = Ok (st', load')
    /\ (forall rest,
          assignAll targets (slot :: rest) st currentLoad
          = assignAll targets rest st' load')
    /\ schedule st' = schedule st ++ [slot']
    /\ bareSlot slot' = bareSlot slot
    /\ Slot.assignedPerson slot' = Some best
    /\ best ∈ people st
    /\ getSameDayShifts st best slot = []
    /\ (pool = [] -> Slot.warning slot' = Some overrideWarning)
    /\ (pool <> [] -> best ∈ pool /\ Slot.warning slot' = Slot.warning slot).
Proof.
  intros shiftTypeKey target Hload (p0 & Hp0 & Hfree0).
  assert (Htotal : forall x, x ∈ people st ->
            exists b, strictCandidate st currentLoad target slot x = Ok b).
  { intros x Hx. destruct (Hload x Hx) as [l Hl].
    rewrite (strictCandidate_Ok _ _ _ _ _ _ Hl). eauto. }
  destruct (filterR_total _ _ Htotal) as [pool Hstrict].
  fold (strictPool st currentLoad target slot) in Hstrict.
  assert (Hpool : forall q, q ∈ pool <->
            q ∈ people st
            /\ exists load, currentLoad !! Person.email q = Some load
                 /\ Load.get load shiftTypeKey < Target.max target
                 /\ getSameDayShifts st q slot = []
                 /\ (Load.get load shiftTypeKey < Target.min target
                     \/ canAssign st q slot = true)).
  { intros q. split.
    - intros Hq. destruct (filterR_Ok_elem _ _ _ _ Hstrict Hq) as [Hqp Hsc].
      split; [exact Hqp |]. destruct (Hload q Hqp) as [l Hl]. exists l.
      split; [exact Hl |]. rewrite (strictCandidate_Ok _ _ _ _ _ _ Hl) in Hsc.
      injection Hsc as Hsc. by apply bool_decide_eq_true in Hsc.
    - intros (Hqp & l & Hl & Hq). eapply filterR_Ok_keep; [exact Hstrict | exact Hqp |].
      rewrite (strictCandidate_Ok _ _ _ _ _ _ Hl). f_equal. by apply bool_decide_eq_true. }
  set (free := List.filter (freeThatDay st slot) (people st)).
  assert (Hfree : forall p, p ∈ free <-> p ∈ people st /\ getSameDayShifts st p slot = []).
  { intros p. unfold free. rewrite list_elem_of_In, filter_In, <- list_elem_of_In.
    by rewrite freeThatDay_true. }
  destruct pool as [|c cs] eqn:Hpeq.
  - assert (Hcp : candidatePool st currentLoad target slot
                  = Ok (free, Slot.setWarning slot overrideWarning)).
    { unfold candidatePool. rewrite Hstrict. simpl. fold free.
      assert (Hin : p0 ∈ free) by (by apply Hfree).
      destruct free; [inversion Hin | reflexivity]. }
    destruct (assignSlot_from_pool targets st currentLoad slot _ free Hcp)
      as (best & lb & Hbest & Hlb & Hassign).
    { intros p Hp. apply Hload. by apply Hfree. }
    { intros Hnil. assert (Hin : p0 ∈ free) by (by apply Hfree).
      rewrite Hnil in Hin. inversion Hin. }
    apply Hfree in Hbest as [Hbp Hbfree].
    eexists [], best, _, _, _. split; [exact Hstrict |]. split; [exact Hpool |].
    split; [exact Hassign |].
    split; [intros rest; simpl; by rewrite Hassign |].
    split; [reflexivity |]. split; [reflexivity |]. split; [reflexivity |].
    split; [exact Hbp |]. split; [exact Hbfree |].
    split; [intros _; reflexivity | intros Hne; congruence].
  - assert (Hcp : candidatePool st currentLoad target slot = Ok (c :: cs, slot)).
    { unfold candidatePool. rewrite Hstrict. reflexivity. }
    destruct (assignSlot_from_pool targets st currentLoad slot _ (c :: cs) Hcp)
      as (best & lb & Hbest & Hlb & Hassign).
    { intros p Hp. apply Hload. by apply Hpool. }
    { discriminate. }
    pose proof (proj1 (Hpool best) Hbest) as (Hbp & l & _ & _ & Hbfree & _).
    eexists (c :: cs), best, _, _, _. split; [exact Hstrict |]. split; [exact Hpool |].
    split; [exact Hassign |].
    split; [intros rest; simpl; by rewrite Hassign |].
    split; [reflexivity |]. split; [reflexivity |]. split; [reflexivity |].
    split; [exact Hbp |]. split; [exact Hbfree |].
    split; [discriminate | intros _; split; [exact Hbest | reflexivity]].
Qed.

Lemma assignSlot_coverage_override_witness :
  exists best st' load' slot',
    strictPool bothReluctant (initializeLoad bothReluctant)
               (Targets.get oneSlotForTwo (getShiftTypeKey mondaySlot)) mondaySlot = Ok []
    /\ assignSlot oneSlotForTwo bothReluctant (initializeLoad bothReluctant) mondaySlot
       = Ok (st', load')
    /\ schedule st' = [slot']
    /\ Slot.assignedPerson slot' = Some best
    /\ best ∈ people bothReluctant
    /\ Slot.warning slot' = Some overrideWarning.
Proof.
  destruct (assignSlot_coverage_override oneSlotForTwo bothReluctant
              (initializeLoad bothReluctant) mondaySlot)
    as (pool & best & st' & load' & slot' & Hstrict & _ & Hassign & _ & Hsch & _
        & Hheld & Hbest & _ & Hflag & _).
  - intros p Hp. vm_compute in Hp.
    repeat (apply elem_of_cons in Hp as [-> | Hp]; [eexists; vm_compute; reflexivity |]).
    inversion Hp.
  - exists ann. split; [left | vm_compute; reflexivity].
  - assert (Hnil : strictPool bothReluctant (initializeLoad bothReluctant)
                     (Targets.get oneSlotForTwo (getShiftTypeKey mondaySlot)) mondaySlot
                   = Ok []) by (vm_compute; reflexivity).
    assert (pool = []) as -> by congruence.
    exists best, st', load', slot'.
    split; [exact Hnil |]. split; [exact Hassign |]. split; [exact Hsch |].
    split; [exact Hheld |]. split; [exact Hbest |]. by apply Hflag.
Defined.

(** ** C9: date normalization *)

(** ** Calendar arithmetic *)

Lemma YearFromDay_bounds (n : Z) :
  JS.DayFromYear (JS.YearFromDay n) <= n < JS.DayFromYear (JS.YearFromDay n + 1).
Proof.
  unfold JS.YearFromDay, JS.DayFromYear.
  repeat match goal with |- context [if ?b then _ else _] => destruct b eqn:? end;
    Z.div_mod_to_equations; lia.
Qed.

Lemma DayFromYear_next (y : Z) :
  JS.DayFromYear (y + 1) = JS.DayFromYear y + 365 + JS.InLeapYear y.
Proof.
  unfold JS.DayFromYear, JS.InLeapYear.
  repeat match goal with |- context [if ?b then _ else _] => destruct b eqn:? end;
    Z.div_mod_to_equations; lia.
Qed.

Lemma InLeapYear_range (y : Z) : JS.InLeapYear y = 0 \/ JS.InLeapYear y = 1.
Proof. unfold JS.InLeapYear. destruct (_ && _); auto. Qed.

Lemma monthOf_range (n : Z) : 0 <= JS.monthOf n <= 11.
Proof.
  unfold JS.monthOf, JS.MonthFromDayInYear. cbv zeta.
  repeat match goal with
         | |- context [if ?a <? ?b then _ else _] => destruct (a <? b)
         end.
  all: lia.
Qed.

Lemma dateOf_range (n : Z) : 1 <= JS.dateOf n <= 31.
Proof.
  pose proof (YearFromDay_bounds n) as Hb.
  rewrite DayFromYear_next in Hb.
  unfold JS.dateOf, JS.MonthFromDayInYear. cbv zeta.
  destruct (InLeapYear_range (JS.YearFromDay n)) as [Hl | Hl]; rewrite Hl in *;
    repeat match goal with
           | |- context [if ?a <? ?b then _ else _] => destruct (Z.ltb_spec a b)
           end; cbn [JS.monthStart]; lia.
Qed.

Lemma MakeDay_fields (n : Z) : JS.MakeDay (JS.yearOf n) (JS.monthOf n) (JS.dateOf n) = n.
Proof.
  pose proof (monthOf_range n) as Hm.
  unfold JS.MakeDay.
  replace (JS.monthOf n / 12) with 0 by (Z.div_mod_to_equations; lia).
  replace (JS.monthOf n mod 12) with (JS.monthOf n) by (Z.div_mod_to_equations; lia).
  unfold JS.dateOf, JS.monthOf, JS.yearOf. rewrite Z.add_0_r. lia.
Qed.

(** ** Decimal text *)

Lemma isDigitChar_facts (c : ascii) :
  isDigitChar c = true ->
  JS.isWhite c = false
  /\ Ascii.eqb c "-" = false /\ Ascii.eqb c "+" = false
  /\ Ascii.eqb c "x" = false /\ Ascii.eqb c "X" = false
  /\ exists d, JS.digitVal 10 c = Some d.
Proof.
  destruct c as [[] [] [] [] [] [] [] []]; vm_compute; intros Hd;
    try discriminate Hd; repeat split; eauto.
Qed.

Lemma pretty_N_char_digit (x : N) :
  (x < 10)%N ->
  isDigitChar (pretty_N_char x) = true
  /\ JS.digitVal 10 (pretty_N_char x) = Some (Z.of_N x).
Proof.
  intros Hx.
  assert (x = 0 \/ x = 1 \/ x = 2 \/ x = 3 \/ x = 4 \/ x = 5 \/ x = 6 \/ x = 7
          \/ x = 8 \/ x = 9)%N as Hc by lia.
  repeat (destruct Hc as [-> | Hc]; [split; reflexivity |]).
  subst x. split; reflexivity.
Qed.

Lemma pretty_N_go_allDigits (x : N) (s : string) :
  allDigits s = true -> allDigits (pretty_N_go x s) = true.
Proof.
  revert s. induction (N.lt_wf_0 x) as [x _ IH]. intros s Hs.
  destruct (N.eq_dec x 0%N) as [-> | Hx].
  - by rewrite pretty_N_go_0.
  - rewrite pretty_N_go_step by lia. apply IH.
    + apply N.div_lt; lia.
    + simpl. rewrite Hs, andb_true_r.
      apply pretty_N_char_digit. apply N.mod_lt. lia.
Qed.

Lemma pretty_N_go_nonempty (x : N) (s : string) :
  s <> EmptyString -> pretty_N_go x s <> EmptyString.
Proof.
  revert s. induction (N.lt_wf_0 x) as [x _ IH]. intros s Hs.
  destruct (N.eq_dec x 0%N) as [-> | Hx].
  - by rewrite pretty_N_go_0.
  - rewrite pretty_N_go_step by lia. apply IH; [apply N.div_lt; lia | discriminate].
Qed.

Lemma readDigits_pretty_N_go (x : N) :
  (0 < x)%N ->
  exists k, forall s acc,
    JS.readDigits 10 acc (pretty_N_go x s) = JS.readDigits 10 (acc * k + Z.of_N x) s.
Proof.
  induction (N.lt_wf_0 x) as [x _ IH]. intros Hx.
  destruct (N.eq_dec (x / 10)%N 0%N) as [Hq | Hq].
  - exists 10. intros s acc. rewrite pretty_N_go_step, Hq, pretty_N_go_0 by lia.
    simpl. destruct (pretty_N_char_digit (x mod 10)) as [_ ->]; [apply N.mod_lt; lia |].
    f_equal. pose proof (N.div_mod x 10) as Hdm. rewrite Hq in Hdm. lia.
  - destruct (IH (x / 10)%N) as [k Hk]; [apply N.div_lt; lia | by apply N.neq_0_lt_0 |].
    exists (k * 10). intros s acc. rewrite pretty_N_go_step by lia. rewrite Hk.
    simpl. destruct (pretty_N_char_digit (x mod 10)) as [_ ->]; [apply N.mod_lt; lia |].
    f_equal. pose proof (N.div_mod x 10) as Hdm. lia.
Qed.

(** The decimal text of a non-negative integer: digits only, not empty,
    and read back by [readDigits]. *)
Lemma pretty_nonneg (z : Z) :
  0 <= z ->
  allDigits (pretty z) = true
  /\ pretty z <> EmptyString
  /\ JS.readDigits 10 0 (pretty z) = z.
Proof.
  intros Hz. destruct z as [|p|p]; [repeat split; discriminate | | lia].
  change (pretty (Z.pos p)) with (pretty_N_go (N.pos p) EmptyString).
  split; [by apply pretty_N_go_allDigits |]. split.
  - intros Hempty.
    rewrite pretty_N_go_step in Hempty by lia.
    by apply pretty_N_go_nonempty in Hempty.
  - destruct (readDigits_pretty_N_go (N.pos p)) as [k Hk]; [lia |].
    rewrite Hk. reflexivity.
Qed.

Lemma parseInt_digits (s : string) :
  allDigits s = true -> s <> EmptyString ->
  JS.parseInt s = Some (JS.readDigits 10 0 s).
Proof.
  intros Hs Hne. destruct s as [|c r]; [congruence |].
  simpl in Hs. apply andb_true_iff in Hs as [Hc Hr].
  destruct (isDigitChar_facts c Hc) as (Hw & Hm & Hp & _ & _ & d & Hd).
  unfold JS.parseInt. simpl JS.skipWhite. rewrite Hw.
  unfold JS.stripSign. rewrite Hm, Hp.
  assert (Hradix : JS.stripRadix (String c r) = (10, String c r)).
  { destruct r as [|c1 r1]; [reflexivity |].
    simpl in Hr. apply andb_true_iff in Hr as [Hc1 _].
    destruct (isDigitChar_facts c1 Hc1) as (_ & _ & _ & Hx & HX & _).
    unfold JS.stripRadix. rewrite Hx, HX. by rewrite andb_false_r. }
  rewrite Hradix. rewrite Hd. reflexivity.
Qed.

Lemma allDigits_noDash (s : string) : allDigits s = true -> noDash s = true.
Proof.
  induction s as [|c r IH]; simpl; [done |].
  intros [Hc Hr]%andb_true_iff.
  destruct (isDigitChar_facts c Hc) as (_ & Hm & _).
  unfold JS.dash. rewrite Hm. simpl. by apply IH.
Qed.

Lemma split_noDash (s : string) : noDash s = true -> JS.split JS.dash s = [s].
Proof.
  induction s as [|c r IH]; simpl; [done |].
  intros [Hc Hr]%andb_true_iff. apply negb_true_iff in Hc. rewrite Hc.
  by rewrite IH.
Qed.

Lemma split_dash_app (a rest : string) :
  noDash a = true ->
  JS.split JS.dash (a +:+ String JS.dash rest) = a :: JS.split JS.dash rest.
Proof.
  induction a as [|c r IH]; simpl.
  - intros _. reflexivity.
  - intros [Hc Hr]%andb_true_iff. apply negb_true_iff in Hc. rewrite Hc.
    by rewrite IH.
Qed.

Lemma twoDigits_all : forallb twoDigitsOk (seqZ 0 100) = true.
Proof. vm_compute. reflexivity. Qed.

Lemma padStart2_pretty (v : Z) :
  0 <= v < 100 ->
  let s := JS.padStart2 (pretty v) in
  allDigits s = true /\ s <> EmptyString /\ JS.readDigits 10 0 s = v
  /\ String.length s = 2%nat.
Proof.
  intros Hv s.
  pose proof twoDigits_all as Hall. rewrite forallb_forall in Hall.
  specialize (Hall v). unfold twoDigitsOk in Hall. fold s in Hall.
  rewrite !andb_true_iff, negb_true_iff, Z.eqb_eq, Nat.eqb_eq in Hall.
  destruct Hall as [[[Hd Hne] Hr] Hl].
  { apply list_elem_of_In, elem_of_seqZ. lia. }
  repeat split; try done. intros ->. discriminate Hne.
Qed.

Lemma normalizeDate_via_Date `{HostEnv} (x : DateInput) :
  normalizeDate x = normalizeDate (InDate (parseLocalDate x)).
Proof. destruct x; reflexivity. Qed.

Lemma parseLocalDate_canonical `{HostEnv} (n : Z) :
  100 <= JS.yearOf n -> - JS.maxDay <= n <= JS.maxDay ->
  parseLocalDate (InStr (normalizeDate (InDate (JS.Day n)))) = JS.Day n.
Proof.
  intros Hy Hn.
  pose proof (monthOf_range n) as Hm. pose proof (dateOf_range n) as Hd.
  destruct (pretty_nonneg (JS.yearOf n)) as (Hyd & Hyne & Hyr); [lia |].
  destruct (padStart2_pretty (JS.monthOf n + 1)) as (Hmd & Hmne & Hmr & _); [lia |].
  destruct (padStart2_pretty (JS.dateOf n)) as (Hdd & Hdne & Hdr & _); [lia |].
  unfold normalizeDate, parseLocalDate. simpl JS.getFullYear. simpl JS.getMonth.
  simpl JS.getDate. simpl fmap. unfold JS.numToString.
  set (Y := pretty (JS.yearOf n)) in *.
  set (M := JS.padStart2 (pretty (JS.monthOf n + 1))) in *.
  set (D := JS.padStart2 (pretty (JS.dateOf n))) in *.
  change (Y +:+ "-" +:+ M +:+ "-" +:+ D)
    with (Y +:+ String JS.dash (M +:+ String JS.dash D)).
  rewrite split_dash_app by (by apply allDigits_noDash).
  rewrite split_dash_app by (by apply allDigits_noDash).
  rewrite split_noDash by (by apply allDigits_noDash).
  rewrite !parseInt_digits by done. rewrite Hyr, Hmr, Hdr. simpl fmap.
  unfold JS.newDate3.
  destruct (Z.leb_spec 0 (JS.yearOf n)); [| lia].
  destruct (Z.leb_spec (JS.yearOf n) 99); [lia |]. simpl andb. cbv iota.
  replace (JS.monthOf n + 1 - 1) with (JS.monthOf n) by lia.
  rewrite MakeDay_fields. unfold JS.clip.
  destruct (Z.leb_spec (- JS.maxDay) n); [| lia].
  destruct (Z.leb_spec n JS.maxDay); [| lia]. reflexivity.
Qed.

(** C9, amended.  For every date input, a string or a [Date], whose local
    calendar year is 100 or later (or that denotes no date at all),
    normalizing twice gives what normalizing once gives, whatever the
    host's parser and time zone.  In particular the canonical text of such
    a date maps to itself. *)
Theorem normalizeDate_idempotent `{HostEnv} (x : DateInput) :
  match parseLocalDate x with
  | JS.Day n => 100 <= JS.yearOf n /\ - JS.maxDay <= n <= JS.maxDay
  | JS.InvalidDate => True
  end ->
  normalizeDate (InStr (normalizeDate x)) = normalizeDate x.
Proof.
  intros Hx. rewrite (normalizeDate_via_Date x).
  destruct (parseLocalDate x) as [|n].
  - reflexivity.
  - destruct Hx as [Hy Hn].
    rewrite (normalizeDate_via_Date (InStr _)).
    by rewrite parseLocalDate_canonical.
Qed.

Lemma normalizeDate_idempotent_witness :
  @normalizeDate sampleHost (InStr (@normalizeDate sampleHost (InStr "2025-1-6")))
  = @normalizeDate sampleHost (InStr "2025-1-6").
Proof.
  apply (@normalizeDate_idempotent sampleHost (InStr "2025-1-6")).
  vm_compute. repeat split; intros Hc; discriminate Hc.
Defined.

(** C9, as the specification states it, fails: a [Date] in the year 50
    prints as ["50-06-01"], and that text is read as 1 June 1950. *)
Lemma normalizeDate_two_digit_year :
  @normalizeDate sampleHost (InDate (JS.Day (-701114))) = "50-06-01"
  /\ @normalizeDate sampleHost (InStr "50-06-01") = "1950-06-01"
  /\ @normalizeDate sampleHost
       (InStr (@normalizeDate sampleHost (InDate (JS.Day (-701114)))))
     <> @normalizeDate sampleHost (InDate (JS.Day (-701114))).
Proof.
  split; [vm_compute; reflexivity |]. split; [vm_compute; reflexivity |].
  vm_compute. discriminate.
Qed.

(** ** C2 and C10: invariants of a run *)

(** ** Counting slots *)

Lemma shiftCount_sum (email : string) (k : ShiftType.t) (sch : list Slot.t) :
  shiftCount email k sch = sumOver (countTerm email k) sch.
Proof.
  unfold shiftCount, sumOver, countTerm.
  induction sch as [|s sch IH]; simpl; [reflexivity |].
  destruct (assignedTo email s && ShiftType.eqb (getShiftTypeKey s) k); simpl; lia.
Qed.

Lemma hoursOf_sum (email : string) (sch : list Slot.t) :
  hoursOf email sch = sumOver (hoursTerm email) sch.
Proof.
  unfold hoursOf, sumOver, hoursTerm.
  induction sch as [|s sch IH]; simpl; [reflexivity |].
  destruct (assignedTo email s); simpl; lia.
Qed.

Lemma sumOver_app (f : Slot.t -> Z) (l1 l2 : list Slot.t) :
  sumOver f (l1 ++ l2) = sumOver f l1 + sumOver f l2.
Proof. unfold sumOver. induction l1 as [|s l1 IH]; simpl; lia. Qed.

Lemma sumOver_insert (f : Slot.t -> Z) (sch : list Slot.t) (i : nat) (x y : Slot.t) :
  sch !! i = Some x -> sumOver f (<[i := y]> sch) = sumOver f sch - f x + f y.
Proof.
  unfold sumOver. revert i. induction sch as [|s sch IH]; intros [|i] Hi; simpl in *;
    try discriminate.
  - injection Hi as ->. lia.
  - rewrite (IH i Hi). lia.
Qed.

Lemma ShiftType_eqb_eq (a b : ShiftType.t) : ShiftType.eqb a b = true <-> a = b.
Proof. destruct a, b; simpl; split; congruence. Qed.

Lemma ShiftType_eqb_refl (a : ShiftType.t) : ShiftType.eqb a a = true.
Proof. by apply ShiftType_eqb_eq. Qed.

Lemma ShiftType_eqb_sym (a b : ShiftType.t) : ShiftType.eqb a b = ShiftType.eqb b a.
Proof. destruct a, b; reflexivity. Qed.

Lemma Load_get_bump (l : Load.t) (k k' : ShiftType.t) (dc dh : Z) :
  Load.get (Load.bump l k dc dh) k'
  = Load.get l k' + (if ShiftType.eqb k' k then dc else 0).
Proof. destruct k, k'; simpl; lia. Qed.

Lemma Load_hours_bump (l : Load.t) (k : ShiftType.t) (dc dh : Z) :
  Load.total_hours (Load.bump l k dc dh) = Load.total_hours l + dh.
Proof. destruct k; reflexivity. Qed.

Lemma assignedTo_eq (email : string) (s : Slot.t) (p : Person.t) :
  Slot.assignedPerson s = Some p ->
  assignedTo email s = String.eqb (Person.email p) email.
Proof. unfold assignedTo. by intros ->. Qed.

Lemma assignedTo_unique (a b : string) (s : Slot.t) :
  assignedTo a s = true -> assignedTo b s = true -> a = b.
Proof.
  unfold assignedTo. destruct (Slot.assignedPerson s); [| discriminate].
  intros Ha%String.eqb_eq Hb%String.eqb_eq. congruence.
Qed.

Lemma assignedTo_setAssigned (email : string) (s : Slot.t) (p : Person.t) (c : option Z) :
  assignedTo email (Slot.setAssigned s p c) = String.eqb (Person.email p) email.
Proof. reflexivity. Qed.

(** What a reassignment does to the two counters of any address. *)
Lemma countTerm_move (email from : string) (k : ShiftType.t) (slot : Slot.t)
      (toPerson : Person.t) (c : option Z) :
  assignedTo from slot = true -> Person.email toPerson <> from ->
  countTerm email k (Slot.setAssigned slot toPerson c) - countTerm email k slot
  = if ShiftType.eqb (getShiftTypeKey slot) k
    then (if String.eqb email (Person.email toPerson) then 1
          else if String.eqb email from then -1 else 0)
    else 0.
Proof.
  intros Hfrom Hne. unfold countTerm.
  rewrite assignedTo_setAssigned.
  change (getShiftTypeKey (Slot.setAssigned slot toPerson c)) with (getShiftTypeKey slot).
  destruct (ShiftType.eqb (getShiftTypeKey slot) k); rewrite ?andb_false_r, ?andb_true_r;
    [| lia].
  rewrite (String.eqb_sym email).
  destruct (String.eqb_spec (Person.email toPerson) email) as [Ht | Ht].
  - destruct (assignedTo email slot) eqn:Ha; [| lia].
    exfalso. apply Hne. rewrite Ht. by eapply assignedTo_unique.
  - destruct (String.eqb_spec email from) as [-> | Hf].
    + rewrite Hfrom. lia.
    + destruct (assignedTo email slot) eqn:Ha; [| lia].
      exfalso. apply Hf. by eapply assignedTo_unique.
Qed.

Lemma hoursTerm_move (email from : string) (slot : Slot.t)
      (toPerson : Person.t) (c : option Z) :
  assignedTo from slot = true -> Person.email toPerson <> from ->
  hoursTerm email (Slot.setAssigned slot toPerson c) - hoursTerm email slot
  = if String.eqb email (Person.email toPerson) then Slot.duration slot
    else if String.eqb email from then - Slot.duration slot else 0.
Proof.
  intros Hfrom Hne. unfold hoursTerm.
  rewrite assignedTo_setAssigned.
  change (Slot.duration (Slot.setAssigned slot toPerson c)) with (Slot.duration slot).
  rewrite (String.eqb_sym email).
  destruct (String.eqb_spec (Person.email toPerson) email) as [Ht | Ht].
  - destruct (assignedTo email slot) eqn:Ha; [| lia].
    exfalso. apply Hne. rewrite Ht. by eapply assignedTo_unique.
  - destruct (String.eqb_spec email from) as [-> | Hf].
    + rewrite Hfrom. lia.
    + destruct (assignedTo email slot) eqn:Ha; [| lia].
      exfalso. apply Hf. by eapply assignedTo_unique.
Qed.

Lemma bumpLoad_Ok_inv (currentLoad load' : gmap string Load.t) (email : string)
      (k : ShiftType.t) (dc dh : Z) :
  bumpLoad currentLoad email k dc dh = Ok load' ->
  exists l, currentLoad !! email = Some l
            /\ load' = <[email := Load.bump l k dc dh]> currentLoad.
Proof.
  unfold bumpLoad. intros Hb. inv_bind Hb. apply deref_Ok_inv in Hv.
  injection Hb as <-. eauto.
Qed.

Lemma bumpLoad_dom (currentLoad load' : gmap string Load.t) (email : string)
      (k : ShiftType.t) (dc dh : Z) (e : string) :
  bumpLoad currentLoad email k dc dh = Ok load' ->
  is_Some (load' !! e) <-> is_Some (currentLoad !! e).
Proof.
  intros (l & Hl & ->)%bumpLoad_Ok_inv.
  destruct (decide (email = e)) as [<- | Hne].
  - rewrite lookup_insert_eq, Hl. split; eauto.
  - by rewrite lookup_insert_ne.
Qed.

(** A reassignment of slot [i] from the holder [from] to [toPerson],
    together with the two load updates, keeps the load map exact. *)
Lemma LoadExact_move (sch : list Slot.t) (currentLoad load1 load2 : gmap string Load.t)
      (i : nat) (slot : Slot.t) (from : string) (toPerson : Person.t) (c : option Z) :
  LoadExact sch currentLoad ->
  sch !! i = Some slot ->
  assignedTo from slot = true ->
  Person.email toPerson <> from ->
  bumpLoad currentLoad from (getShiftTypeKey slot) (-1) (- Slot.duration slot) = Ok load1 ->
  bumpLoad load1 (Person.email toPerson) (getShiftTypeKey slot) 1 (Slot.duration slot)
  = Ok load2 ->
  LoadExact (<[i := Slot.setAssigned slot toPerson c]> sch) load2.
Proof.
  intros Hex Hi Hfrom Hne (lf & Hlf & ->)%bumpLoad_Ok_inv (lt & Hlt & ->)%bumpLoad_Ok_inv.
  rewrite lookup_insert_ne in Hlt by congruence.
  intros e l Hl. unfold recordMatches.
  setoid_rewrite shiftCount_sum. rewrite hoursOf_sum.
  setoid_rewrite (sumOver_insert _ _ _ _ _ Hi).
  assert (Hcount : forall k, sumOver (countTerm e k) sch - countTerm e k slot
                             + countTerm e k (Slot.setAssigned slot toPerson c)
                             = sumOver (countTerm e k) sch
                               + (if ShiftType.eqb (getShiftTypeKey slot) k
                                  then (if String.eqb e (Person.email toPerson) then 1
                                        else if String.eqb e from then -1 else 0)
                                  else 0)).
  { intros k. pose proof (countTerm_move e from k slot toPerson c Hfrom Hne). lia. }
  assert (Hhours : sumOver (hoursTerm e) sch - hoursTerm e slot
                   + hoursTerm e (Slot.setAssigned slot toPerson c)
                   = sumOver (hoursTerm e) sch
                     + (if String.eqb e (Person.email toPerson) then Slot.duration slot
                        else if String.eqb e from then - Slot.duration slot else 0)).
  { pose proof (hoursTerm_move e from slot toPerson c Hfrom Hne). lia. }
  setoid_rewrite Hcount. rewrite Hhours. clear Hcount Hhours.
  destruct (String.eqb_spec e (Person.email toPerson)) as [-> | Het].
  - rewrite lookup_insert_eq in Hl. injection Hl as <-.
    destruct (Hex _ _ Hlt) as [Hc Hh]. split.
    + intros k. rewrite Load_get_bump, Hc, shiftCount_sum.
      rewrite (ShiftType_eqb_sym k). reflexivity.
    + rewrite Load_hours_bump, Hh, hoursOf_sum. reflexivity.
  - rewrite lookup_insert_ne in Hl by congruence.
    destruct (String.eqb_spec e from) as [-> | Hef].
    + rewrite lookup_insert_eq in Hl. injection Hl as <-.
      destruct (Hex _ _ Hlf) as [Hc Hh]. split.
      * intros k. rewrite Load_get_bump, Hc, shiftCount_sum.
        rewrite (ShiftType_eqb_sym k). reflexivity.
      * rewrite Load_hours_bump, Hh, hoursOf_sum. reflexivity.
    + rewrite lookup_insert_ne in Hl by congruence.
      destruct (Hex _ _ Hl) as [Hc Hh]. split.
      * intros k. rewrite Hc, shiftCount_sum.
        destruct (ShiftType.eqb (getShiftTypeKey slot) k); lia.
      * rewrite Hh, hoursOf_sum. lia.
Qed.

(** ** Double booking *)

Lemma filter_nil_not {A} (f : A -> bool) (l : list A) (x : A) :
  List.filter f l = [] -> x ∈ l -> f x = false.
Proof.
  intros Hnil Hx. destruct (f x) eqn:Hf; [| reflexivity].
  assert (Hin : In x (List.filter f l)).
  { apply filter_In. split; [by apply list_elem_of_In | exact Hf]. }
  rewrite Hnil in Hin. destruct Hin.
Qed.

Lemma length_zero_nil {A} (l : list A) : (0 <? length l)%nat = false -> l = [].
Proof. destruct l; [done | simpl; discriminate]. Qed.

Lemma ids_distinct (sch : list Slot.t) (i j : nat) (s1 s2 : Slot.t) :
  NoDup (Slot.id <$> sch) -> sch !! i = Some s1 -> sch !! j = Some s2 -> i <> j ->
  Slot.id s1 <> Slot.id s2.
Proof.
  intros Hnd H1 H2 Hij Heq. apply Hij.
  eapply (NoDup_lookup _ i j (Slot.id s1) Hnd).
  - by rewrite list_lookup_fmap, H1.
  - by rewrite list_lookup_fmap, H2, Heq.
Qed.

Lemma ids_reassign (st : Scheduler) (i : nat) (slot : Slot.t) (p : Person.t)
      (c : option Z) :
  schedule st !! i = Some slot ->
  Slot.id <$> schedule (reassign st i slot p c) = Slot.id <$> schedule st.
Proof.
  intros Hi. unfold reassign. simpl. rewrite list_fmap_insert. simpl.
  apply list_insert_id. by rewrite list_lookup_fmap, Hi.
Qed.

Lemma NoDoubleBooking_reassign (st : Scheduler) (i : nat) (slot : Slot.t)
      (toPerson : Person.t) (c : option Z) :
  NoDup (Slot.id <$> schedule st) ->
  NoDoubleBooking (schedule st) ->
  schedule st !! i = Some slot ->
  otherSameDayShifts st toPerson slot = [] ->
  NoDoubleBooking (schedule (reassign st i slot toPerson c)).
Proof.
  intros Hnd Hndb Hi Hfree. unfold reassign. simpl.
  assert (Hclash : forall j s, schedule st !! j = Some s -> j <> i ->
                     assignedTo (Person.email toPerson) s = true ->
                     Slot.dateStr s <> Slot.dateStr slot).
  { intros j s Hj Hji Ha Hd.
    assert (Hin : s ∈ schedule st) by (apply list_elem_of_lookup; eauto).
    pose proof (filter_nil_not _ _ s Hfree Hin) as Hf. simpl in Hf.
    rewrite Ha, Hd, String.eqb_refl, !andb_true_r in Hf.
    apply negb_false_iff, String.eqb_eq in Hf.
    by apply (ids_distinct _ j i s slot Hnd Hj Hi Hji). }
  intros a b s1 s2 e Ha Hb Hab Ha1 Ha2.
  destruct (decide (a = i)) as [-> | Hai]; destruct (decide (b = i)) as [-> | Hbi].
  - congruence.
  - rewrite list_lookup_insert_eq in Ha by (by eapply lookup_lt_Some).
    rewrite list_lookup_insert_ne in Hb by done.
    injection Ha as <-. rewrite assignedTo_setAssigned in Ha1.
    apply String.eqb_eq in Ha1 as <-.
    intros Hd. by apply (Hclash b s2 Hb Hbi Ha2).
  - rewrite list_lookup_insert_ne in Ha by done.
    rewrite list_lookup_insert_eq in Hb by (by eapply lookup_lt_Some).
    injection Hb as <-. rewrite assignedTo_setAssigned in Ha2.
    apply String.eqb_eq in Ha2 as <-.
    by apply (Hclash a s1 Ha Hai Ha1).
  - rewrite list_lookup_insert_ne in Ha by done.
    rewrite list_lookup_insert_ne in Hb by done.
    by eapply Hndb.
Qed.

Lemma NoDoubleBooking_push (st : Scheduler) (slot slot' : Slot.t) (p : Person.t) :
  NoDoubleBooking (schedule st) ->
  getSameDayShifts st p slot = [] ->
  Slot.assignedPerson slot' = Some p ->
  Slot.dateStr slot' = Slot.dateStr slot ->
  NoDoubleBooking (schedule st ++ [slot']).
Proof.
  intros Hndb Hfree Hp Hd.
  assert (Hclash : forall j s, schedule st !! j = Some s ->
                     assignedTo (Person.email p) s = true ->
                     Slot.dateStr s <> Slot.dateStr slot).
  { intros j s Hj Ha Hds.
    assert (Hin : s ∈ schedule st) by (apply list_elem_of_lookup; eauto).
    pose proof (filter_nil_not _ _ s Hfree Hin) as Hf. simpl in Hf.
    by rewrite Ha, Hds, String.eqb_refl in Hf. }
  assert (Hlast : forall j s, (schedule st ++ [slot']) !! j = Some s ->
                    (j < length (schedule st))%nat /\ schedule st !! j = Some s
                    \/ j = length (schedule st) /\ s = slot').
  { intros j s Hj. apply lookup_app_Some in Hj as [Hj | [Hge Hj]].
    - left. split; [by eapply lookup_lt_Some | done].
    - right. apply list_lookup_singleton_Some in Hj as [Hz ->]. split; [lia | done]. }
  intros a b s1 s2 e Ha Hb Hab Ha1 Ha2.
  apply Hlast in Ha as [[Hla Ha] | [-> ->]]; apply Hlast in Hb as [[Hlb Hb] | [-> ->]].
  - by eapply Hndb.
  - rewrite (assignedTo_eq _ _ _ Hp) in Ha2. apply String.eqb_eq in Ha2 as <-.
    rewrite Hd. by eapply Hclash.
  - rewrite (assignedTo_eq _ _ _ Hp) in Ha1. apply String.eqb_eq in Ha1 as <-.
    rewrite Hd. intros Heq. symmetry in Heq. by eapply Hclash.
  - congruence.
Qed.

(** ** What a move preserves *)

Lemma isMove_fields (st st' : Scheduler) (l l' : gmap string Load.t) :
  isMove st l st' l' ->
  people st' = people st /\ preferences st' = preferences st
  /\ Slot.id <$> schedule st' = Slot.id <$> schedule st
  /\ forall e, is_Some (l' !! e) <-> is_Some (l !! e).
Proof.
  intros (i & slot & from & toPerson & c & load1 & Hi & _ & _ & _ & _ & Hb1 & Hb2 & ->).
  repeat split; try reflexivity.
  - by apply ids_reassign.
  - rewrite (bumpLoad_dom _ _ _ _ _ _ e Hb2). by rewrite (bumpLoad_dom _ _ _ _ _ _ e Hb1).
  - rewrite (bumpLoad_dom _ _ _ _ _ _ e Hb2). by rewrite (bumpLoad_dom _ _ _ _ _ _ e Hb1).
Qed.

Lemma isMove_LoadExact (st st' : Scheduler) (l l' : gmap string Load.t) :
  isMove st l st' l' -> LoadExact (schedule st) l -> LoadExact (schedule st') l'.
Proof.
  intros (i & slot & from & toPerson & c & load1 & Hi & Hfrom & _ & Hne & _ & Hb1 & Hb2 & ->) Hex.
  unfold reassign. simpl. by eapply LoadExact_move.
Qed.

Lemma isMove_NoDoubleBooking (st st' : Scheduler) (l l' : gmap string Load.t) :
  isMove st l st' l' ->
  NoDup (Slot.id <$> schedule st) ->
  NoDoubleBooking (schedule st) -> NoDoubleBooking (schedule st').
Proof.
  intros (i & slot & from & toPerson & c & load1 & Hi & _ & _ & _ & Hfree & _ & _ & ->) Hnd Hndb.
  by apply NoDoubleBooking_reassign.
Qed.

Lemma Moves_fields (st st' : Scheduler) (l l' : gmap string Load.t) :
  Moves st l st' l' ->
  people st' = people st /\ preferences st' = preferences st
  /\ Slot.id <$> schedule st' = Slot.id <$> schedule st
  /\ forall e, is_Some (l' !! e) <-> is_Some (l !! e).
Proof.
  induction 1 as [| st l st1 l1 st2 l2 Hm _ IH]; [done |].
  destruct (isMove_fields _ _ _ _ Hm) as (Hp & Hq & Hi & Hd).
  destruct IH as (Hp' & Hq' & Hi' & Hd').
  repeat split; try congruence.
  - intros Hs. by apply Hd, Hd'.
  - intros Hs. by apply Hd', Hd.
Qed.

Lemma Moves_LoadExact (st st' : Scheduler) (l l' : gmap string Load.t) :
  Moves st l st' l' -> LoadExact (schedule st) l -> LoadExact (schedule st') l'.
Proof.
  induction 1 as [| st l st1 l1 st2 l2 Hm _ IH]; [done |].
  intros Hex. apply IH. by eapply isMove_LoadExact.
Qed.

Lemma Moves_NoDoubleBooking (st st' : Scheduler) (l l' : gmap string Load.t) :
  Moves st l st' l' ->
  NoDup (Slot.id <$> schedule st) ->
  NoDoubleBooking (schedule st) -> NoDoubleBooking (schedule st').
Proof.
  induction 1 as [| st l st1 l1 st2 l2 Hm _ IH]; [done |].
  intros Hnd Hndb. apply IH.
  - destruct (isMove_fields _ _ _ _ Hm) as (_ & _ & -> & _). exact Hnd.
  - by eapply isMove_NoDoubleBooking.
Qed.

Lemma Moves_trans (st st1 st2 : Scheduler) (l l1 l2 : gmap string Load.t) :
  Moves st l st1 l1 -> Moves st1 l1 st2 l2 -> Moves st l st2 l2.
Proof.
  induction 1 as [| st l sa la sb lb Hm _ IH]; [done |].
  intros H2. eapply moves_step; [exact Hm | by apply IH].
Qed.

Lemma Moves_one (st st' : Scheduler) (l l' : gmap string Load.t) :
  isMove st l st' l' -> Moves st l st' l'.
Proof. intros Hm. eapply moves_step; [exact Hm | constructor]. Qed.

(** ** The optimizer and the balancer only make moves *)

Lemma slotsOf_elem (st : Scheduler) (shiftType : ShiftType.t) (person : Person.t)
      (i : nat) (s : Slot.t) :
  (i, s) ∈ slotsOf st shiftType person ->
  schedule st !! i = Some s
  /\ assignedTo (Person.email person) s = true
  /\ getShiftTypeKey s = shiftType.
Proof.
  unfold slotsOf. rewrite list_elem_of_In, filter_In, <- list_elem_of_In.
  rewrite indexed_elem, andb_true_iff, ShiftType_eqb_eq. tauto.
Qed.

Lemma trySwap_move (targets : Targets.t) (st st' : Scheduler)
      (l l' : gmap string Load.t) (i : nat) (slot : Slot.t)
      (currentPerson person : Person.t) (currentCost : Z) :
  schedule st !! i = Some slot ->
  Slot.assignedPerson slot = Some currentPerson ->
  person ∈ people st ->
  trySwap targets st l i slot currentPerson currentCost person = Ok (Some (st', l')) ->
  isMove st l st' l'.
Proof.
  intros Hi Hcur Hperson Hswap. unfold trySwap in Hswap.
  destruct (String.eqb_spec (Person.email person) (Person.email currentPerson))
    as [Heq | Hne]; [discriminate |].
  inv_bind Hswap.
  destruct (Target.max _ <=? _); [discriminate |].
  destruct (negb _ && _); [discriminate |].
  destruct (0 <? length (otherSameDayShifts st person slot))%nat eqn:Hfree;
    [discriminate |].
  inv_bind Hswap.
  destruct (v0 <? currentCost - 20); [| discriminate].
  inv_bind Hswap. inv_bind Hswap. injection Hswap as <- <-.
  exists i, slot, (Person.email currentPerson), person, (Some v0), v1.
  split_and!; try done.
  - by rewrite (assignedTo_eq _ _ _ Hcur), String.eqb_refl.
  - by apply length_zero_nil.
Qed.

Lemma optimizeSlot_moves (targets : Targets.t) (st st' : Scheduler)
      (l l' : gmap string Load.t) (i : nat) (slot : Slot.t) (swapped : bool) :
  schedule st !! i = Some slot ->
  optimizeSlot targets st l i slot = Ok (st', l', swapped) ->
  Moves st l st' l'.
Proof.
  intros Hi Hopt. unfold optimizeSlot in Hopt.
  inv_bind Hopt. apply deref_Ok_inv in Hv. inv_bind Hopt.
  destruct (Load.get v0 _ <=? _).
  { injection Hopt as <- <- _. constructor. }
  inv_bind Hopt. inv_bind Hopt. destruct v2 as [[st1 l1]|].
  - injection Hopt as <- <- _.
    apply firstR_Some_inv in Hv2 as (person & Hperson & Hswap).
    apply Moves_one. by eapply trySwap_move.
  - injection Hopt as <- <- _. constructor.
Qed.

Lemma tryTransfer_move (shiftType : ShiftType.t) (recipients : list Person.t)
      (st st' : Scheduler) (l l' : gmap string Load.t) (fromPerson : Person.t)
      (islot : nat * Slot.t) :
  islot ∈ slotsOf st shiftType fromPerson ->
  (forall r, r ∈ recipients -> r ∈ people st) ->
  (forall r, r ∈ recipients -> Person.email r <> Person.email fromPerson) ->
  tryTransfer shiftType recipients st l fromPerson islot = Ok (Some (st', l')) ->
  isMove st l st' l'.
Proof.
  destruct islot as [i slot]. intros (Hi & Hfrom & Hkey)%slotsOf_elem Hroster Hrec Ht.
  unfold tryTransfer in Ht.
  set (free := fun p : Person.t => (length (otherSameDayShifts st p slot) =? 0)%nat) in Ht.
  set (cands := stableSort _ (List.filter free recipients)) in Ht.
  set (pick := match List.find _ cands with Some p => Some p | None => head cands end) in Ht.
  destruct pick as [toPerson|] eqn:Hpick; [| discriminate].
  assert (Hin : toPerson ∈ cands).
  { unfold pick in Hpick. destruct (List.find _ cands) as [p|] eqn:Hfind.
    - injection Hpick as ->. apply find_some in Hfind as [Hin _].
      by apply list_elem_of_In.
    - by apply head_elem. }
  unfold cands in Hin. rewrite stableSort_elem in Hin.
  apply list_elem_of_In, filter_In in Hin as [Hin Hfree].
  apply list_elem_of_In in Hin. unfold free in Hfree. apply Nat.eqb_eq in Hfree.
  inv_bind Ht. inv_bind Ht. injection Ht as <- <-.
  exists i, slot, (Person.email fromPerson), toPerson, (Slot.cost slot), v.
  rewrite Hkey. split_and!; try done.
  - by apply Hroster.
  - by apply Hrec.
  - by apply nil_length_inv.
Qed.

Lemma directTransfer_move (shiftType : ShiftType.t) (donors recipients : list Person.t)
      (st st' : Scheduler) (l l' : gmap string Load.t) :
  (forall r, r ∈ recipients -> r ∈ people st) ->
  (forall d r, d ∈ donors -> r ∈ recipients -> Person.email r <> Person.email d) ->
  directTransfer shiftType donors recipients st l = Ok (Some (st', l')) ->
  isMove st l st' l'.
Proof.
  intros Hroster Hdr Hd. unfold directTransfer in Hd.
  apply firstR_Some_inv in Hd as (fromPerson & Hfrom & Hd).
  apply firstR_Some_inv in Hd as (islot & Hislot & Hd).
  eapply tryTransfer_move; [exact Hislot | exact Hroster | | exact Hd].
  intros r Hr. by apply Hdr.
Qed.

Lemma elem_of_insert_inv {A} (l : list A) (i : nat) (x y : A) :
  y ∈ <[i := x]> l -> y = x \/ y ∈ l.
Proof.
  intros [j Hj]%list_elem_of_lookup.
  destruct (decide (j = i)) as [-> | Hne].
  - left. assert (Hlt : (i < length l)%nat).
    { apply lookup_lt_Some in Hj. by rewrite length_insert in Hj. }
    rewrite list_lookup_insert_eq in Hj by done. congruence.
  - right. rewrite list_lookup_insert_ne in Hj by done.
    apply list_elem_of_lookup. eauto.
Qed.

Lemma filter_nil_all {A} (f : A -> bool) (l : list A) :
  (forall x, x ∈ l -> f x = false) -> List.filter f l = [].
Proof.
  induction l as [|x l IH]; simpl; intros Hall; [reflexivity |].
  rewrite (Hall x) by left. apply IH. intros y Hy. apply Hall. by right.
Qed.

Lemma otherSameDayShifts_reassign (st : Scheduler) (i : nat) (slot : Slot.t)
      (toPerson r : Person.t) (c : option Z) (x : Slot.t) :
  Person.email toPerson <> Person.email r ->
  otherSameDayShifts st r x = [] ->
  otherSameDayShifts (reassign st i slot toPerson c) r x = [].
Proof.
  intros Hne Hnil. unfold otherSameDayShifts, reassign. simpl.
  apply filter_nil_all. intros y Hy.
  apply elem_of_insert_inv in Hy as [-> | Hy].
  - rewrite assignedTo_setAssigned.
    destruct (String.eqb_spec (Person.email toPerson) (Person.email r)); [done |].
    by rewrite andb_false_r.
  - by apply (filter_nil_not _ _ y Hnil).
Qed.

Lemma tryTriangle_moves (shiftType : ShiftType.t) (recipients : list Person.t)
      (st st' : Scheduler) (l l' : gmap string Load.t) (donor intermediary : Person.t)
      (idonorSlot iintSlot : nat * Slot.t) :
  idonorSlot ∈ slotsOf st shiftType donor ->
  iintSlot ∈ slotsOf st shiftType intermediary ->
  intermediary ∈ people st ->
  (forall r, r ∈ recipients -> r ∈ people st) ->
  Person.email intermediary <> Person.email donor ->
  (forall r, r ∈ recipients -> Person.email r <> Person.email intermediary) ->
  otherSameDayShifts st intermediary (snd idonorSlot) = [] ->
  tryTriangle shiftType recipients st l donor idonorSlot intermediary iintSlot
  = Ok (Some (st', l')) ->
  Moves st l st' l'.
Proof.
  destruct idonorSlot as [di donorSlot]. destruct iintSlot as [ii intSlot].
  intros (Hdi & Hdonor & Hdkey)%slotsOf_elem (Hii & Hint & Hikey)%slotsOf_elem
         Hmroster Hroster Hmd Hrm Hfree Ht.
  simpl in Hfree. unfold tryTriangle in Ht.
  destruct (List.find _ recipients) as [recipient|] eqn:Hfind; [| discriminate].
  apply find_some in Hfind as [Hrin Hrfree].
  apply list_elem_of_In in Hrin. apply Nat.eqb_eq, nil_length_inv in Hrfree.
  inv_bind Ht. inv_bind Ht. inv_bind Ht. inv_bind Ht. injection Ht as <- <-.
  assert (Hne : ii <> di).
  { intros ->. rewrite Hdi in Hii. injection Hii as ->.
    apply Hmd. by eapply assignedTo_unique. }
  eapply moves_step.
  - exists di, donorSlot, (Person.email donor), intermediary, (Slot.cost donorSlot), v.
    rewrite Hdkey. split_and!; done.
  - apply Moves_one.
    exists ii, intSlot, (Person.email intermediary), recipient, (Slot.cost intSlot), v1.
    rewrite Hikey. split_and!; try done.
    + unfold reassign. simpl. by rewrite list_lookup_insert_ne.
    + by apply Hroster.
    + by apply Hrm.
    + apply otherSameDayShifts_reassign; [| done].
      intros Heq. by apply (Hrm recipient Hrin).
Qed.

Lemma existsb_false_elem {A} (f : A -> bool) (l : list A) (x : A) :
  existsb f l = false -> x ∈ l -> f x = false.
Proof.
  intros Hex Hx. destruct (f x) eqn:Hf; [| reflexivity].
  assert (existsb f l = true); [| congruence].
  apply existsb_exists. exists x. split; [by apply list_elem_of_In | done].
Qed.

Lemma triangleSwap_moves (shiftType : ShiftType.t) (minCount maxCount : Z)
      (donors recipients : list Person.t)
      (st st' : Scheduler) (l l' : gmap string Load.t) :
  (forall r, r ∈ recipients -> r ∈ people st) ->
  triangleSwap shiftType minCount maxCount donors recipients st l = Ok (Some (st', l')) ->
  Moves st l st' l'.
Proof.
  intros Hroster Ht. unfold triangleSwap in Ht.
  apply firstR_Some_inv in Ht as (donor & _ & Ht).
  apply firstR_Some_inv in Ht as (idonorSlot & Hds & Ht).
  inv_bind Ht.
  apply firstR_Some_inv in Ht as (intermediary & Hm & Ht).
  destruct (filterR_Ok_elem _ _ _ _ Hv Hm) as [Hmroster Hpred].
  inv_bind Hpred. injection Hpred as Hpred.
  rewrite !andb_true_iff, !negb_true_iff in Hpred.
  destruct Hpred as [[[Hmd Hmr] _] _].
  apply String.eqb_neq in Hmd.
  destruct (0 <? length (otherSameDayShifts st intermediary (snd idonorSlot)))%nat
    eqn:Hfree; [discriminate |].
  apply length_zero_nil in Hfree.
  apply firstR_Some_inv in Ht as (iintSlot & His & Ht).
  apply list_elem_of_In, filter_In in His as [His _]. apply list_elem_of_In in His.
  eapply tryTriangle_moves;
    [exact Hds | exact His | exact Hmroster | exact Hroster | exact Hmd | | exact Hfree
     | exact Ht].
  intros r Hr. pose proof (existsb_false_elem _ _ r Hmr Hr) as Hrm.
  by apply String.eqb_neq in Hrm.
Qed.

Lemma balanceStep_moves (shiftType : ShiftType.t) (st st' : Scheduler)
      (l l' : gmap string Load.t) :
  balanceStep shiftType st l = Ok (Some (st', l')) -> Moves st l st' l'.
Proof.
  intros Hb. unfold balanceStep in Hb. inv_bind Hb.
  destruct v as [|[p0 c0] cs] eqn:Hcounts; [discriminate |]. rewrite <- Hcounts in *.
  set (minCount := minList c0 (snd <$> cs)) in *.
  set (maxCount := maxList c0 (snd <$> cs)) in *.
  destruct (Z.leb_spec (maxCount - minCount) 1) as [| Hgap]; [discriminate |].
  set (donors := fst <$> List.filter (fun pc => snd pc =? maxCount) v) in *.
  set (recipients := fst <$> List.filter (fun pc => snd pc =? minCount) v) in *.
  assert (Hcount : forall p c, (p, c) ∈ v ->
            p ∈ people st
            /\ exists rec, l !! Person.email p = Some rec /\ c = Load.get rec shiftType).
  { intros p c [j Hj]%list_elem_of_lookup.
    pose proof (mapR_Ok_Forall2 _ _ _ Hv) as Hf2.
    destruct (Forall2_lookup_r _ _ _ _ _ Hf2 Hj) as (q & Hqj & Hq).
    inv_bind Hq. apply deref_Ok_inv in Hv0. injection Hq as <- <-.
    split; [apply list_elem_of_lookup |]; eauto. }
  assert (Hpick : forall c p, p ∈ fst <$> List.filter (fun pc => snd pc =? c) v ->
                    (p, c) ∈ v).
  { intros c p ([q c'] & -> & Hin)%list_elem_of_fmap.
    apply list_elem_of_In, filter_In in Hin as [Hin Hc]. simpl in Hc.
    apply Z.eqb_eq in Hc as ->. by apply list_elem_of_In. }
  assert (Hdr : forall d r, d ∈ donors -> r ∈ recipients ->
                  Person.email r <> Person.email d).
  { intros d r Hd Hr Heq.
    destruct (Hcount _ _ (Hpick _ _ Hd)) as (_ & rd & Hrd & Hcd).
    destruct (Hcount _ _ (Hpick _ _ Hr)) as (_ & rr & Hrr & Hcr).
    rewrite Heq, Hrd in Hrr. injection Hrr as <-. lia. }
  assert (Hroster : forall r, r ∈ recipients -> r ∈ people st).
  { intros r Hr. by destruct (Hcount _ _ (Hpick _ _ Hr)). }
  inv_bind Hb. destruct v0 as [[st1 l1]|].
  - injection Hb as <- <-. apply Moves_one.
    eapply directTransfer_move; [exact Hroster | exact Hdr | exact Hv0].
  - eapply triangleSwap_moves; [exact Hroster | exact Hb].
Qed.

(** ** The initial fill *)

Lemma strictCandidate_free (st : Scheduler) (l : gmap string Load.t) (target : Target.t)
      (slot : Slot.t) (p : Person.t) :
  strictCandidate st l target slot p = Ok true -> getSameDayShifts st p slot = [].
Proof.
  unfold strictCandidate. intros Hs. inv_bind Hs.
  destruct (Target.max target <=? _); [discriminate |].
  destruct (0 <? length (getSameDayShifts st p slot))%nat eqn:Hfree; [discriminate |].
  by apply length_zero_nil.
Qed.

Lemma candidatePool_inv (st : Scheduler) (l : gmap string Load.t) (target : Target.t)
      (slot slot1 : Slot.t) (candidates : list Person.t) :
  candidatePool st l target slot = Ok (candidates, slot1) ->
  (slot1 = slot \/ slot1 = Slot.setWarning slot overrideWarning)
  /\ forall p, p ∈ candidates -> p ∈ people st /\ getSameDayShifts st p slot = [].
Proof.
  unfold candidatePool, strictPool. intros Hc. inv_bind Hc.
  destruct v as [|q qs] eqn:Hpool.
  - destruct (List.filter (freeThatDay st slot) (people st)) as [|q qs] eqn:Hlast;
      [discriminate |].
    injection Hc as <- <-. split; [by right |].
    intros p Hp. rewrite <- Hlast in Hp.
    apply list_elem_of_In, filter_In in Hp as [Hp Hfree].
    split; [by apply list_elem_of_In | by apply freeThatDay_true].
  - injection Hc as <- <-. split; [by left |].
    intros p Hp. destruct (filterR_Ok_elem _ _ _ _ Hv Hp) as [Hin Hs].
    split; [done | by eapply strictCandidate_free].
Qed.

Lemma assignSlot_inv (targets : Targets.t) (st st' : Scheduler)
      (l l' : gmap string Load.t) (slot : Slot.t) :
  assignSlot targets st l slot = Ok (st', l') ->
  exists best slot1,
    (slot1 = slot \/ slot1 = Slot.setWarning slot overrideWarning)
    /\ best ∈ people st
    /\ getSameDayShifts st best slot = []
    /\ st' = withSchedule st (schedule st ++ [Slot.setAssigned slot1 best None])
    /\ bumpLoad l (Person.email best) (getShiftTypeKey slot) 1 (Slot.duration slot)
       = Ok l'.
Proof.
  unfold assignSlot. intros Ha. inv_bind Ha. destruct v as [candidates slot1].
  destruct (candidatePool_inv _ _ _ _ _ _ Hv) as [Hslot1 Hcands].
  apply bind_Ok_inv in Ha as (counts & Hcounts & Ha).
  apply bind_Ok_inv in Ha as (fair & Hfair & Ha).
  apply bind_Ok_inv in Ha as (best & Hhead & Ha). apply deref_Ok_inv in Hhead.
  apply bind_Ok_inv in Ha as (l1 & Hbump & Ha). injection Ha as <- <-.
  assert (Hbest : rPerson best ∈ candidates).
  { apply head_elem in Hhead.
    assert (Hin : rPerson best ∈ rPerson <$> rankCandidates st slot1 fair)
      by (by apply list_elem_of_fmap_2).
    rewrite rankCandidates_perm in Hin.
    by destruct (filterR_Ok_elem _ _ _ _ Hfair Hin). }
  destruct (Hcands _ Hbest) as [Hpeople Hfree].
  exists (rPerson best), slot1. repeat split; try done.
  destruct Hslot1 as [-> | ->]; exact Hbump.
Qed.

Lemma LoadExact_push (sch : list Slot.t) (l l' : gmap string Load.t)
      (slot' : Slot.t) (p : Person.t) :
  LoadExact sch l ->
  Slot.assignedPerson slot' = Some p ->
  bumpLoad l (Person.email p) (getShiftTypeKey slot') 1 (Slot.duration slot') = Ok l' ->
  LoadExact (sch ++ [slot']) l'.
Proof.
  intros Hex Hp (lp & Hlp & ->)%bumpLoad_Ok_inv e rec Hrec.
  unfold recordMatches. setoid_rewrite shiftCount_sum. rewrite hoursOf_sum.
  setoid_rewrite sumOver_app. simpl.
  unfold countTerm at 2, hoursTerm at 2. rewrite (assignedTo_eq _ _ _ Hp).
  destruct (String.eqb_spec (Person.email p) e) as [<- | Hne].
  - rewrite lookup_insert_eq in Hrec. injection Hrec as <-.
    destruct (Hex _ _ Hlp) as [Hc Hh]. split.
    + intros k. rewrite Load_get_bump, Hc, shiftCount_sum, (ShiftType_eqb_sym k).
      simpl. destruct (ShiftType.eqb _ k); lia.
    + rewrite Load_hours_bump, Hh, hoursOf_sum. lia.
  - rewrite lookup_insert_ne in Hrec by done.
    destruct (Hex _ _ Hrec) as [Hc Hh]. split.
    + intros k. rewrite Hc, shiftCount_sum. simpl. lia.
    + rewrite Hh, hoursOf_sum. lia.
Qed.

(** What one assignment keeps and adds. *)
Lemma assignSlot_step (targets : Targets.t) (st st' : Scheduler)
      (l l' : gmap string Load.t) (slot : Slot.t) :
  assignSlot targets st l slot = Ok (st', l') ->
  people st' = people st /\ preferences st' = preferences st
  /\ Slot.id <$> schedule st' = (Slot.id <$> schedule st) ++ [Slot.id slot]
  /\ (forall e, is_Some (l' !! e) <-> is_Some (l !! e))
  /\ (LoadExact (schedule st) l -> LoadExact (schedule st') l')
  /\ (NoDoubleBooking (schedule st) -> NoDoubleBooking (schedule st')).
Proof.
  intros (best & slot1 & Hslot1 & Hbest & Hfree & -> & Hbump)%assignSlot_inv.
  simpl. split_and!; try done.
  - rewrite fmap_app. simpl. by destruct Hslot1 as [-> | ->].
  - intros e. by rewrite (bumpLoad_dom _ _ _ _ _ _ e Hbump).
  - intros Hex. eapply (LoadExact_push _ _ _ _ best Hex); [reflexivity |].
    by destruct Hslot1 as [-> | ->].
  - intros Hndb. eapply (NoDoubleBooking_push st slot _ best Hndb Hfree); [reflexivity |].
    by destruct Hslot1 as [-> | ->].
Qed.

Lemma assignAll_steps (targets : Targets.t) (slots : list Slot.t) (st st' : Scheduler)
      (l l' : gmap string Load.t) :
  assignAll targets slots st l = (st', l', None) ->
  people st' = people st /\ preferences st' = preferences st
  /\ Slot.id <$> schedule st' = (Slot.id <$> schedule st) ++ (Slot.id <$> slots)
  /\ (forall e, is_Some (l' !! e) <-> is_Some (l !! e))
  /\ (LoadExact (schedule st) l -> LoadExact (schedule st') l')
  /\ (NoDoubleBooking (schedule st) -> NoDoubleBooking (schedule st')).
Proof.
  revert st l. induction slots as [|slot rest IH]; simpl; intros st l Ha.
  - injection Ha as <- <-. rewrite app_nil_r. split_and!; done.
  - destruct (assignSlot targets st l slot) as [[st1 l1]|e] eqn:Hs; [| discriminate].
    destruct (assignSlot_step _ _ _ _ _ _ Hs) as (Hp & Hq & Hi & Hd & Hex & Hndb).
    destruct (IH _ _ Ha) as (Hp' & Hq' & Hi' & Hd' & Hex' & Hndb').
    split_and!; try congruence; auto.
    + rewrite Hi', Hi, <- app_assoc. reflexivity.
    + intros e0. by rewrite Hd', Hd.
Qed.

(** A failed fill: the state left behind is the one reached by the slots
    assigned before the failure. *)
Lemma assignAll_prefix (targets : Targets.t) (slots : list Slot.t) (st st' : Scheduler)
      (l l' : gmap string Load.t) (err : option Error) :
  assignAll targets slots st l = (st', l', err) ->
  exists k, assignAll targets (take k slots) st l = (st', l', None).
Proof.
  revert st l. induction slots as [|slot rest IH]; simpl; intros st l Ha.
  - exists 0%nat. simpl. congruence.
  - destruct (assignSlot targets st l slot) as [[st1 l1]|e] eqn:Hs.
    + destruct (IH _ _ Ha) as [k Hk]. exists (S k). simpl. by rewrite Hs.
    + exists 0%nat. simpl. congruence.
Qed.

Lemma initializeLoad_lookup (st : Scheduler) :
  (forall e l, initializeLoad st !! e = Some l -> l = Load.zero)
  /\ (forall p, p ∈ people st -> is_Some (initializeLoad st !! Person.email p)).
Proof.
  unfold initializeLoad.
  assert (Hgen : forall ps (m : gmap string Load.t),
            (forall e l, m !! e = Some l -> l = Load.zero) ->
            (forall e l, foldl (fun load person => <[Person.email person := Load.zero]> load)
                               m ps !! e = Some l -> l = Load.zero)
            /\ (forall p, p ∈ ps \/ is_Some (m !! Person.email p) ->
                  is_Some (foldl (fun load person => <[Person.email person := Load.zero]> load)
                                 m ps !! Person.email p))).
  { induction ps as [|q ps IH]; simpl; intros m Hm.
    - split; [done |]. intros p [Hp | Hp]; [inversion Hp | done].
    - destruct (IH (<[Person.email q := Load.zero]> m)) as [IH1 IH2].
      { intros e l. destruct (decide (Person.email q = e)) as [<- | Hne].
        - rewrite lookup_insert_eq. congruence.
        - rewrite lookup_insert_ne by done. apply Hm. }
      split; [exact IH1 |]. intros p Hp. apply IH2.
      destruct (decide (Person.email q = Person.email p)) as [Heq | Hne].
      + right. rewrite Heq, lookup_insert_eq. eauto.
      + destruct Hp as [Hp | Hp].
        * apply elem_of_cons in Hp as [-> | Hp]; [congruence | by left].
        * right. by rewrite lookup_insert_ne. }
  destruct (Hgen (people st) ∅) as [H1 H2].
  { intros e l. by rewrite lookup_empty. }
  split; [exact H1 |]. intros p Hp. apply H2. by left.
Qed.

Lemma LoadExact_initial (st : Scheduler) : LoadExact [] (initializeLoad st).
Proof.
  intros e l Hl. destruct (initializeLoad_lookup st) as [Hz _].
  rewrite (Hz _ _ Hl). split; [intros []; reflexivity | reflexivity].
Qed.

Lemma NoDoubleBooking_nil : NoDoubleBooking [].
Proof. intros i j s1 s2 e Hi. by rewrite lookup_nil in Hi. Qed.

(** ** Slot identifiers are distinct *)

Lemma length_append (a b : string) :
  String.length (a +:+ b) = (String.length a + String.length b)%nat.
Proof. induction a as [|c a IH]; simpl; [reflexivity | by rewrite IH]. Qed.

Lemma append_assoc (a b c : string) : (a +:+ b) +:+ c = a +:+ (b +:+ c).
Proof.
  induction a as [|x a IH]; [reflexivity |].
  change (String x ((a +:+ b) +:+ c) = String x (a +:+ (b +:+ c))). by f_equal.
Qed.

Lemma append_inj_len (a a' b b' : string) :
  a +:+ b = a' +:+ b' -> String.length b = String.length b' -> a = a' /\ b = b'.
Proof.
  revert a'. induction a as [|c a IH]; intros [|c' a'] Heq Hlen;
    change (EmptyString +:+ b) with b in *;
    change (EmptyString +:+ b') with b' in *;
    try change (String c a +:+ b) with (String c (a +:+ b)) in *;
    try change (String c' a' +:+ b') with (String c' (a' +:+ b')) in *.
  - done.
  - exfalso. subst b. simpl in Hlen. rewrite length_append in Hlen. lia.
  - exfalso. subst b'. simpl in Hlen. rewrite length_append in Hlen. lia.
  - injection Heq as -> Heq. destruct (IH _ Heq Hlen) as [-> ->]. done.
Qed.

Lemma canonical_inj `{HostEnv} (a b : Z) :
  normalizeDate (InDate (JS.Day a)) = normalizeDate (InDate (JS.Day b)) -> a = b.
Proof.
  unfold normalizeDate. simpl JS.getFullYear. simpl JS.getMonth. simpl JS.getDate.
  simpl fmap. unfold JS.numToString.
  pose proof (monthOf_range a) as Hma. pose proof (monthOf_range b) as Hmb.
  pose proof (dateOf_range a) as Hda. pose proof (dateOf_range b) as Hdb.
  destruct (padStart2_pretty (JS.monthOf a + 1)) as (_ & _ & Hra & Hla); [lia |].
  destruct (padStart2_pretty (JS.monthOf b + 1)) as (_ & _ & Hrb & Hlb); [lia |].
  destruct (padStart2_pretty (JS.dateOf a)) as (_ & _ & Hrda & Hlda); [lia |].
  destruct (padStart2_pretty (JS.dateOf b)) as (_ & _ & Hrdb & Hldb); [lia |].
  set (Ma := JS.padStart2 (pretty (JS.monthOf a + 1))) in *.
  set (Mb := JS.padStart2 (pretty (JS.monthOf b + 1))) in *.
  set (Da := JS.padStart2 (pretty (JS.dateOf a))) in *.
  set (Db := JS.padStart2 (pretty (JS.dateOf b))) in *.
  clearbody Ma Mb Da Db. intros Heq.
  change (pretty (JS.yearOf a) +:+ String JS.dash (Ma +:+ String JS.dash Da)
          = pretty (JS.yearOf b) +:+ String JS.dash (Mb +:+ String JS.dash Db)) in Heq.
  apply append_inj_len in Heq as [Hy Heq].
  2:{ cbn [String.length]. rewrite !length_append. cbn [String.length]. lia. }
  injection Heq as Heq.
  apply append_inj_len in Heq as [HM Heq].
  2:{ cbn [String.length]. lia. }
  injection Heq as HD.
  apply (inj pretty) in Hy.
  rewrite <- (MakeDay_fields a), <- (MakeDay_fields b).
  unfold JS.yearOf in *. rewrite Hy.
  replace (JS.monthOf a) with (JS.monthOf b) by (rewrite HM in Hra; lia).
  replace (JS.dateOf a) with (JS.dateOf b) by (rewrite HD in Hrda; lia).
  reflexivity.
Qed.

Lemma getSlotLabel_inj (i j : Z) :
  0 <= i < 159 -> 0 <= j < 159 -> getSlotLabel i = getSlotLabel j -> i = j.
Proof.
  unfold getSlotLabel. intros Hi Hj [= Heq].
  apply (f_equal N_of_ascii) in Heq.
  rewrite !N_ascii_embedding in Heq by lia. lia.
Qed.


Lemma slotId_inj (ds ds' : string) (r r' : Role) (i i' : Z) :
  0 <= i < 159 -> 0 <= i' < 159 ->
  slotId ds r i = slotId ds' r' i' -> ds = ds' /\ r = r' /\ i = i'.
Proof.
  intros Hi Hi' Heq. unfold slotId in Heq.
  destruct r, r'; simpl in Heq.
  - apply append_inj_len in Heq as [-> Heq]; [| reflexivity].
    injection Heq as Heq. split_and!; try done.
    apply getSlotLabel_inj; try done. unfold getSlotLabel. by f_equal.
  - exfalso.
    change (ds' +:+ "-" +:+ "secondary" +:+ "-" +:+ getSlotLabel i')
      with (ds' +:+ ("-s" +:+ ("econdary-" +:+ getSlotLabel i'))) in Heq.
    rewrite <- (append_assoc ds' "-s") in Heq.
    apply append_inj_len in Heq as [_ Heq]; [| reflexivity].
    discriminate Heq.
  - exfalso. symmetry in Heq.
    change (ds +:+ "-" +:+ "secondary" +:+ "-" +:+ getSlotLabel i)
      with (ds +:+ ("-s" +:+ ("econdary-" +:+ getSlotLabel i))) in Heq.
    rewrite <- (append_assoc ds "-s") in Heq.
    apply append_inj_len in Heq as [_ Heq]; [| reflexivity].
    discriminate Heq.
  - apply append_inj_len in Heq as [-> Heq]; [| reflexivity].
    injection Heq as Heq. split_and!; try done.
    apply getSlotLabel_inj; try done. unfold getSlotLabel. by f_equal.
Qed.

Lemma generateDates_loop_days (fuel : nat) (c : Z) (end_ : JS.Date) :
  exists ns, generateDates_loop fuel (JS.Day c) end_ = JS.Day <$> ns
             /\ (forall n, n ∈ ns -> c <= n) /\ NoDup ns.
Proof.
  revert c. induction fuel as [|fuel IH]; intros c; cbn [generateDates_loop].
  - exists []. split_and!; [done | intros n Hn; inversion Hn | constructor].
  - destruct (JS.leDate (JS.Day c) end_).
    + cbn [JS.addDays]. unfold JS.clip. destruct (_ && _).
      * destruct (IH (c + 1)) as (ns & -> & Hge & Hnd).
        exists (c :: ns). split_and!; [done | |].
        -- intros n [-> | Hn]%elem_of_cons; [lia |]. specialize (Hge n Hn). lia.
        -- constructor; [| done]. intros Hc. specialize (Hge c Hc). lia.
      * exists [c]. split_and!.
        -- destruct fuel; reflexivity.
        -- intros n [-> | Hn]%elem_of_cons; [lia | inversion Hn].
        -- apply NoDup_singleton.
    + exists []. split_and!; [done | intros n Hn; inversion Hn | constructor].
Qed.

Lemma generateDates_days `{HostEnv} (st : Scheduler) :
  exists ns, generateDates st = JS.Day <$> ns /\ NoDup ns.
Proof.
  unfold generateDates. destruct (dateRange st) as [[[|s] [|e]]|].
  - exists []. split; [done | constructor].
  - exists []. split; [done | constructor].
  - exists []. split; [done | constructor].
  - destruct (generateDates_loop_days (Z.to_nat (e - s + 1)) s (JS.Day e))
      as (ns & Hns & _ & Hnd). eauto.
  - exists [hostEpochDay]. split; [done | apply NoDup_singleton].
Qed.

Lemma NoDup_concat_fmap {A B} (g : A -> list B) (l : list A) :
  NoDup l ->
  (forall x, x ∈ l -> NoDup (g x)) ->
  (forall x y b, x ∈ l -> y ∈ l -> b ∈ g x -> b ∈ g y -> x = y) ->
  NoDup (concat (g <$> l)).
Proof.
  induction l as [|a l IH]; simpl; intros Hnd Hin Hdis; [constructor |].
  apply NoDup_cons in Hnd as [Ha Hnd].
  apply NoDup_app. split_and!.
  - apply Hin. left.
  - intros b Hb Hb'.
    apply list_elem_of_In, in_concat in Hb' as (lb & Hlb & Hb').
    apply list_elem_of_In, list_elem_of_fmap in Hlb as (y & -> & Hy).
    apply list_elem_of_In in Hb'.
    assert (a = y) as -> by (eapply Hdis; [left | by right | done | done]).
    done.
  - apply IH; [done | |].
    + intros x Hx. apply Hin. by right.
    + intros x y b Hx Hy. apply Hdis; by right.
Qed.

Lemma fmap_concat {A B} (f : A -> B) (ll : list (list A)) :
  f <$> concat ll = concat ((fun l : list A => f <$> l) <$> ll).
Proof.
  induction ll as [|l ll IH]; simpl; [reflexivity |]. by rewrite fmap_app, IH.
Qed.

Lemma slotsOfDate_ids `{HostEnv} (st : Scheduler) (d : JS.Date) :
  Slot.id <$> slotsOfDate st d
  = (slotId (normalizeDate (InDate d)) primary <$> seqZ 0 (primaryCount st))
    ++ (slotId (normalizeDate (InDate d)) secondary <$> seqZ 0 (secondaryCount st)).
Proof.
  unfold slotsOfDate. rewrite fmap_app, <- !list_fmap_compose. reflexivity.
Qed.

Lemma generateSlots_ids_NoDup `{HostEnv} (st : Scheduler) :
  shiftCountsClamped st -> NoDup (Slot.id <$> generateSlots st).
Proof.
  intros [HP HS]. unfold generateSlots.
  destruct (generateDates_days st) as (ns & -> & Hnd).
  rewrite fmap_concat, <- !list_fmap_compose.
  apply NoDup_concat_fmap; [exact Hnd | |].
  - intros n _. simpl. rewrite slotsOfDate_ids.
    apply NoDup_app. split_and!.
    + apply NoDup_fmap_2_strong; [| apply NoDup_seqZ].
      intros i j Hi%elem_of_seqZ Hj%elem_of_seqZ Heq.
      apply slotId_inj in Heq; [tauto | lia | lia].
    + intros b (i & -> & Hi%elem_of_seqZ)%list_elem_of_fmap
             (j & Heq & Hj%elem_of_seqZ)%list_elem_of_fmap.
      apply slotId_inj in Heq; [| lia | lia]. destruct Heq as (_ & Hr & _).
      discriminate Hr.
    + apply NoDup_fmap_2_strong; [| apply NoDup_seqZ].
      intros i j Hi%elem_of_seqZ Hj%elem_of_seqZ Heq.
      apply slotId_inj in Heq; [tauto | lia | lia].
  - intros x y b _ _. simpl. rewrite !slotsOfDate_ids.
    assert (Hds : forall (n : Z) r i r' i', 0 <= i < 159 -> 0 <= i' < 159 ->
              slotId (normalizeDate (InDate (JS.Day x))) r i
              = slotId (normalizeDate (InDate (JS.Day y))) r' i' -> x = y).
    { intros _ r i r' i' Hi Hi' Heq.
      apply slotId_inj in Heq as [Hds _]; [| lia | lia]. by apply canonical_inj. }
    intros [Hx | Hx]%elem_of_app [Hy | Hy]%elem_of_app;
      apply list_elem_of_fmap in Hx as (i & -> & Hi%elem_of_seqZ);
      apply list_elem_of_fmap in Hy as (j & Heq & Hj%elem_of_seqZ);
      (eapply (Hds 0); [| | exact Heq]; lia).
Qed.

Lemma sortedSlots_ids_NoDup `{HostEnv} (st : Scheduler) :
  shiftCountsClamped st -> NoDup (Slot.id <$> sortedSlots st).
Proof.
  intros Hc. unfold sortedSlots. rewrite stableSort_perm.
  by apply generateSlots_ids_NoDup.
Qed.

(** ** Every visited state *)

Lemma Visited_inv `{HostEnv} (st0 st : Scheduler) (l : gmap string Load.t) :
  Visited st0 st l ->
  people st = people st0
  /\ (exists k, Slot.id <$> schedule st = Slot.id <$> take k (sortedSlots st0))
  /\ (forall p, p ∈ people st0 -> is_Some (l !! Person.email p))
  /\ LoadExact (schedule st) l
  /\ (NoDup (Slot.id <$> sortedSlots st0) -> NoDoubleBooking (schedule st)).
Proof.
  assert (Hprefix : forall k, NoDup (Slot.id <$> sortedSlots st0) ->
                      NoDup (Slot.id <$> take k (sortedSlots st0))).
  { intros k Hnd. rewrite fmap_take. eapply sublist_NoDup; [exact Hnd | apply sublist_take]. }
  induction 1 as [k st l Hfill
                 | st l i slot st' l' swapped _ IH Hi Hopt
                 | st l shiftType st' l' _ IH Hbal].
  - destruct (assignAll_steps _ _ _ _ _ _ Hfill) as (Hp & _ & Hids & Hdom & Hex & Hndb).
    simpl in *. split_and!.
    + exact Hp.
    + exists k. exact Hids.
    + intros p Hp'. apply Hdom. by apply initializeLoad_lookup.
    + apply Hex. apply LoadExact_initial.
    + intros _. apply Hndb. apply NoDoubleBooking_nil.
  - destruct IH as (Hp & [k Hids] & Hdom & Hex & Hndb).
    pose proof (optimizeSlot_moves _ _ _ _ _ _ _ _ Hi Hopt) as Hm.
    destruct (Moves_fields _ _ _ _ Hm) as (Hp' & _ & Hids' & Hdom').
    split_and!.
    + congruence.
    + exists k. congruence.
    + intros p Hp''. by apply Hdom', Hdom.
    + by eapply Moves_LoadExact.
    + intros Hnd. eapply Moves_NoDoubleBooking; [exact Hm | | by apply Hndb].
      rewrite Hids. by apply Hprefix.
  - destruct IH as (Hp & [k Hids] & Hdom & Hex & Hndb).
    pose proof (balanceStep_moves _ _ _ _ _ Hbal) as Hm.
    destruct (Moves_fields _ _ _ _ Hm) as (Hp' & _ & Hids' & Hdom').
    split_and!.
    + congruence.
    + exists k. congruence.
    + intros p Hp''. by apply Hdom', Hdom.
    + by eapply Moves_LoadExact.
    + intros Hnd. eapply Moves_NoDoubleBooking; [exact Hm | | by apply Hndb].
      rewrite Hids. by apply Hprefix.
Qed.

Lemma Visited_LoadMatches `{HostEnv} (st0 st : Scheduler) (l : gmap string Load.t) :
  Visited st0 st l -> LoadMatches st l.
Proof.
  intros (Hp & _ & Hdom & Hex & _)%Visited_inv p Hin.
  rewrite Hp in Hin. destruct (Hdom p Hin) as [rec Hrec].
  exists rec. split; [exact Hrec | by apply Hex].
Qed.

(** ** The phases only pass through visited states *)

Lemma fill_visited `{HostEnv} (st0 st : Scheduler) (l : gmap string Load.t)
      (err : option Error) :
  assignAll (calculateTargetShifts st0) (sortedSlots st0)
            (withSchedule st0 []) (initializeLoad st0) = (st, l, err) ->
  Visited st0 st l.
Proof.
  intros Hfill. destruct (assignAll_prefix _ _ _ _ _ _ _ Hfill) as [k Hk].
  by eapply visited_fill.
Qed.

Lemma optimizePass_visited `{HostEnv} (st0 : Scheduler) (n i : nat)
      (st st' : Scheduler) (l l' : gmap string Load.t) (improved improved' : bool) :
  Visited st0 st l ->
  optimizePass (calculateTargetShifts st0) n i st l improved = Ok (st', l', improved') ->
  Visited st0 st' l'.
Proof.
  revert i st l improved. induction n as [|n IH]; simpl; intros i st l improved Hvis Hpass.
  - by injection Hpass as <- <- _.
  - destruct (schedule st !! i) as [slot|] eqn:Hi.
    + apply bind_Ok_inv in Hpass as ([[st1 l1] swapped] & Hopt & Hpass).
      eapply IH; [| exact Hpass]. eapply visited_swap; [exact Hvis | exact Hi | exact Hopt].
    + by injection Hpass as <- <- _.
Qed.

Lemma optimizeLoop_visited `{HostEnv} (st0 : Scheduler) (fuel : nat)
      (st st' : Scheduler) (l l' : gmap string Load.t) :
  Visited st0 st l ->
  optimizeLoop (calculateTargetShifts st0) fuel st l = Ok (st', l') ->
  Visited st0 st' l'.
Proof.
  revert st l. induction fuel as [|fuel IH]; simpl; intros st l Hvis Hloop.
  - by injection Hloop as <- <-.
  - apply bind_Ok_inv in Hloop as ([[st1 l1] improved] & Hpass & Hloop).
    pose proof (optimizePass_visited _ _ _ _ _ _ _ _ _ Hvis Hpass) as Hvis1.
    destruct improved.
    + by eapply IH.
    + by injection Hloop as <- <-.
Qed.

Lemma balanceLoop_visited `{HostEnv} (st0 : Scheduler) (shiftType : ShiftType.t)
      (fuel : nat) (st st' : Scheduler) (l l' : gmap string Load.t) :
  Visited st0 st l ->
  balanceLoop shiftType fuel st l = Ok (st', l') ->
  Visited st0 st' l'.
Proof.
  revert st l. induction fuel as [|fuel IH]; simpl; intros st l Hvis Hloop.
  - by injection Hloop as <- <-.
  - apply bind_Ok_inv in Hloop as (r & Hstep & Hloop). destruct r as [[st1 l1]|].
    + eapply IH; [| exact Hloop]. eapply visited_balance; [exact Hvis | exact Hstep].
    + by injection Hloop as <- <-.
Qed.

Lemma balanceTypes_visited `{HostEnv} (st0 : Scheduler) (shiftTypes : list ShiftType.t)
      (st st' : Scheduler) (l l' : gmap string Load.t) :
  Visited st0 st l ->
  balanceTypes shiftTypes st l = Ok (st', l') ->
  Visited st0 st' l'.
Proof.
  revert st l. induction shiftTypes as [|k ks IH]; cbn [balanceTypes]; intros st l Hvis Hb.
  - by injection Hb as <- <-.
  - apply bind_Ok_inv in Hb as ([st1 l1] & Hloop & Hb).
    eapply IH; [| exact Hb]. eapply balanceLoop_visited; [exact Hvis | exact Hloop].
Qed.

(** The outcome of [generateSchedule] past the pre-flight checks. *)
Lemma generateSchedule_visited `{HostEnv} (st0 st' : Scheduler) (out : Output) :
  generateSchedule st0 = (Ok out, st') ->
  exists l, Visited st0 st' l
            /\ outSchedule out = schedule st'
            /\ generateFairnessReport st' l = Ok (fairnessReport out).
Proof.
  unfold generateSchedule. destruct (_ <? _); [discriminate |].
  destruct (dateRange st0); [| discriminate].
  unfold runPhases. fold (sortedSlots st0).
  destruct (assignAll _ _ _ _) as [[st1 l1] [e|]] eqn:Hfill; [discriminate |].
  pose proof (fill_visited _ _ _ _ Hfill) as Hv1.
  destruct (optimizeWithSwaps _ st1 l1) as [[st2 l2]|e] eqn:Hopt; [| discriminate].
  pose proof (optimizeLoop_visited _ _ _ _ _ _ Hv1 Hopt) as Hv2.
  destruct (balanceShifts st2 l2) as [[st3 l3]|e] eqn:Hbal; [| discriminate].
  pose proof (balanceTypes_visited _ _ _ _ _ _ Hv2 Hbal) as Hv3.
  destruct (generateFairnessReport st3 l3) as [report|e] eqn:Hrep; [| discriminate].
  intros [= <- <-]. exists l3. simpl. split_and!; done.
Qed.

Lemma generateFairnessReport_counters `{HostEnv} (st : Scheduler)
      (l : gmap string Load.t) (report : FairnessReport.t) :
  LoadMatches st l ->
  generateFairnessReport st l = Ok report ->
  forall r, r ∈ FairnessReport.byPerson report ->
    (forall k, reportCount r k = shiftCount (PersonReport.email r) k (schedule st))
    /\ PersonReport.totalHours r = hoursOf (PersonReport.email r) (schedule st).
Proof.
  intros Hlm Hrep r Hr. unfold generateFairnessReport in Hrep.
  apply bind_Ok_inv in Hrep as (rows & Hrows & Hrep). injection Hrep as <-.
  simpl in Hr. apply list_elem_of_lookup in Hr as [j Hj].
  destruct (Forall2_lookup_r _ _ _ _ _ (mapR_Ok_Forall2 _ _ _ Hrows) Hj)
    as (p & Hp & Hpr).
  assert (Hin : p ∈ people st) by (apply list_elem_of_lookup; eauto).
  destruct (Hlm p Hin) as (rec & Hrec & Hc & Hh).
  unfold personReport in Hpr.
  apply bind_Ok_inv in Hpr as (kinds & _ & Hpr).
  rewrite Hrec in Hpr. simpl in Hpr. injection Hpr as <-. simpl.
  split; [| exact Hh]. intros k. rewrite <- Hc. by destruct k.
Qed.

(** C10. In every state that [generateSchedule] passes through -- after
    each slot of the initial fill, after each turn of the optimizer (a
    swap or none), after each turn of the balancer (a direct transfer or a
    triangle rotation) -- every person of the roster has a load record
    whose four category counters equal the number of slots of that
    category the stored schedule assigns to that person and whose
    [total_hours] equals the sum of the durations of those slots.  The
    states reached after the fill, after the optimizer and after the
    balancer are such states, and the counters of the returned fairness
    report agree with the returned schedule. *)
Theorem load_matches_schedule `{HostEnv} (st0 : Scheduler) :
  (forall st l, Visited st0 st l -> LoadMatches st l)
  /\ (forall st1 l1 err,
        assignAll (calculateTargetShifts st0) (sortedSlots st0)
                  (withSchedule st0 []) (initializeLoad st0) = (st1, l1, err) ->
        LoadMatches st1 l1
        /\ forall st2 l2,
             optimizeWithSwaps (calculateTargetShifts st0) st1 l1 = Ok (st2, l2) ->
             LoadMatches st2 l2
             /\ forall st3 l3,
                  balanceShifts st2 l2 = Ok (st3, l3) -> LoadMatches st3 l3)
  /\ (forall out st',
        generateSchedule st0 = (Ok out, st') ->
        forall r, r ∈ FairnessReport.byPerson (fairnessReport out) ->
          (forall k, reportCount r k
                     = shiftCount (PersonReport.email r) k (outSchedule out))
          /\ PersonReport.totalHours r
             = hoursOf (PersonReport.email r) (outSchedule out)).
Proof.
  split_and!.
  - intros st l Hv. exact (Visited_LoadMatches st0 st l Hv).
  - intros st1 l1 err Hfill. pose proof (fill_visited _ _ _ _ Hfill) as Hv1.
    split; [exact (Visited_LoadMatches st0 _ _ Hv1) |].
    intros st2 l2 Hopt. pose proof (optimizeLoop_visited _ _ _ _ _ _ Hv1 Hopt) as Hv2.
    split; [exact (Visited_LoadMatches st0 _ _ Hv2) |].
    intros st3 l3 Hbal. apply (Visited_LoadMatches st0).
    exact (balanceTypes_visited _ _ _ _ _ _ Hv2 Hbal).
  - intros out st' (l & Hvis & -> & Hrep)%generateSchedule_visited.
    eapply generateFairnessReport_counters; [| exact Hrep].
    exact (Visited_LoadMatches st0 _ _ Hvis).
Qed.

Lemma load_matches_schedule_witness :
  exists out st',
    @generateSchedule sampleHost sixPeople = (Ok out, st')
    /\ forall r, r ∈ FairnessReport.byPerson (fairnessReport out) ->
         (forall k, reportCount r k
                    = shiftCount (PersonReport.email r) k (outSchedule out))
         /\ PersonReport.totalHours r
            = hoursOf (PersonReport.email r) (outSchedule out).
Proof.
  assert (Hrun : exists out st', @generateSchedule sampleHost sixPeople = (Ok out, st')).
  { eexists _, _. vm_compute. reflexivity. }
  destruct Hrun as (out & st' & Hrun). exists out, st'. split; [exact Hrun |].
  destruct (@load_matches_schedule sampleHost sixPeople) as (_ & _ & Hfinal).
  exact (Hfinal out st' Hrun).
Defined.

(** C2. With the shift counts in the range [setShiftCounts] keeps them in,
    no state that [generateSchedule] passes through assigns one person two
    slots with equal calendar-day strings: not after any slot of the
    initial fill, not after any turn of the optimizer, not after any turn
    of the balancer; in particular not after the fill, after the optimizer
    or after the balancer, and not in the schedule that is returned and
    stored. *)
Theorem no_double_booking `{HostEnv} (st0 : Scheduler) :
  shiftCountsClamped st0 ->
  (forall st l, Visited st0 st l -> NoDoubleBooking (schedule st))
  /\ (forall st1 l1 err,
        assignAll (calculateTargetShifts st0) (sortedSlots st0)
                  (withSchedule st0 []) (initializeLoad st0) = (st1, l1, err) ->
        NoDoubleBooking (schedule st1)
        /\ forall st2 l2,
             optimizeWithSwaps (calculateTargetShifts st0) st1 l1 = Ok (st2, l2) ->
             NoDoubleBooking (schedule st2)
             /\ forall st3 l3,
                  balanceShifts st2 l2 = Ok (st3, l3) ->
                  NoDoubleBooking (schedule st3))
  /\ (forall out st',
        generateSchedule st0 = (Ok out, st') ->
        NoDoubleBooking (outSchedule out) /\ schedule st' = outSchedule out).
Proof.
  intros Hclamped. pose proof (sortedSlots_ids_NoDup st0 Hclamped) as Hnd.
  assert (Hvis : forall st l, Visited st0 st l -> NoDoubleBooking (schedule st)).
  { intros st l (_ & _ & _ & _ & Hndb)%Visited_inv. by apply Hndb. }
  split_and!.
  - exact Hvis.
  - intros st1 l1 err Hfill. pose proof (fill_visited _ _ _ _ Hfill) as Hv1.
    split; [exact (Hvis _ _ Hv1) |].
    intros st2 l2 Hopt. pose proof (optimizeLoop_visited _ _ _ _ _ _ Hv1 Hopt) as Hv2.
    split; [exact (Hvis _ _ Hv2) |].
    intros st3 l3 Hbal. exact (Hvis _ _ (balanceTypes_visited _ _ _ _ _ _ Hv2 Hbal)).
  - intros out st' (l & Hv & Hout & _)%generateSchedule_visited.
    rewrite Hout. split; [exact (Hvis _ _ Hv) | reflexivity].
Qed.

Lemma no_double_booking_witness :
  exists out st',
    @generateSchedule sampleHost sixPeople = (Ok out, st')
    /\ NoDoubleBooking (outSchedule out).
Proof.
  assert (Hrun : exists out st', @generateSchedule sampleHost sixPeople = (Ok out, st')).
  { eexists _, _. vm_compute. reflexivity. }
  destruct Hrun as (out & st' & Hrun). exists out, st'. split; [exact Hrun |].
  destruct (@no_double_booking sampleHost sixPeople) as (_ & _ & Hfinal).
  - vm_compute. repeat split; intros Hc; discriminate Hc.
  - exact (proj1 (Hfinal out st' Hrun)).
Defined.

(** ** No phase reads a property of [undefined]

    The model lets every read of [currentLoad.get(email)] and of
    [slot.assignedPerson] fail with a [TypeError].  On the states a run
    passes through none of them does: the only exceptions of
    [generateSchedule] are the three it raises itself. *)

Lemma firstR_total {A B} (f : A -> Result (option B)) (l : list A) :
  (forall x, x ∈ l -> exists r, f x = Ok r) -> exists r, firstR f l = Ok r.
Proof.
  induction l as [|y l IH]; simpl; intros Hall; [eauto |].
  destruct (Hall y) as [r Hr]; [left |]. rewrite Hr. simpl.
  destruct r; [eauto |]. apply IH. intros x Hx. apply Hall. by right.
Qed.

Lemma bumpLoad_total (l : gmap string Load.t) (e : string) (k : ShiftType.t)
      (dc dh : Z) :
  is_Some (l !! e) ->
  exists l', bumpLoad l e k dc dh = Ok l'
             /\ forall e', is_Some (l !! e') -> is_Some (l' !! e').
Proof.
  intros [rec Hrec]. unfold bumpLoad. rewrite Hrec. simpl.
  eexists. split; [reflexivity |]. intros e' He'.
  destruct (decide (e = e')) as [<- | Hne].
  - rewrite lookup_insert_eq. eauto.
  - by rewrite lookup_insert_ne.
Qed.

Lemma calculateCost_total (st : Scheduler) (p : Person.t) (slot : Slot.t)
      (l : gmap string Load.t) (targets : option Targets.t) :
  is_Some (l !! Person.email p) -> exists c, calculateCost st p slot l targets = Ok c.
Proof. intros [rec Hrec]. unfold calculateCost. rewrite Hrec. simpl. eauto. Qed.

(** *** The optimizer *)

Lemma trySwap_total (targets : Targets.t) (st : Scheduler) (l : gmap string Load.t)
      (i : nat) (slot : Slot.t) (currentPerson : Person.t) (currentCost : Z)
      (person : Person.t) :
  is_Some (l !! Person.email currentPerson) ->
  is_Some (l !! Person.email person) ->
  exists r, trySwap targets st l i slot currentPerson currentCost person = Ok r.
Proof.
  intros Hcur Hperson. unfold trySwap.
  destruct (String.eqb _ _); [eauto |].
  destruct Hperson as [rec Hrec]. rewrite Hrec. simpl.
  destruct (_ <=? _); [eauto |].
  destruct (negb _ && _); [eauto |].
  destruct (0 <? _)%nat; [eauto |].
  destruct (calculateCost_total st person slot l (Some targets)) as [c Hc]; [eauto |].
  rewrite Hc. simpl. destruct (c <? _); [| eauto].
  destruct (bumpLoad_total l (Person.email currentPerson) (getShiftTypeKey slot)
                           (-1) (- Slot.duration slot) Hcur) as (l1 & Hl1 & Hdom1).
  rewrite Hl1. simpl.
  destruct (bumpLoad_total l1 (Person.email person) (getShiftTypeKey slot)
                           1 (Slot.duration slot)) as (l2 & Hl2 & _).
  { apply Hdom1. eauto. }
  rewrite Hl2. simpl. eauto.
Qed.

Lemma optimizeSlot_total (targets : Targets.t) (st : Scheduler)
      (l : gmap string Load.t) (i : nat) (slot : Slot.t) :
  RunReady st l -> slot ∈ schedule st ->
  exists r, optimizeSlot targets st l i slot = Ok r.
Proof.
  intros [Hrec Hasg] Hin. destruct (Hasg _ Hin) as (cur & Hcur & Hroster).
  unfold optimizeSlot. rewrite Hcur. simpl.
  destruct (Hrec _ Hroster) as [rec Hr]. rewrite Hr. simpl.
  destruct (_ <=? _); [eauto |].
  destruct (calculateCost_total st cur slot l (Some targets)) as [c Hc]; [eauto |].
  rewrite Hc. simpl.
  destruct (firstR_total (trySwap targets st l i slot cur c) (people st)) as [r Hfirst].
  { intros p Hp. apply trySwap_total; eauto. }
  rewrite Hfirst. simpl. destruct r as [[st1 l1]|]; eauto.
Qed.

Lemma RunReady_isMove (st st' : Scheduler) (l l' : gmap string Load.t) :
  isMove st l st' l' -> RunReady st l -> RunReady st' l'.
Proof.
  intros Hm [Hrec Hasg].
  destruct (isMove_fields _ _ _ _ Hm) as (Hp & _ & _ & Hdom).
  destruct Hm as (i & slot & from & toPerson & c & load1
                  & Hi & _ & Hto & _ & _ & _ & _ & ->).
  split.
  - intros p Hp'. apply Hdom, Hrec. exact Hp'.
  - intros s Hs. unfold reassign in Hs. simpl in Hs.
    apply elem_of_insert_inv in Hs as [-> | Hs].
    + exists toPerson. split; [reflexivity | exact Hto].
    + exact (Hasg _ Hs).
Qed.

Lemma RunReady_Moves (st st' : Scheduler) (l l' : gmap string Load.t) :
  Moves st l st' l' -> RunReady st l -> RunReady st' l'.
Proof.
  induction 1 as [| st l st1 l1 st2 l2 Hm _ IH]; [done |].
  intros Hr. apply IH. by eapply RunReady_isMove.
Qed.

Lemma optimizePass_total (targets : Targets.t) (n i : nat) (st : Scheduler)
      (l : gmap string Load.t) (improved : bool) :
  RunReady st l ->
  exists st' l' improved',
    optimizePass targets n i st l improved = Ok (st', l', improved')
    /\ RunReady st' l'.
Proof.
  revert i st l improved.
  induction n as [|n IH]; cbn [optimizePass]; intros i st l improved Hr.
  - eauto 6.
  - destruct (schedule st !! i) as [slot|] eqn:Hi; [| eauto 6].
    destruct (optimizeSlot_total targets st l i slot Hr) as [[[st1 l1] b] Hopt].
    { apply list_elem_of_lookup. eauto. }
    rewrite Hopt. simpl. apply IH.
    eapply RunReady_Moves; [| exact Hr]. by eapply optimizeSlot_moves.
Qed.

Lemma optimizeLoop_total (targets : Targets.t) (fuel : nat) (st : Scheduler)
      (l : gmap string Load.t) :
  RunReady st l ->
  exists st' l', optimizeLoop targets fuel st l = Ok (st', l') /\ RunReady st' l'.
Proof.
  revert st l. induction fuel as [|fuel IH]; cbn [optimizeLoop]; intros st l Hr.
  - eauto.
  - destruct (optimizePass_total targets (length (schedule st)) 0 st l false Hr)
      as (st1 & l1 & b & Hpass & Hr1).
    rewrite Hpass. simpl. destruct b; [by apply IH | eauto].
Qed.

(** *** The balancer *)

Lemma tryTransfer_total (shiftType : ShiftType.t) (recipients : list Person.t)
      (st : Scheduler) (l : gmap string Load.t) (fromPerson : Person.t)
      (islot : nat * Slot.t) :
  is_Some (l !! Person.email fromPerson) ->
  (forall r, r ∈ recipients -> is_Some (l !! Person.email r)) ->
  exists r, tryTransfer shiftType recipients st l fromPerson islot = Ok r.
Proof.
  intros Hfrom Hrec. destruct islot as [i slot]. unfold tryTransfer.
  set (candidates := stableSort _ _).
  assert (Hc : forall p, p ∈ candidates -> is_Some (l !! Person.email p)).
  { intros p Hp. apply Hrec. unfold candidates in Hp. apply stableSort_elem in Hp.
    apply list_elem_of_In, filter_In in Hp as [Hp _]. by apply list_elem_of_In. }
  clearbody candidates.
  set (toPerson := match List.find _ candidates with
                   | Some p => Some p
                   | None => head candidates
                   end).
  assert (Hto : forall p, toPerson = Some p -> p ∈ candidates).
  { unfold toPerson. intros p Hp.
    destruct (List.find _ candidates) as [q|] eqn:Hfind.
    - injection Hp as <-. apply find_some in Hfind as [Hin _]. by apply list_elem_of_In.
    - by apply head_elem. }
  clearbody toPerson. destruct toPerson as [p|]; [| eauto].
  destruct (bumpLoad_total l (Person.email fromPerson) shiftType
                           (-1) (- Slot.duration slot) Hfrom) as (l1 & Hl1 & Hdom1).
  rewrite Hl1. simpl.
  destruct (bumpLoad_total l1 (Person.email p) shiftType 1 (Slot.duration slot))
    as (l2 & Hl2 & _).
  { apply Hdom1, Hc, Hto. reflexivity. }
  rewrite Hl2. simpl. eauto.
Qed.

Lemma directTransfer_total (shiftType : ShiftType.t) (donors recipients : list Person.t)
      (st : Scheduler) (l : gmap string Load.t) :
  (forall d, d ∈ donors -> is_Some (l !! Person.email d)) ->
  (forall r, r ∈ recipients -> is_Some (l !! Person.email r)) ->
  exists r, directTransfer shiftType donors recipients st l = Ok r.
Proof.
  intros Hd Hr. unfold directTransfer.
  apply firstR_total. intros d Hin. apply firstR_total. intros islot _.
  apply tryTransfer_total; auto.
Qed.

Lemma tryTriangle_total (shiftType : ShiftType.t) (recipients : list Person.t)
      (st : Scheduler) (l : gmap string Load.t) (donor : Person.t)
      (idonorSlot : nat * Slot.t) (intermediary : Person.t) (iintSlot : nat * Slot.t) :
  is_Some (l !! Person.email donor) ->
  is_Some (l !! Person.email intermediary) ->
  (forall r, r ∈ recipients -> is_Some (l !! Person.email r)) ->
  exists r, tryTriangle shiftType recipients st l donor idonorSlot
                        intermediary iintSlot = Ok r.
Proof.
  intros Hd Hm Hr. destruct idonorSlot as [di donorSlot], iintSlot as [ii intSlot].
  unfold tryTriangle.
  destruct (List.find _ recipients) as [recipient|] eqn:Hfind; [| eauto].
  apply find_some in Hfind as [Hin _]. apply list_elem_of_In in Hin.
  destruct (bumpLoad_total l (Person.email donor) shiftType
                           (-1) (- Slot.duration donorSlot) Hd) as (l1 & Hl1 & Hdom1).
  rewrite Hl1. simpl.
  destruct (bumpLoad_total l1 (Person.email intermediary) shiftType
                           1 (Slot.duration donorSlot)) as (l2 & Hl2 & Hdom2);
    [by apply Hdom1 |].
  rewrite Hl2. simpl.
  destruct (bumpLoad_total l2 (Person.email intermediary) shiftType
                           (-1) (- Slot.duration intSlot)) as (l3 & Hl3 & Hdom3);
    [by apply Hdom2, Hdom1 |].
  rewrite Hl3. simpl.
  destruct (bumpLoad_total l3 (Person.email recipient) shiftType
                           1 (Slot.duration intSlot)) as (l4 & Hl4 & _);
    [by apply Hdom3, Hdom2, Hdom1, Hr |].
  rewrite Hl4. simpl. eauto.
Qed.

Lemma triangleSwap_total (shiftType : ShiftType.t) (minCount maxCount : Z)
      (donors recipients : list Person.t) (st : Scheduler) (l : gmap string Load.t) :
  (forall p, p ∈ people st -> is_Some (l !! Person.email p)) ->
  (forall d, d ∈ donors -> is_Some (l !! Person.email d)) ->
  (forall r, r ∈ recipients -> is_Some (l !! Person.email r)) ->
  exists r, triangleSwap shiftType minCount maxCount donors recipients st l = Ok r.
Proof.
  intros Hrec Hd Hr. unfold triangleSwap.
  apply firstR_total. intros donor Hdonor.
  apply firstR_total. intros idonorSlot _. cbn beta zeta.
  match goal with
  | |- context [filterR ?f ?ps] => destruct (filterR_total f ps) as [ints Hints]
  end.
  { intros p Hp. destruct (Hrec p Hp) as [rec Hp']. rewrite Hp'. simpl. eauto. }
  rewrite Hints. simpl.
  apply firstR_total. intros m Hm.
  destruct (0 <? _)%nat; [eauto |].
  apply firstR_total. intros iintSlot _.
  apply tryTriangle_total; auto.
  apply Hrec. by destruct (filterR_Ok_elem _ _ _ _ Hints Hm).
Qed.

Lemma balanceStep_total (shiftType : ShiftType.t) (st : Scheduler)
      (l : gmap string Load.t) :
  (forall p, p ∈ people st -> is_Some (l !! Person.email p)) ->
  exists r, balanceStep shiftType st l = Ok r.
Proof.
  intros Hrec. unfold balanceStep.
  match goal with
  | |- context [mapR ?f ?ps] => destruct (mapR_total f ps) as [counts Hcounts]
  end.
  { intros p Hp. destruct (Hrec p Hp) as [rec Hp']. rewrite Hp'. simpl. eauto. }
  rewrite Hcounts. simpl.
  assert (Hroster : forall p c, (p, c) ∈ counts -> p ∈ people st).
  { intros p c [j Hj]%list_elem_of_lookup.
    pose proof (mapR_Ok_Forall2 _ _ _ Hcounts) as Hf2.
    destruct (Forall2_lookup_r _ _ _ _ _ Hf2 Hj) as (q & Hqj & Hq).
    apply bind_Ok_inv in Hq as (rec & _ & Hq). injection Hq as <- _.
    apply list_elem_of_lookup. eauto. }
  assert (Hpick : forall c p, p ∈ fst <$> List.filter (fun pc => snd pc =? c) counts ->
                    is_Some (l !! Person.email p)).
  { intros c p ([q c'] & -> & Hin)%list_elem_of_fmap.
    apply list_elem_of_In, filter_In in Hin as [Hin _].
    apply Hrec, (Hroster q c'). by apply list_elem_of_In. }
  clear Hcounts Hroster.
  destruct counts as [|[p0 c0] cs] eqn:E; [eauto |]. rewrite <- E in *.
  destruct (_ <=? 1); [eauto |].
  match goal with
  | |- context [directTransfer ?k ?ds ?rs st l] =>
      destruct (directTransfer_total k ds rs st l) as [r Hr]; [by apply Hpick .. |]
  end.
  rewrite Hr. simpl. destruct r as [moved|]; [eauto |].
  apply triangleSwap_total; [exact Hrec | by apply Hpick ..].
Qed.

Lemma balanceLoop_total (shiftType : ShiftType.t) (fuel : nat) (st : Scheduler)
      (l : gmap string Load.t) :
  RunReady st l ->
  exists st' l', balanceLoop shiftType fuel st l = Ok (st', l') /\ RunReady st' l'.
Proof.
  revert st l. induction fuel as [|fuel IH]; cbn [balanceLoop]; intros st l Hr.
  - eauto.
  - destruct (balanceStep_total shiftType st l) as [r Hstep]; [by destruct Hr |].
    rewrite Hstep. simpl. destruct r as [[st1 l1]|]; [| eauto].
    apply IH. eapply RunReady_Moves; [| exact Hr]. by eapply balanceStep_moves.
Qed.

Lemma balanceTypes_total (shiftTypes : list ShiftType.t) (st : Scheduler)
      (l : gmap string Load.t) :
  RunReady st l ->
  exists st' l', balanceTypes shiftTypes st l = Ok (st', l') /\ RunReady st' l'.
Proof.
  revert st l. induction shiftTypes as [|k ks IH]; cbn [balanceTypes]; intros st l Hr.
  - eauto.
  - destruct (balanceLoop_total k 500 st l Hr) as (st1 & l1 & Hloop & Hr1).
    rewrite Hloop. simpl. by apply IH.
Qed.

(** *** The fill *)

Lemma strictPool_total (st : Scheduler) (l : gmap string Load.t) (target : Target.t)
      (slot : Slot.t) :
  (forall p, p ∈ people st -> is_Some (l !! Person.email p)) ->
  exists pool, strictPool st l target slot = Ok pool.
Proof.
  intros Hrec. unfold strictPool. apply filterR_total. intros p Hp.
  destruct (Hrec p Hp) as [rec Hp']. unfold strictCandidate. rewrite Hp'. simpl.
  repeat match goal with |- context [if ?b then _ else _] => destruct b end; eauto.
Qed.

(** With a load record for everyone the only exception of [assignSlot] is
    its own, raised when nobody is free that day. *)
Lemma assignSlot_throws (targets : Targets.t) (st : Scheduler)
      (l : gmap string Load.t) (slot : Slot.t) (e : Error) :
  (forall p, p ∈ people st -> is_Some (l !! Person.email p)) ->
  assignSlot targets st l slot = Throw e ->
  e = Err (cannotScheduleMessage slot)
  /\ List.filter (freeThatDay st slot) (people st) = [].
Proof.
  intros Hrec. unfold assignSlot.
  set (k := getShiftTypeKey slot). set (target := Targets.get targets k).
  destruct (candidatePool st l target slot) as [[cands slot1]|e'] eqn:Hcp; simpl.
  - intros Hthrow. exfalso.
    destruct (candidatePool_inv _ _ _ _ _ _ Hcp) as [_ Hcands].
    assert (Hne : cands <> []).
    { unfold candidatePool in Hcp.
      destruct (strictPool st l target slot) as [[|q qs]|]; simpl in Hcp;
        [| by injection Hcp as <- _ | discriminate].
      destruct (List.filter _ _); [discriminate | by injection Hcp as <- _]. }
    assert (Hc : forall p, p ∈ cands -> is_Some (l !! Person.email p)).
    { intros p Hp. apply Hrec. by destruct (Hcands p Hp). }
    set (count := fun p : Person.t =>
                    load ← deref (l !! Person.email p); Ok (Load.get load k)) in *.
    destruct (mapR_total count cands) as [counts Hcounts].
    { intros p Hp. destruct (Hc p Hp) as [rec Hp']. unfold count. rewrite Hp'.
      simpl. eauto. }
    rewrite Hcounts in Hthrow. simpl in Hthrow.
    pose proof (mapR_Ok_Forall2 _ _ _ Hcounts) as Hf2.
    set (m := match counts with c :: cs => minList c cs | [] => 0 end) in *.
    assert (Hmin : exists p, p ∈ cands /\ count p = Ok m).
    { destruct counts as [|c cs].
      - apply Forall2_nil_inv_r in Hf2. congruence.
      - pose proof (minList_elem c cs) as Hm. fold m in Hm.
        apply list_elem_of_lookup in Hm as [i Hi].
        destruct (Forall2_lookup_r _ _ _ _ _ Hf2 Hi) as (p & Hp & Hpc).
        exists p. split; [| exact Hpc]. apply list_elem_of_lookup. eauto. }
    set (isMin := fun p : Person.t =>
                    load ← deref (l !! Person.email p);
                    Ok (Load.get load k =? m)) in *.
    destruct (filterR_total isMin cands) as [fc Hfc].
    { intros p Hp. destruct (Hc p Hp) as [rec Hp']. unfold isMin. rewrite Hp'.
      simpl. eauto. }
    rewrite Hfc in Hthrow. simpl in Hthrow.
    assert (Hfcne : fc <> []).
    { destruct Hmin as (p & Hp & Hpc).
      assert (Hin : p ∈ fc).
      { eapply filterR_Ok_keep; [exact Hfc | exact Hp |].
        unfold count in Hpc. apply bind_Ok_inv in Hpc as (rec & Hrec' & Hpc).
        injection Hpc as Hpc. unfold isMin. rewrite Hrec'. simpl.
        by rewrite Hpc, Z.eqb_refl. }
      intros ->. inversion Hin. }
    destruct (rankCandidates_head st slot1 fc Hfcne) as (best & Hhead & Hbest).
    rewrite Hhead in Hthrow. simpl in Hthrow.
    destruct (filterR_Ok_elem _ _ _ _ Hfc Hbest) as [Hbc _].
    destruct (bumpLoad_total l (Person.email (rPerson best)) k 1 (Slot.duration slot1))
      as (l1 & Hl1 & _); [by apply Hc |].
    rewrite Hl1 in Hthrow. discriminate.
  - intros [= <-]. unfold candidatePool in Hcp.
    destruct (strictPool_total st l target slot Hrec) as [pool Hpool].
    rewrite Hpool in Hcp. simpl in Hcp.
    destruct pool; [| discriminate].
    destruct (List.filter _ _); [by injection Hcp as <- | discriminate].
Qed.

Lemma assignSlot_ready (targets : Targets.t) (st st' : Scheduler)
      (l l' : gmap string Load.t) (slot : Slot.t) :
  assignSlot targets st l slot = Ok (st', l') -> RunReady st l -> RunReady st' l'.
Proof.
  intros Ha [Hrec Hasg].
  destruct (assignSlot_step _ _ _ _ _ _ Ha) as (Hp & _ & _ & Hdom & _).
  destruct (assignSlot_inv _ _ _ _ _ _ Ha) as (best & slot1 & _ & Hbest & _ & -> & _).
  split.
  - intros p Hin. apply Hdom, Hrec. exact Hin.
  - intros s Hs. simpl in Hs. apply elem_of_app in Hs as [Hs | Hs].
    + exact (Hasg _ Hs).
    + apply list_elem_of_singleton in Hs as ->.
      exists best. split; [reflexivity | exact Hbest].
Qed.

Lemma assignAll_outcome (targets : Targets.t) (slots : list Slot.t)
      (st st' : Scheduler) (l l' : gmap string Load.t) (err : option Error) :
  RunReady st l ->
  assignAll targets slots st l = (st', l', err) ->
  match err with
  | None => RunReady st' l' /\ preferences st' = preferences st
            /\ people st' = people st
  | Some e => exists slot, slot ∈ slots /\ e = Err (cannotScheduleMessage slot)
  end.
Proof.
  revert st l.
  induction slots as [|slot rest IH]; cbn [assignAll]; intros st l Hr Ha.
  - by injection Ha as <- <- <-.
  - destruct (assignSlot targets st l slot) as [[st1 l1]|e] eqn:Hs.
    + pose proof (assignSlot_ready _ _ _ _ _ _ Hs Hr) as Hr1.
      destruct (assignSlot_step _ _ _ _ _ _ Hs) as (Hp & Hq & _).
      specialize (IH _ _ Hr1 Ha). destruct err as [e|].
      * destruct IH as (s & Hin & ->). exists s. split; [by right | done].
      * destruct IH as (Hr' & Hq' & Hp'). split_and!; [done | congruence ..].
    + injection Ha as <- <- <-. exists slot. split; [left |].
      by destruct (assignSlot_throws _ _ _ _ _ (proj1 Hr) Hs).
Qed.

(** *** The report *)

Lemma generateFairnessReport_total `{HostEnv} (st : Scheduler)
      (l : gmap string Load.t) :
  (forall p, p ∈ people st -> is_Some (l !! Person.email p)) ->
  (forall p, p ∈ people st -> is_Some (preferences st !! Person.email p)) ->
  exists report, generateFairnessReport st l = Ok report.
Proof.
  intros Hrec Hprefs. unfold generateFairnessReport.
  destruct (mapR_total (personReport st l) (people st)) as [rows Hrows].
  { intros p Hp. unfold personReport.
    destruct (Hprefs p Hp) as [prefs Hq]. rewrite Hq.
    match goal with
    | |- context [mapR ?f ?ss] => destruct (mapR_total f ss) as [kinds Hkinds]
    end.
    { intros s _. simpl. eauto. }
    rewrite Hkinds. simpl.
    destruct (Hrec p Hp) as [rec Hp']. rewrite Hp'. simpl. eauto. }
  rewrite Hrows. simpl. eauto.
Qed.

(** *** The run as a whole *)

Lemma Visited_preferences `{HostEnv} (st0 st : Scheduler) (l : gmap string Load.t) :
  Visited st0 st l -> preferences st = preferences st0.
Proof.
  induction 1 as [k st l Hfill
                 | st l i slot st' l' swapped _ IH Hi Hopt
                 | st l shiftType st' l' _ IH Hbal].
  - by destruct (assignAll_steps _ _ _ _ _ _ Hfill) as (_ & Hq & _).
  - pose proof (optimizeSlot_moves _ _ _ _ _ _ _ _ Hi Hopt) as Hm.
    destruct (Moves_fields _ _ _ _ Hm) as (_ & Hq & _). congruence.
  - pose proof (balanceStep_moves _ _ _ _ _ Hbal) as Hm.
    destruct (Moves_fields _ _ _ _ Hm) as (_ & Hq & _). congruence.
Qed.

(** X10.  The exceptions of [generateSchedule], for a scheduler whose roster was
    built with [addPerson] (so that everyone has a preference entry, which
    the report reads): too few people, no date range, or a slot for which
    everyone is already on duty that day. *)
Theorem generateSchedule_exceptions `{HostEnv} (st st' : Scheduler) (e : Error) :
  (forall p, p ∈ people st -> is_Some (preferences st !! Person.email p)) ->
  generateSchedule st = (Throw e, st') ->
  e = Err (capacityMessage st)
  \/ e = Err "Date range not set"
  \/ exists slot, slot ∈ sortedSlots st /\ e = Err (cannotScheduleMessage slot).
Proof.
  intros Hprefs. unfold generateSchedule.
  destruct (_ <? _); [intros [= <- _]; by left |].
  destruct (dateRange st) as [range|]; [| intros [= <- _]; right; by left].
  unfold runPhases. fold (sortedSlots st).
  assert (Hr0 : RunReady (withSchedule st []) (initializeLoad st)).
  { split.
    - intros p Hp. by apply initializeLoad_lookup.
    - intros s Hs. inversion Hs. }
  destruct (assignAll _ _ _ _) as [[st1 l1] err] eqn:Hfill.
  pose proof (assignAll_outcome _ _ _ _ _ _ _ Hr0 Hfill) as Hout.
  destruct err as [e1|].
  { intros [= <- _]. right. right. exact Hout. }
  destruct Hout as (Hr1 & Hq1 & Hp1). simpl in Hq1, Hp1.
  unfold optimizeWithSwaps.
  destruct (optimizeLoop_total (calculateTargetShifts st) 100 st1 l1 Hr1)
    as (st2 & l2 & Hopt & Hr2).
  rewrite Hopt.
  pose proof (fill_visited _ _ _ _ Hfill) as Hv1.
  pose proof (optimizeLoop_visited _ _ _ _ _ _ Hv1 Hopt) as Hv2.
  unfold balanceShifts.
  destruct (balanceTypes_total ShiftType.all st2 l2 Hr2) as (st3 & l3 & Hbal & Hr3).
  rewrite Hbal.
  pose proof (balanceTypes_visited _ _ _ _ _ _ Hv2 Hbal) as Hv3.
  destruct (Visited_inv _ _ _ Hv3) as (Hp3 & _).
  destruct (generateFairnessReport_total st3 l3) as [report Hrep].
  - by destruct Hr3.
  - intros p Hp. rewrite (Visited_preferences _ _ _ Hv3). apply Hprefs. by rewrite <- Hp3.
  - rewrite Hrep. discriminate.
Qed.

(** * Further properties of the code *)

(** ** The roster and the configuration *)

Lemma withSchedule_twice (st : Scheduler) (a b : list Slot.t) :
  withSchedule (withSchedule st a) b = withSchedule st b.
Proof. reflexivity. Qed.

Lemma withSchedule_same (st : Scheduler) : withSchedule st (schedule st) = st.
Proof. by destruct st. Qed.

Lemma assignAll_frame (targets : Targets.t) (slots : list Slot.t) (st st' : Scheduler)
      (l l' : gmap string Load.t) (err : option Error) :
  assignAll targets slots st l = (st', l', err) ->
  st' = withSchedule st (schedule st').
Proof.
  revert st l. induction slots as [|slot rest IH]; cbn [assignAll]; intros st l Ha.
  - injection Ha as <- _ _. by rewrite withSchedule_same.
  - destruct (assignSlot targets st l slot) as [[st1 l1]|e] eqn:Hs.
    + destruct (assignSlot_inv _ _ _ _ _ _ Hs) as (best & slot1 & _ & _ & _ & Hst1 & _).
      rewrite (IH _ _ Ha), Hst1. reflexivity.
    + injection Ha as <- _ _. by rewrite withSchedule_same.
Qed.

Lemma Moves_frame (st st' : Scheduler) (l l' : gmap string Load.t) :
  Moves st l st' l' -> st' = withSchedule st (schedule st').
Proof.
  induction 1 as [st l | st l st1 l1 st2 l2 Hm _ IH].
  - by rewrite withSchedule_same.
  - destruct Hm as (i & slot & from & toPerson & c & load1 & _ & _ & _ & _ & _ & _ & _ & ->).
    rewrite IH. reflexivity.
Qed.

Lemma Visited_frame `{HostEnv} (st0 st : Scheduler) (l : gmap string Load.t) :
  Visited st0 st l -> st = withSchedule st0 (schedule st).
Proof.
  induction 1 as [k st l Hfill
                 | st l i slot st' l' swapped _ IH Hi Hopt
                 | st l shiftType st' l' _ IH Hbal].
  - by rewrite (assignAll_frame _ _ _ _ _ _ _ Hfill).
  - rewrite (Moves_frame _ _ _ _ (optimizeSlot_moves _ _ _ _ _ _ _ _ Hi Hopt)), IH.
    reflexivity.
  - rewrite (Moves_frame _ _ _ _ (balanceStep_moves _ _ _ _ _ Hbal)), IH. reflexivity.
Qed.

Lemma generateSchedule_frame_eq `{HostEnv} (st st' : Scheduler) (r : Result Output) :
  generateSchedule st = (r, st') -> st' = withSchedule st (schedule st').
Proof.
  unfold generateSchedule.
  destruct (_ <? _); [intros [= _ <-]; by rewrite withSchedule_same |].
  destruct (dateRange st) as [range|];
    [| intros [= _ <-]; by rewrite withSchedule_same].
  unfold runPhases. fold (sortedSlots st).
  destruct (assignAll _ _ _ _) as [[st1 l1] err] eqn:Hfill.
  pose proof (fill_visited _ _ _ _ Hfill) as Hv1.
  destruct err as [e|]; [intros [= _ <-]; by apply (Visited_frame st _ l1) |].
  destruct (optimizeWithSwaps _ st1 l1) as [[st2 l2]|e] eqn:Hopt;
    [| intros [= _ <-]; by apply (Visited_frame st _ l1)].
  pose proof (optimizeLoop_visited _ _ _ _ _ _ Hv1 Hopt) as Hv2.
  destruct (balanceShifts st2 l2) as [[st3 l3]|e] eqn:Hbal;
    [| intros [= _ <-]; by apply (Visited_frame st _ l2)].
  pose proof (balanceTypes_visited _ _ _ _ _ _ Hv2 Hbal) as Hv3.
  destruct (generateFairnessReport st3 l3);
    intros [= _ <-]; by apply (Visited_frame st _ l3).
Qed.

(** X1.  Whatever its outcome, [generateSchedule] writes to [this.schedule]
    only: the roster, the preferences, the date range and the two shift
    counts are the ones it found. *)
Theorem generateSchedule_frame `{HostEnv} (st st' : Scheduler) (r : Result Output) :
  generateSchedule st = (r, st') ->
  people st' = people st /\ preferences st' = preferences st
  /\ dateRange st' = dateRange st
  /\ primaryCount st' = primaryCount st /\ secondaryCount st' = secondaryCount st.
Proof.
  intros Hgen. rewrite (generateSchedule_frame_eq _ _ _ Hgen). by split_and!.
Qed.

Lemma generateSchedule_frame_witness :
  exists r st',
    @generateSchedule sampleHost shortRoster = (r, st')
    /\ people st' = people shortRoster /\ preferences st' = preferences shortRoster
    /\ dateRange st' = dateRange shortRoster
    /\ primaryCount st' = primaryCount shortRoster
    /\ secondaryCount st' = secondaryCount shortRoster.
Proof.
  eexists _, _.
  match goal with |- ?A /\ _ => assert (Hrun : A) by (vm_compute; reflexivity) end.
  split; [exact Hrun |].
  exact (@generateSchedule_frame sampleHost _ _ _ Hrun).
Defined.

Lemma existsb_email (email : string) (ps : list Person.t) :
  existsb (fun p => String.eqb (Person.email p) email) ps = true
  <-> email ∈ Person.email <$> ps.
Proof.
  rewrite existsb_exists, list_elem_of_fmap. split.
  - intros (p & Hp & Heq). apply String.eqb_eq in Heq. exists p.
    split; [done | by apply list_elem_of_In].
  - intros (p & -> & Hp). exists p. split; [by apply list_elem_of_In |].
    apply String.eqb_refl.
Qed.

Lemma filter_other_emails (email : string) (ps : list Person.t) :
  email ∉ Person.email <$> ps ->
  List.filter (fun p => negb (String.eqb (Person.email p) email)) ps = ps.
Proof.
  induction ps as [|p ps IH]; simpl; intros Hnot; [reflexivity |].
  apply not_elem_of_cons in Hnot as [Hne Hnot].
  destruct (String.eqb_spec (Person.email p) email) as [Heq | _]; [congruence |].
  simpl. by rewrite IH.
Qed.

Lemma elem_of_filter_emails (email e : string) (ps : list Person.t) :
  e ∈ Person.email <$> List.filter (fun p => negb (String.eqb (Person.email p) email)) ps
  <-> e <> email /\ e ∈ Person.email <$> ps.
Proof.
  rewrite !list_elem_of_fmap. split.
  - intros (p & -> & Hp). apply list_elem_of_In, filter_In in Hp as [Hp Hne].
    apply negb_true_iff, String.eqb_neq in Hne.
    split; [done |]. exists p. split; [done | by apply list_elem_of_In].
  - intros (Hne & p & -> & Hp). exists p. split; [done |].
    apply list_elem_of_In, filter_In. split; [by apply list_elem_of_In |].
    by apply negb_true_iff, String.eqb_neq.
Qed.

Lemma NoDup_filter_emails (f : Person.t -> bool) (ps : list Person.t) :
  NoDup (Person.email <$> ps) -> NoDup (Person.email <$> List.filter f ps).
Proof.
  induction ps as [|p ps IH]; simpl; intros Hnd; [constructor |].
  apply NoDup_cons in Hnd as [Hnot Hnd]. destruct (f p); [| by apply IH].
  simpl. apply NoDup_cons. split; [| by apply IH].
  intros (q & Heq & Hq)%list_elem_of_fmap. apply Hnot.
  apply list_elem_of_fmap. exists q. split; [done |].
  apply list_elem_of_In, filter_In in Hq as [Hq _]. by apply list_elem_of_In.
Qed.

Lemma Built_RosterOk `{HostEnv} (st : Scheduler) : Built st -> RosterOk st.
Proof.
  induction 1 as [| p s st st' _ IH Hop
                  | name email rid st st' _ IH Hop
                  | email st st' _ IH Hop
                  | a b st st' _ IH Hop
                  | email pref notPref st st' _ IH Hop
                  | st r st' _ IH Hop].
  - split.
    + simpl. constructor.
    + intros e. simpl. rewrite lookup_empty. split; [by intros [? ?] | inversion 1].
  - injection Hop as <-. exact IH.
  - unfold addPerson in Hop.
    destruct (existsb _ _) eqn:Hex; [discriminate |]. injection Hop as <-.
    assert (Hfresh : email ∉ Person.email <$> people st).
    { intros Hin. apply existsb_email in Hin. congruence. }
    destruct IH as [Hnd Hdom]. split; simpl.
    + rewrite fmap_app. simpl. apply NoDup_app. split; [done |].
      split; [| apply NoDup_singleton].
      intros e He ->%list_elem_of_singleton. done.
    + intros e. rewrite fmap_app, elem_of_app. simpl. rewrite list_elem_of_singleton.
      destruct (decide (email = e)) as [<- | Hne].
      * rewrite lookup_insert_eq. split; [by right | eauto].
      * rewrite lookup_insert_ne by done. rewrite Hdom. split; [by left |].
        intros [He | He]; [done | congruence].
  - injection Hop as <-. destruct IH as [Hnd Hdom]. split; simpl.
    + by apply NoDup_filter_emails.
    + intros e. rewrite elem_of_filter_emails.
      destruct (decide (email = e)) as [<- | Hne].
      * rewrite lookup_delete_eq. split; [by intros [? ?] | by intros [? _]].
      * rewrite lookup_delete_ne by done. rewrite Hdom. split; [done | by intros [_ ?]].
  - injection Hop as <-. exact IH.
  - unfold setPreferences in Hop.
    destruct (preferences st !! email) as [old|] eqn:Hold; [| discriminate].
    injection Hop as <-. destruct IH as [Hnd Hdom]. split; simpl.
    + exact Hnd.
    + intros e. destruct (decide (email = e)) as [<- | Hne].
      * rewrite lookup_insert_eq. rewrite <- Hdom, Hold. split; eauto.
      * rewrite lookup_insert_ne by done. apply Hdom.
  - rewrite (generateSchedule_frame_eq _ _ _ Hop). exact IH.
Qed.

(** X2.  Every scheduler built with the methods of the class has pairwise
    different addresses in its roster, a preference entry for exactly the
    addresses of the roster, and both shift counts between 0 and 10. *)
Theorem Built_invariant `{HostEnv} (st : Scheduler) :
  Built st -> RosterOk st /\ shiftCountsClamped st.
Proof.
  intros Hb. split; [by apply Built_RosterOk |]. unfold shiftCountsClamped.
  induction Hb as [| p s st st' _ IH Hop
                   | name email rid st st' _ IH Hop
                   | email st st' _ IH Hop
                   | a b st st' _ IH Hop
                   | email pref notPref st st' _ IH Hop
                   | st r st' _ IH Hop].
  - simpl. lia.
  - injection Hop as <-. simpl. lia.
  - unfold addPerson in Hop. destruct (existsb _ _); [discriminate |].
    by injection Hop as <-.
  - by injection Hop as <-.
  - by injection Hop as <-.
  - unfold setPreferences in Hop. destruct (preferences st !! email); [| discriminate].
    by injection Hop as <-.
  - by rewrite (generateSchedule_frame_eq _ _ _ Hop).
Qed.

Lemma Built_invariant_witness :
  exists st,
    (st0 ← setShiftCounts 50 (-3) newScheduler; addPerson "Ann" "ann@x.org" "id_1" st0)
    = Ok st
    /\ RosterOk st /\ shiftCountsClamped st.
Proof.
  eexists. split; [vm_compute; reflexivity |].
  apply (@Built_invariant sampleHost).
  refine (built_addPerson "Ann" "ann@x.org" "id_1" _ _
            (built_setShiftCounts 50 (-3) _ _ built_new eq_refl) _).
  vm_compute. reflexivity.
Defined.

(** X3.  On such a scheduler [addPerson] and [setPreferences] never disagree
    about who is known: for any address exactly one of the two calls
    goes through, [addPerson] for a new address and [setPreferences] for
    one of the roster. *)
Theorem addPerson_or_setPreferences `{HostEnv} (st : Scheduler)
        (name email rid : string) (preferred notPreferred : list DateInput) :
  Built st ->
  (exists st1, addPerson name email rid st = Ok st1
               /\ setPreferences email preferred notPreferred st
                  = Throw (Err ("Person with email " +:+ email +:+ " not found")))
  \/ (exists st1, setPreferences email preferred notPreferred st = Ok st1
                  /\ addPerson name email rid st
                     = Throw (Err ("Person with email " +:+ email +:+ " already exists"))).
Proof.
  intros [_ Hdom]%Built_RosterOk. unfold addPerson, setPreferences.
  destruct (existsb _ _) eqn:Hex.
  - right. apply existsb_email, Hdom in Hex as [old Hold]. rewrite Hold. eauto.
  - left. destruct (preferences st !! email) as [old|] eqn:Hold; [| eauto].
    assert (Hin : email ∈ Person.email <$> people st) by (apply Hdom; eauto).
    apply existsb_email in Hin. congruence.
Qed.

Lemma addPerson_or_setPreferences_witness :
  (exists st1, addPerson "Ann" "ann@x.org" "id_1" newScheduler = Ok st1
               /\ @setPreferences sampleHost "ann@x.org" [] [] newScheduler
                  = Throw (Err ("Person with email " +:+ "ann@x.org" +:+ " not found")))
  \/ (exists st1, @setPreferences sampleHost "ann@x.org" [] [] newScheduler = Ok st1
                  /\ addPerson "Ann" "ann@x.org" "id_1" newScheduler
                     = Throw (Err ("Person with email " +:+ "ann@x.org" +:+ " already exists"))).
Proof.
  apply (@addPerson_or_setPreferences sampleHost). apply built_new.
Defined.

(** X4.  [removePerson] undoes [addPerson]: adding a person under a new
    address and removing that address again gives back the scheduler one
    started from, roster order and preference table included. *)
Theorem removePerson_addPerson (st : Scheduler) (name email rid : string) :
  RosterOk st ->
  email ∉ Person.email <$> people st ->
  exists st1, addPerson name email rid st = Ok st1 /\ removePerson email st1 = Ok st.
Proof.
  intros [_ Hdom] Hfresh. unfold addPerson.
  destruct (existsb _ _) eqn:Hex; [apply existsb_email in Hex; done |].
  eexists. split; [reflexivity |]. unfold removePerson. simpl. f_equal.
  destruct st as [ps range prefs sch pc sc]. simpl in *. f_equal.
  - rewrite List.filter_app. simpl. rewrite String.eqb_refl. simpl.
    rewrite app_nil_r. by apply filter_other_emails.
  - rewrite delete_insert_eq. apply delete_id.
    destruct (prefs !! email) as [old|] eqn:Hold; [| done].
    exfalso. apply Hfresh, Hdom. eauto.
Qed.

Lemma bothReluctant_RosterOk : RosterOk bothReluctant.
Proof.
  split.
  - apply (bool_decide_unpack _). vm_compute. exact I.
  - intros e. rewrite <- elem_of_dom.
    assert (dom (preferences bothReluctant)
            = list_to_set (C := gset string) (Person.email <$> people bothReluctant)) as ->
      by (vm_compute; reflexivity).
    by rewrite elem_of_list_to_set.
Defined.

Lemma removePerson_addPerson_witness :
  exists st1, addPerson "Cy" "cy@x.org" "id_3" bothReluctant = Ok st1
              /\ removePerson "cy@x.org" st1 = Ok bothReluctant.
Proof.
  apply removePerson_addPerson; [apply bothReluctant_RosterOk |].
  apply (bool_decide_unpack _). vm_compute. exact I.
Defined.

(** X5.  What [setPreferences] does to [canAssign]: for the person addressed, a
    slot is refused exactly when its day string is the normal form of one
    of the dates given as not preferred (the earlier lists are gone and the
    preferred dates play no part); for everyone else nothing changes. *)
Theorem setPreferences_canAssign `{HostEnv} (st st' : Scheduler) (email : string)
        (preferred notPreferred : list DateInput) :
  setPreferences email preferred notPreferred st = Ok st' ->
  (forall p slot, Person.email p = email ->
     (canAssign st' p slot = false
      <-> exists d, d ∈ notPreferred /\ normalizeDate d = Slot.dateStr slot))
  /\ (forall p slot, Person.email p <> email ->
        canAssign st' p slot = canAssign st p slot).
Proof.
  unfold setPreferences. destruct (preferences st !! email) as [old|]; [| discriminate].
  intros [= <-]. split.
  - intros p slot Heq. unfold canAssign. simpl. rewrite Heq, lookup_insert_eq. simpl.
    rewrite negb_false_iff, bool_decide_eq_true, elem_of_list_to_set, list_elem_of_fmap.
    split.
    + intros (d & -> & Hd). eauto.
    + intros (d & Hd & <-). eauto.
  - intros p slot Hne. unfold canAssign. simpl. by rewrite lookup_insert_ne.
Qed.

Lemma setPreferences_canAssign_witness :
  exists st',
    @setPreferences sampleHost "ann@x.org" [] [InStr "2025-01-07"] bothReluctant = Ok st'
    /\ canAssign st' ann mondaySlot = true
    /\ canAssign st' bo mondaySlot = false.
Proof.
  eexists.
  match goal with |- ?A /\ _ => assert (Hrun : A) by (vm_compute; reflexivity) end.
  split; [exact Hrun |].
  destruct (@setPreferences_canAssign sampleHost _ _ _ _ _ Hrun) as [_ Hother].
  split; [vm_compute; reflexivity |].
  rewrite (Hother bo mondaySlot) by (vm_compute; congruence).
  vm_compute. reflexivity.
Defined.

(** ** Dates and slots of a range *)

Lemma generateDates_loop_seqZ (fuel : nat) (c e : Z) :
  fuel = Z.to_nat (e - c + 1) -> - JS.maxDay <= c -> e <= JS.maxDay ->
  generateDates_loop fuel (JS.Day c) (JS.Day e) = JS.Day <$> seqZ c (e - c + 1).
Proof.
  revert c. induction fuel as [|fuel IH]; intros c Hfuel Hlo Hhi;
    cbn [generateDates_loop].
  - rewrite seqZ_nil by lia. reflexivity.
  - assert (Hle : c <= e) by lia.
    cbn [JS.leDate]. destruct (Z.leb_spec c e) as [_ | ?]; [| lia].
    rewrite seqZ_cons by lia. cbn [fmap list_fmap]. f_equal.
    replace (Z.pred (e - c + 1)) with (e - Z.succ c + 1) by lia.
    destruct (decide (c = e)) as [-> | Hne].
    + assert (fuel = 0%nat) as -> by lia. rewrite seqZ_nil by lia. reflexivity.
    + cbn [JS.addDays]. unfold JS.clip.
      destruct (Z.leb_spec (- JS.maxDay) (c + 1)); [| lia].
      destruct (Z.leb_spec (c + 1) JS.maxDay); [| lia]. cbn [andb].
      replace (c + 1) with (Z.succ c) by lia. apply IH; lia.
Qed.

Lemma generateDates_seqZ `{HostEnv} (st : Scheduler) (s e : Z) :
  dateRange st = Some (JS.Day s, JS.Day e) ->
  - JS.maxDay <= s -> e <= JS.maxDay ->
  generateDates st = JS.Day <$> seqZ s (e - s + 1).
Proof.
  intros Hrange Hlo Hhi. unfold generateDates. rewrite Hrange.
  by rewrite generateDates_loop_seqZ.
Qed.

Lemma newDate3_Day (y m d : option Z) (n : Z) :
  JS.newDate3 y m d = JS.Day n ->
  - JS.maxDay <= n <= JS.maxDay
  /\ exists y' m' d',
       y = Some y' /\ m = Some m' /\ d = Some d'
       /\ JS.MakeDay (if (0 <=? y') && (y' <=? 99) then 1900 + y' else y') m' d' = n.
Proof.
  destruct y as [y'|], m as [m'|], d as [d'|]; try discriminate. simpl.
  unfold JS.clip.
  destruct (Z.leb_spec (- JS.maxDay) (JS.MakeDay (if (0 <=? y') && (y' <=? 99)
                                                   then 1900 + y' else y') m' d'));
    [| discriminate].
  destruct (Z.leb_spec (JS.MakeDay (if (0 <=? y') && (y' <=? 99)
                                    then 1900 + y' else y') m' d') JS.maxDay);
    [| discriminate].
  simpl. intros [= <-]. split; [lia |]. by eexists _, _, _.
Qed.

Lemma MakeDay_next (n : Z) :
  JS.MakeDay (JS.yearOf n) (JS.monthOf n) (JS.dateOf n + 1) = n + 1.
Proof.
  rewrite <- (MakeDay_fields n) at 4. unfold JS.MakeDay. lia.
Qed.

Section Zone.
Context `{Instant.Zone}.

Lemma Day_MakeDate (n : Z) : Instant.Day (Instant.MakeDate n 0) = n.
Proof.
  unfold Instant.Day, Instant.MakeDate. rewrite Z.add_0_r.
  apply Z.div_mul. unfold Instant.msPerDay. lia.
Qed.

Lemma TimeWithinDay_MakeDate (n : Z) :
  Instant.TimeWithinDay (Instant.MakeDate n 0) = 0.
Proof.
  unfold Instant.TimeWithinDay, Instant.MakeDate. rewrite Z.add_0_r.
  apply Z_mod_mult.
Qed.

Lemma TimeClip_midnight (n : Z) :
  Instant.midnightExists n ->
  Instant.TimeClip (Instant.UTC (Instant.MakeDate n 0))
  = Some (Instant.UTC (Instant.MakeDate n 0)).
Proof.
  intros [_ Hr]. unfold Instant.TimeClip.
  destruct (Z.leb_spec (- Instant.maxTime) (Instant.UTC (Instant.MakeDate n 0))); [| lia].
  destruct (Z.leb_spec (Instant.UTC (Instant.MakeDate n 0)) Instant.maxTime); [| lia].
  reflexivity.
Qed.

Lemma setHours0_newDate3 (y m d : option Z) (n : Z) :
  JS.newDate3 y m d = JS.Day n ->
  Instant.midnightExists n ->
  Instant.setHours0 (Instant.newDate3 y m d) = Some (Instant.UTC (Instant.MakeDate n 0))
  /\ Instant.localDay (Instant.newDate3 y m d) = JS.newDate3 y m d.
Proof.
  intros Hn Hm. pose proof Hn as Hn'.
  apply newDate3_Day in Hn' as (_ & y' & m' & d' & -> & -> & -> & Hmk).
  rewrite Hn. cbn [Instant.newDate3]. rewrite Hmk, TimeClip_midnight by done.
  cbn [Instant.setHours0 Instant.localDay].
  rewrite (proj1 Hm), Day_MakeDate, TimeClip_midnight by done. done.
Qed.

Lemma setDate_next (n : Z) :
  Instant.midnightExists n ->
  Instant.setDate (Some (Instant.UTC (Instant.MakeDate n 0)))
    ((fun d => d + 1) <$> Instant.getDate (Some (Instant.UTC (Instant.MakeDate n 0))))
  = Instant.TimeClip (Instant.UTC (Instant.MakeDate (n + 1) 0)).
Proof.
  intros [Hl _]. cbn [Instant.getDate Instant.setDate fmap option_fmap option_map].
  by rewrite Hl, Day_MakeDate, TimeWithinDay_MakeDate, MakeDay_next.
Qed.

Lemma UTC_midnights_lt (s e a b : Z) :
  (forall n, s <= n <= e ->
     Instant.UTC (Instant.MakeDate n 0) < Instant.UTC (Instant.MakeDate (n + 1) 0)) ->
  s <= a -> a < b -> b <= e + 1 ->
  Instant.UTC (Instant.MakeDate a 0) < Instant.UTC (Instant.MakeDate b 0).
Proof.
  intros Hstep Ha Hab Hb.
  assert (Hk : forall k : nat,
            a + Z.of_nat k + 1 <= e + 1 ->
            Instant.UTC (Instant.MakeDate a 0)
            < Instant.UTC (Instant.MakeDate (a + Z.of_nat k + 1) 0)).
  { induction k as [|k IH]; intros Hle.
    - replace (a + Z.of_nat 0 + 1) with (a + 1) by lia. apply Hstep. lia.
    - replace (a + Z.of_nat (S k) + 1) with (a + Z.of_nat k + 1 + 1) by lia.
      etransitivity; [apply IH; lia | apply Hstep; lia]. }
  replace b with (a + Z.of_nat (Z.to_nat (b - a - 1)) + 1) by lia.
  apply Hk. lia.
Qed.

Lemma generateDates_loop_midnights (s e : Z) :
  s <= e ->
  (forall n, s <= n <= e -> Instant.midnightExists n) ->
  (forall n, s <= n <= e ->
     Instant.UTC (Instant.MakeDate n 0) < Instant.UTC (Instant.MakeDate (n + 1) 0)) ->
  forall (k : nat) (fuel : nat) (c : Z),
    s <= c -> c + Z.of_nat k = e + 1 -> (k < fuel)%nat ->
    Instant.generateDates_loop fuel (Some (Instant.UTC (Instant.MakeDate c 0)))
                               (Some (Instant.UTC (Instant.MakeDate e 0)))
    = (fun n => Some (Instant.UTC (Instant.MakeDate n 0))) <$> seqZ c (Z.of_nat k).
Proof.
  intros Hse Hex Hstep. induction k as [|k IH]; intros fuel c Hc Hk Hfuel.
  - destruct fuel as [|fuel]; [lia |]. cbn [Instant.generateDates_loop Instant.leDate].
    assert (Instant.UTC (Instant.MakeDate e 0) < Instant.UTC (Instant.MakeDate c 0)).
    { replace c with (e + 1) by lia. apply Hstep. lia. }
    destruct (Z.leb_spec (Instant.UTC (Instant.MakeDate c 0))
                         (Instant.UTC (Instant.MakeDate e 0))); [lia |].
    reflexivity.
  - destruct fuel as [|fuel]; [lia |]. cbn [Instant.generateDates_loop Instant.leDate].
    assert (Instant.UTC (Instant.MakeDate c 0) <= Instant.UTC (Instant.MakeDate e 0)).
    { destruct (decide (c = e)) as [-> | Hne]; [lia |].
      apply Z.lt_le_incl, (UTC_midnights_lt s e); [exact Hstep | lia | lia | lia]. }
    destruct (Z.leb_spec (Instant.UTC (Instant.MakeDate c 0))
                         (Instant.UTC (Instant.MakeDate e 0))); [| lia].
    rewrite seqZ_cons by lia. cbn [fmap list_fmap]. f_equal.
    rewrite setDate_next by (apply Hex; lia).
    replace (Z.pred (Z.of_nat (S k))) with (Z.of_nat k) by lia.
    replace (Z.succ c) with (c + 1) by lia.
    destruct (decide (k = 0%nat)) as [-> | Hk0].
    + rewrite seqZ_nil by lia. cbn [list_fmap].
      assert (Instant.UTC (Instant.MakeDate e 0)
              < Instant.UTC (Instant.MakeDate (c + 1) 0)).
      { replace c with e by lia. apply Hstep. lia. }
      destruct fuel as [|fuel]; [reflexivity |].
      cbn [Instant.generateDates_loop]. unfold Instant.TimeClip.
      destruct (_ && _); cbn [Instant.leDate]; [| reflexivity].
      destruct (Z.leb_spec (Instant.UTC (Instant.MakeDate (c + 1) 0))
                           (Instant.UTC (Instant.MakeDate e 0))); [lia | reflexivity].
    + rewrite TimeClip_midnight by (apply Hex; lia).
      apply IH; lia.
Qed.

End Zone.

(** X6.  On a host where the local midnights of the days from the start
    of the range to its end are on the clock and follow one another,
    [generateDates], run on the dates [setDateRange] stores for a start
    that is not after the end, leaves its loop by the test and lists the
    local midnight of every day from the start to the end, both included
    and in order; their calendar days are the list of the day-number model.
    On other hosts it need not: see [generateDates_skipped_midnight]. *)
Theorem generateDates_range `{HostEnv} `{Instant.Zone} (st : Scheduler)
        (y1 m1 d1 y2 m2 d2 : option Z) (s e : Z) (fuel : nat) :
  JS.newDate3 y1 m1 d1 = JS.Day s ->
  JS.newDate3 y2 m2 d2 = JS.Day e ->
  dateRange st = Some (JS.newDate3 y1 m1 d1, JS.newDate3 y2 m2 d2) ->
  s <= e ->
  (forall n, s <= n <= e -> Instant.midnightExists n) ->
  (forall n, s <= n <= e ->
     Instant.UTC (Instant.MakeDate n 0) < Instant.UTC (Instant.MakeDate (n + 1) 0)) ->
  (Z.to_nat (e - s + 1) < fuel)%nat ->
  let start := Instant.setHours0 (Instant.newDate3 y1 m1 d1) in
  let end_ := Instant.setHours0 (Instant.newDate3 y2 m2 d2) in
  Instant.generateDates fuel start end_
  = (fun n => Some (Instant.UTC (Instant.MakeDate n 0))) <$> seqZ s (e - s + 1)
  /\ Instant.localDay <$> Instant.generateDates fuel start end_ = generateDates st
  /\ generateDates st = JS.Day <$> seqZ s (e - s + 1).
Proof.
  intros Hs He Hrange Hse Hex Hstep Hfuel start end_.
  assert (Hstart : start = Some (Instant.UTC (Instant.MakeDate s 0))).
  { apply setHours0_newDate3; [exact Hs | apply Hex; lia]. }
  assert (Hend : end_ = Some (Instant.UTC (Instant.MakeDate e 0))).
  { apply setHours0_newDate3; [exact He | apply Hex; lia]. }
  assert (Hloop : Instant.generateDates fuel start end_
                  = (fun n => Some (Instant.UTC (Instant.MakeDate n 0)))
                      <$> seqZ s (e - s + 1)).
  { rewrite Hstart, Hend. unfold Instant.generateDates.
    replace (e - s + 1) with (Z.of_nat (Z.to_nat (e - s + 1))) by lia.
    apply (generateDates_loop_midnights s e Hse Hex Hstep); lia. }
  assert (Hdays : generateDates st = JS.Day <$> seqZ s (e - s + 1)).
  { apply newDate3_Day in Hs as Hs'. apply newDate3_Day in He as He'.
    apply generateDates_seqZ; [by rewrite Hrange, Hs, He | lia | lia]. }
  split; [exact Hloop |]. split; [| exact Hdays].
  rewrite Hloop, Hdays, <- list_fmap_compose.
  apply list_fmap_ext. intros i n Hn. apply lookup_seqZ in Hn as [-> Hi].
  cbn [compose Instant.localDay].
  rewrite (proj1 (Hex (s + Z.of_nat i) ltac:(lia))), Day_MakeDate. reflexivity.
Qed.

Lemma generateDates_range_witness :
  let H := Instant.fixedZone (-10800000) in
  Instant.localDay
    <$> Instant.generateDates 10
          (Instant.setHours0 (Instant.newDate3 (Some 2025) (Some 0) (Some 10)))
          (Instant.setHours0 (Instant.newDate3 (Some 2025) (Some 0) (Some 12)))
  = [JS.Day 20098; JS.Day 20099; JS.Day 20100]
  /\ @generateDates sampleHost weekendRange = [JS.Day 20098; JS.Day 20099; JS.Day 20100].
Proof.
  intros H.
  destruct (@generateDates_range sampleHost H weekendRange
              (Some 2025) (Some 0) (Some 10) (Some 2025) (Some 0) (Some 12)
              20098 20100 10) as (_ & Hloc & Hdays).
  - reflexivity.
  - reflexivity.
  - reflexivity.
  - lia.
  - intros n Hn. unfold Instant.midnightExists, Instant.MakeDate, Instant.maxTime,
      Instant.msPerDay. simpl. lia.
  - intros n Hn. unfold Instant.MakeDate, Instant.msPerDay. simpl. lia.
  - vm_compute. lia.
  - split; [rewrite Hloc | ]; rewrite Hdays; reflexivity.
Defined.

(** Where the clock skips a midnight of the range the loop comes to the
    last day an hour after the midnight the range ends on, and leaves it
    out: four days asked for, 2024-09-07 to 2024-09-10, and three
    listed, whatever the fuel. *)
Lemma generateDates_skipped_midnight (fuel : nat) :
  let H := Instant.santiago in
  (4 <= fuel)%nat ->
  ~ Instant.midnightExists 19974
  /\ Instant.localDay
       <$> Instant.generateDates fuel
             (Instant.setHours0 (Instant.newDate3 (Some 2024) (Some 8) (Some 7)))
             (Instant.setHours0 (Instant.newDate3 (Some 2024) (Some 8) (Some 10)))
     = [JS.Day 19973; JS.Day 19974; JS.Day 19975].
Proof.
  intros H Hfuel. split.
  - intros [Hl _]. vm_compute in Hl. discriminate.
  - do 4 (destruct fuel as [|fuel]; [lia |]). vm_compute. reflexivity.
Qed.

(** Where the calendar skips a day, [new Date(y, m, d)] for that day is a
    date of the day after, while the day-number model keeps the day it
    was asked for. *)
Lemma newDate3_skipped_day :
  let H := Instant.apia in
  JS.newDate3 (Some 2011) (Some 11) (Some 30) = JS.Day 15338
  /\ Instant.localDay (Instant.newDate3 (Some 2011) (Some 11) (Some 30)) = JS.Day 15339
  /\ ~ Instant.midnightExists 15338.
Proof.
  intros H. split; [reflexivity |]. split; [vm_compute; reflexivity |].
  intros [Hl _]. vm_compute in Hl. discriminate.
Qed.

Lemma length_concat_fmap {A B} (g : A -> list B) (n : nat) (l : list A) :
  (forall x, x ∈ l -> length (g x) = n) ->
  length (concat (g <$> l)) = (length l * n)%nat.
Proof.
  induction l as [|a l IH]; csimpl; intros Hall; [reflexivity |].
  rewrite length_app, Hall by left. rewrite IH; [lia |].
  intros x Hx. apply Hall. by right.
Qed.

Lemma slotsOfDate_bare `{HostEnv} (st : Scheduler) (d : JS.Date) (s : Slot.t) :
  s ∈ slotsOfDate st d -> bareSlot s = s.
Proof.
  unfold slotsOfDate. intros [Hs | Hs]%elem_of_app;
    apply list_elem_of_fmap in Hs as (i & -> & _); reflexivity.
Qed.

Lemma generateSlots_bare `{HostEnv} (st : Scheduler) :
  bareSlot <$> generateSlots st = generateSlots st.
Proof.
  rewrite <- (list_fmap_id (generateSlots st)) at 2.
  apply list_fmap_ext. intros i s Hs. simpl.
  apply list_elem_of_lookup_2 in Hs.
  unfold generateSlots in Hs.
  apply list_elem_of_In, in_concat in Hs as (l & Hl & Hs).
  apply list_elem_of_In, list_elem_of_fmap in Hl as (d & -> & _).
  apply list_elem_of_In in Hs. by eapply slotsOfDate_bare.
Qed.

Lemma length_generateSlots `{HostEnv} (st : Scheduler) :
  length (generateSlots st)
  = (length (generateDates st)
     * (Z.to_nat (primaryCount st) + Z.to_nat (secondaryCount st)))%nat.
Proof.
  unfold generateSlots. apply length_concat_fmap. intros d _.
  unfold slotsOfDate. by rewrite length_app, !length_fmap, !length_seqZ.
Qed.

(** X7.  [generateSlots] makes, for every date of the range,
    [primaryCount + secondaryCount] slots (a negative count stands for
    none), and nobody is assigned to any of them yet. *)
Theorem generateSlots_count `{HostEnv} (st : Scheduler) :
  length (generateSlots st)
  = (length (generateDates st)
     * (Z.to_nat (primaryCount st) + Z.to_nat (secondaryCount st)))%nat
  /\ Forall (fun s => Slot.assignedPerson s = None /\ Slot.warning s = None)
            (generateSlots st).
Proof.
  split; [apply length_generateSlots |].
  apply Forall_forall. intros s Hs.
  assert (Hb : bareSlot s = s).
  { apply list_elem_of_lookup in Hs as [i Hi].
    pose proof (generateSlots_bare st) as Hbare.
    apply (f_equal (fun l => l !! i)) in Hbare.
    rewrite list_lookup_fmap, Hi in Hbare. simpl in Hbare. congruence. }
  rewrite <- Hb. split; reflexivity.
Qed.

(** X8.  With both shift counts in the range [setShiftCounts] keeps them in,
    the identifier of a slot names it: no two slots of [generateSlots]
    share an identifier, so two slots with one identifier are one slot. *)
Theorem generateSlots_id_names_slot `{HostEnv} (st : Scheduler) :
  shiftCountsClamped st ->
  NoDup (Slot.id <$> generateSlots st)
  /\ forall i j s s',
       generateSlots st !! i = Some s -> generateSlots st !! j = Some s' ->
       Slot.id s = Slot.id s' -> i = j /\ s = s'.
Proof.
  intros Hc. pose proof (generateSlots_ids_NoDup st Hc) as Hnd.
  split; [exact Hnd |]. intros i j s s' Hi Hj Heq.
  assert (i = j) as ->.
  { eapply NoDup_lookup; [exact Hnd | |].
    - rewrite list_lookup_fmap, Hi. reflexivity.
    - rewrite list_lookup_fmap, Hj. simpl. by rewrite Heq. }
  split; [reflexivity | congruence].
Qed.

Lemma generateSlots_id_names_slot_witness :
  NoDup (Slot.id <$> @generateSlots sampleHost weekendRange).
Proof.
  apply (@generateSlots_id_names_slot sampleHost weekendRange).
  unfold shiftCountsClamped. simpl. lia.
Defined.

Lemma generateSchedule_exceptions_witness :
  exists e st',
    @generateSchedule sampleHost twoForThree = (Throw e, st')
    /\ (e = Err (capacityMessage twoForThree)
        \/ e = Err "Date range not set"
        \/ exists slot, slot ∈ @sortedSlots sampleHost twoForThree
                        /\ e = Err (cannotScheduleMessage slot)).
Proof.
  eexists _, _.
  match goal with |- ?A /\ _ => assert (Hrun : A) by (vm_compute; reflexivity) end.
  split; [exact Hrun |].
  refine (@generateSchedule_exceptions sampleHost _ _ _ _ Hrun).
  intros p Hp. apply list_elem_of_In in Hp.
  destruct Hp as [<- | [<- | []]]; vm_compute; eauto.
Defined.


(** ** A run that cannot get stuck *)

Lemma filter_length_perm {A} (f : A -> bool) (l l' : list A) :
  l ≡ₚ l' -> length (List.filter f l) = length (List.filter f l').
Proof.
  induction 1 as [| x l l' _ IH | x y l | l l1 l2 _ IH1 _ IH2]; simpl.
  - reflexivity.
  - destruct (f x); simpl; congruence.
  - destruct (f x), (f y); reflexivity.
  - congruence.
Qed.

Lemma slotsOn_app (ds : string) (a b : list Slot.t) :
  slotsOn ds (a ++ b) = (slotsOn ds a + slotsOn ds b)%nat.
Proof. unfold slotsOn. by rewrite List.filter_app, length_app. Qed.

Lemma slotsOn_all (ds : string) (l : list Slot.t) :
  (forall s, s ∈ l -> Slot.dateStr s = ds) -> slotsOn ds l = length l.
Proof.
  unfold slotsOn. induction l as [|s l IH]; simpl; intros Hall; [reflexivity |].
  rewrite (Hall s) by left. rewrite String.eqb_refl. simpl. f_equal.
  apply IH. intros x Hx. apply Hall. by right.
Qed.

Lemma slotsOn_none (ds : string) (l : list Slot.t) :
  (forall s, s ∈ l -> Slot.dateStr s <> ds) -> slotsOn ds l = 0%nat.
Proof.
  intros Hall. unfold slotsOn. rewrite filter_nil_all; [reflexivity |].
  intros s Hs. apply String.eqb_neq. by apply Hall.
Qed.

Lemma slotsOfDate_dateStr `{HostEnv} (st : Scheduler) (d : JS.Date) (s : Slot.t) :
  s ∈ slotsOfDate st d -> Slot.dateStr s = normalizeDate (InDate d).
Proof.
  unfold slotsOfDate. intros [Hs | Hs]%elem_of_app;
    apply list_elem_of_fmap in Hs as (i & -> & _); reflexivity.
Qed.

Lemma length_slotsOfDate `{HostEnv} (st : Scheduler) (d : JS.Date) :
  length (slotsOfDate st d)
  = (Z.to_nat (primaryCount st) + Z.to_nat (secondaryCount st))%nat.
Proof. unfold slotsOfDate. by rewrite length_app, !length_fmap, !length_seqZ. Qed.

(** No calendar day has more than [primaryCount + secondaryCount] slots. *)
Lemma slotsOn_generateSlots `{HostEnv} (st : Scheduler) (ds : string) :
  (slotsOn ds (generateSlots st)
   <= Z.to_nat (primaryCount st) + Z.to_nat (secondaryCount st))%nat.
Proof.
  unfold generateSlots. destruct (generateDates_days st) as (ns & -> & Hnd).
  induction ns as [|n ns IH]; csimpl; [unfold slotsOn; simpl; lia |].
  apply NoDup_cons in Hnd as [Hn Hnd]. rewrite slotsOn_app.
  destruct (String.eqb_spec (normalizeDate (InDate (JS.Day n))) ds) as [Heq | Hne].
  - assert (Hhere : slotsOn ds (slotsOfDate st (JS.Day n))
                    = length (slotsOfDate st (JS.Day n))).
    { apply slotsOn_all. intros s Hs. by rewrite (slotsOfDate_dateStr _ _ _ Hs). }
    assert (Hrest : slotsOn ds (concat (slotsOfDate st <$> (JS.Day <$> ns))) = 0%nat).
    { apply slotsOn_none. intros s Hs Hds.
      apply list_elem_of_In, in_concat in Hs as (l & Hl & Hs).
      apply list_elem_of_In, list_elem_of_fmap in Hl as (d & -> & Hd).
      apply list_elem_of_fmap in Hd as (m & -> & Hm).
      apply list_elem_of_In in Hs. rewrite (slotsOfDate_dateStr _ _ _ Hs) in Hds.
      rewrite <- Heq in Hds. apply canonical_inj in Hds as ->. done. }
    rewrite Hhere, Hrest, length_slotsOfDate. lia.
  - assert (Hhere : slotsOn ds (slotsOfDate st (JS.Day n)) = 0%nat).
    { apply slotsOn_none. intros s Hs. by rewrite (slotsOfDate_dateStr _ _ _ Hs). }
    rewrite Hhere. by apply IH.
Qed.

Lemma length_omap_le {A B} (f : A -> option B) (l : list A) :
  (length (omap f l) <= length l)%nat.
Proof. induction l as [|x l IH]; csimpl; [lia |]. destruct (f x); csimpl; lia. Qed.

(** The pigeonhole argument: with pairwise different addresses, fewer
    slots on a day than people leave somebody free that day. *)
Lemma free_person (st : Scheduler) (slot : Slot.t) :
  NoDup (Person.email <$> people st) ->
  (slotsOn (Slot.dateStr slot) (schedule st) < length (people st))%nat ->
  List.filter (freeThatDay st slot) (people st) <> [].
Proof.
  intros Hnd Hlt Hnil.
  set (onDay := List.filter (fun s => String.eqb (Slot.dateStr s) (Slot.dateStr slot))
                            (schedule st)).
  set (holders := omap (fun s => Person.email <$> Slot.assignedPerson s) onDay).
  assert (Hsub : forall e, e ∈ Person.email <$> people st -> e ∈ holders).
  { intros e (p & -> & Hp)%list_elem_of_fmap.
    pose proof (filter_nil_not _ _ p Hnil Hp) as Hbusy.
    unfold freeThatDay in Hbusy. apply Nat.eqb_neq in Hbusy.
    destruct (getSameDayShifts st p slot) as [|s rest] eqn:Hsame; [done |].
    assert (Hs : In s (getSameDayShifts st p slot)) by (rewrite Hsame; left; done).
    unfold getSameDayShifts in Hs. apply filter_In in Hs as [Hs Hcond].
    apply andb_true_iff in Hcond as [Hheld Hday].
    apply list_elem_of_omap. exists s. split.
    - apply list_elem_of_In, filter_In. split; done.
    - unfold assignedTo in Hheld. destruct (Slot.assignedPerson s) as [q|]; [| done].
      apply String.eqb_eq in Hheld. simpl. by rewrite Hheld. }
  pose proof (submseteq_length _ _ (NoDup_submseteq _ _ Hnd Hsub)) as Hlen.
  rewrite length_fmap in Hlen.
  assert (Hle : (length holders <= length onDay)%nat) by apply length_omap_le.
  unfold onDay in Hle. fold (slotsOn (Slot.dateStr slot) (schedule st)) in Hle. lia.
Qed.

Lemma assignAll_never_stuck (targets : Targets.t) (cap : nat) (slots : list Slot.t)
      (st : Scheduler) (l : gmap string Load.t) :
  NoDup (Person.email <$> people st) ->
  (cap <= length (people st))%nat ->
  RunReady st l ->
  (forall ds, (slotsOn ds (schedule st) + slotsOn ds slots <= cap)%nat) ->
  exists st' l', assignAll targets slots st l = (st', l', None).
Proof.
  revert st l. induction slots as [|slot rest IH]; cbn [assignAll];
    intros st l Hnd Hcap Hr Hroom; [eauto |].
  destruct (assignSlot targets st l slot) as [[st1 l1]|e] eqn:Hs.
  - pose proof (assignSlot_ready _ _ _ _ _ _ Hs Hr) as Hr1.
    destruct (assignSlot_inv _ _ _ _ _ _ Hs)
      as (best & slot1 & Hslot1 & _ & _ & Hst1 & _).
    apply IH; [by rewrite Hst1 | by rewrite Hst1 | exact Hr1 |].
    intros ds. specialize (Hroom ds). rewrite Hst1. simpl.
    rewrite slotsOn_app.
    change (slot :: rest) with ([slot] ++ rest) in Hroom. rewrite slotsOn_app in Hroom.
    assert (slotsOn ds [Slot.setAssigned slot1 best None] = slotsOn ds [slot])
      by (destruct Hslot1 as [-> | ->]; unfold slotsOn; simpl;
          destruct (String.eqb _ _); reflexivity).
    lia.
  - exfalso. destruct (assignSlot_throws _ _ _ _ _ (proj1 Hr) Hs) as [_ Hnil].
    apply (free_person st slot Hnd); [| exact Hnil].
    specialize (Hroom (Slot.dateStr slot)).
    change (slot :: rest) with ([slot] ++ rest) in Hroom. rewrite slotsOn_app in Hroom.
    assert (slotsOn (Slot.dateStr slot) [slot] = 1%nat)
      by (unfold slotsOn; simpl; by rewrite String.eqb_refl).
    lia.
Qed.

(** The full fill of a run, under the conditions of the next theorem. *)
Lemma fill_succeeds `{HostEnv} (st : Scheduler) :
  NoDup (Person.email <$> people st) ->
  0 <= primaryCount st -> 0 <= secondaryCount st ->
  primaryCount st + secondaryCount st <= Z.of_nat (length (people st)) ->
  exists st1 l1,
    assignAll (calculateTargetShifts st) (sortedSlots st)
              (withSchedule st []) (initializeLoad st) = (st1, l1, None).
Proof.
  intros Hnd HP HS Hcap.
  apply (assignAll_never_stuck _
           (Z.to_nat (primaryCount st) + Z.to_nat (secondaryCount st))).
  - exact Hnd.
  - simpl. lia.
  - split.
    + intros p Hp. by apply initializeLoad_lookup.
    + intros s Hs. inversion Hs.
  - intros ds. simpl. unfold slotsOn at 1. simpl.
    unfold slotsOn, sortedSlots.
    rewrite (filter_length_perm _ _ _ (stableSort_perm compareSlots (generateSlots st))).
    apply slotsOn_generateSlots.
Qed.

(** X11.  With pairwise different addresses, a preference entry for everyone,
    shift counts that are not negative, a date range, and as many people
    as there are slots a night, [generateSchedule] returns a schedule: the
    exception for a slot that nobody can take is never raised. *)
Theorem generateSchedule_succeeds `{HostEnv} (st : Scheduler) :
  RosterOk st ->
  0 <= primaryCount st -> 0 <= secondaryCount st ->
  primaryCount st + secondaryCount st <= Z.of_nat (length (people st)) ->
  is_Some (dateRange st) ->
  exists out st', generateSchedule st = (Ok out, st').
Proof.
  intros [Hnd Hdom] HP HS Hcap [range Hrange]. unfold generateSchedule.
  destruct (Z.ltb_spec (Z.of_nat (length (people st)))
                       (primaryCount st + secondaryCount st)); [lia |].
  rewrite Hrange. unfold runPhases. fold (sortedSlots st).
  destruct (fill_succeeds st Hnd HP HS Hcap) as (st1 & l1 & Hfill). rewrite Hfill.
  assert (Hr0 : RunReady (withSchedule st []) (initializeLoad st)).
  { split.
    - intros p Hp. by apply initializeLoad_lookup.
    - intros s Hs. inversion Hs. }
  destruct (assignAll_outcome _ _ _ _ _ _ _ Hr0 Hfill) as (Hr1 & Hq1 & Hp1).
  unfold optimizeWithSwaps.
  destruct (optimizeLoop_total (calculateTargetShifts st) 100 st1 l1 Hr1)
    as (st2 & l2 & Hopt & Hr2).
  rewrite Hopt. unfold balanceShifts.
  destruct (balanceTypes_total ShiftType.all st2 l2 Hr2) as (st3 & l3 & Hbal & Hr3).
  rewrite Hbal.
  pose proof (fill_visited _ _ _ _ Hfill) as Hv1.
  pose proof (optimizeLoop_visited _ _ _ _ _ _ Hv1 Hopt) as Hv2.
  pose proof (balanceTypes_visited _ _ _ _ _ _ Hv2 Hbal) as Hv3.
  destruct (Visited_inv _ _ _ Hv3) as (Hp3 & _).
  destruct (generateFairnessReport_total st3 l3) as [report Hrep].
  - by destruct Hr3.
  - intros p Hp. rewrite (Visited_preferences _ _ _ Hv3). apply Hdom.
    rewrite Hp3 in Hp. by apply list_elem_of_fmap_2.
  - rewrite Hrep. eauto.
Qed.

Lemma generateSchedule_succeeds_witness :
  exists out st', @generateSchedule sampleHost sixPeople = (Ok out, st').
Proof.
  apply (@generateSchedule_succeeds sampleHost sixPeople).
  - split.
    + apply (bool_decide_unpack _). vm_compute. exact I.
    + intros e. rewrite <- elem_of_dom.
      assert (dom (preferences sixPeople)
              = (list_to_set (Person.email <$> people sixPeople) : gset string)) as ->
        by (vm_compute; reflexivity).
      apply elem_of_list_to_set.
  - vm_compute. discriminate.
  - vm_compute. discriminate.
  - vm_compute. discriminate.
  - vm_compute. eauto.
Defined.

(** ** The order of the slots *)

Lemma generateDates_loop_consecutive (fuel : nat) (c : Z) (end_ : JS.Date) :
  exists k, generateDates_loop fuel (JS.Day c) end_ = JS.Day <$> seqZ c (Z.of_nat k).
Proof.
  revert c. induction fuel as [|fuel IH]; intros c; cbn [generateDates_loop].
  - by exists 0%nat.
  - destruct (JS.leDate (JS.Day c) end_); [| by exists 0%nat].
    cbn [JS.addDays]. unfold JS.clip. destruct (_ && _).
    + destruct (IH (c + 1)) as (k & ->). exists (S k).
      rewrite (seqZ_cons c) by lia. csimpl.
      replace (Z.succ c) with (c + 1) by lia.
      replace (Z.pred (Z.of_nat (S k))) with (Z.of_nat k) by lia.
      reflexivity.
    + exists 1%nat. destruct fuel; reflexivity.
Qed.

Lemma generateDates_consecutive `{HostEnv} (st : Scheduler) :
  exists c k, generateDates st = JS.Day <$> seqZ c (Z.of_nat k).
Proof.
  unfold generateDates. destruct (dateRange st) as [[[|s] [|e]]|].
  - by exists 0, 0%nat.
  - by exists 0, 0%nat.
  - by exists 0, 0%nat.
  - exists s. apply generateDates_loop_consecutive.
  - by exists hostEpochDay, 1%nat.
Qed.

Lemma inOrder_app {A} (cmp : A -> A -> Z) (l1 l2 : list A) :
  inOrder cmp l1 -> inOrder cmp l2 ->
  (forall x y, x ∈ l1 -> y ∈ l2 -> cmp x y <= 0) ->
  inOrder cmp (l1 ++ l2).
Proof.
  induction l1 as [|a l1 IH]; simpl; intros H1 H2 Hcross; [exact H2 |].
  destruct H1 as [Ha H1]. split.
  - intros y [Hy | Hy]%elem_of_app; [by apply Ha | apply Hcross; [left | done]].
  - apply IH; [done | done |]. intros x y Hx Hy. apply Hcross; [by right | done].
Qed.

Lemma inOrder_all {A} (cmp : A -> A -> Z) (l : list A) :
  (forall x y, x ∈ l -> y ∈ l -> cmp x y <= 0) -> inOrder cmp l.
Proof.
  induction l as [|a l IH]; simpl; intros Hall; [exact I |]. split.
  - intros y Hy. apply Hall; [left | by right].
  - apply IH. intros x y Hx Hy. apply Hall; by right.
Qed.

Lemma stableSort_inOrder {A} (cmp : A -> A -> Z) (l : list A) :
  inOrder cmp l -> stableSort cmp l = l.
Proof.
  unfold stableSort. induction l as [|x l IH]; simpl; intros Hord; [reflexivity |].
  destruct Hord as [Hx Hord]. rewrite IH by done.
  destruct l as [|y l]; [reflexivity |]. simpl.
  destruct (Z.leb_spec (cmp x y) 0) as [_ | Hgt]; [reflexivity |].
  assert (cmp x y <= 0) by (apply Hx; left). lia.
Qed.

Lemma compareSlots_same_day (a b : Slot.t) :
  Slot.dateStr a = Slot.dateStr b -> Slot.isWeekend a = Slot.isWeekend b ->
  (Slot.role a = secondary -> Slot.role b = secondary) ->
  compareSlots a b <= 0.
Proof.
  intros Hds Hw Hrole. unfold compareSlots. rewrite Hds, String.eqb_refl, Hw. simpl.
  destruct (Slot.role a), (Slot.role b); simpl;
    try (destruct (Slot.isWeekend b); lia).
  specialize (Hrole eq_refl). discriminate.
Qed.

Lemma compareSlots_earlier (a b : Slot.t) (x y : Z) :
  Slot.dateStr a <> Slot.dateStr b ->
  Slot.date a = JS.Day x -> Slot.date b = JS.Day y -> x < y -> compareSlots a b <= 0.
Proof.
  intros Hds Ha Hb Hlt. unfold compareSlots. rewrite Ha, Hb.
  apply String.eqb_neq in Hds. rewrite Hds. simpl. lia.
Qed.

Lemma slotsOfDate_inOrder `{HostEnv} (st : Scheduler) (d : JS.Date) :
  inOrder compareSlots (slotsOfDate st d).
Proof.
  unfold slotsOfDate. apply inOrder_app.
  - apply inOrder_all.
    intros x y (i & -> & _)%list_elem_of_fmap (j & -> & _)%list_elem_of_fmap.
    by apply compareSlots_same_day.
  - apply inOrder_all.
    intros x y (i & -> & _)%list_elem_of_fmap (j & -> & _)%list_elem_of_fmap.
    by apply compareSlots_same_day.
  - intros x y (i & -> & _)%list_elem_of_fmap (j & -> & _)%list_elem_of_fmap.
    by apply compareSlots_same_day.
Qed.

Lemma slotsOfDate_date `{HostEnv} (st : Scheduler) (d : JS.Date) (s : Slot.t) :
  s ∈ slotsOfDate st d ->
  Slot.date s = d /\ Slot.dateStr s = normalizeDate (InDate d).
Proof.
  unfold slotsOfDate. intros [Hs | Hs]%elem_of_app;
    apply list_elem_of_fmap in Hs as (i & -> & _); done.
Qed.

Lemma slots_of_days_inOrder `{HostEnv} (st : Scheduler) (k : nat) (c : Z) :
  inOrder compareSlots (concat (slotsOfDate st <$> (JS.Day <$> seqZ c (Z.of_nat k)))).
Proof.
  revert c. induction k as [|k IH]; intros c; [exact I |].
  rewrite seqZ_cons by lia. csimpl.
  replace (Z.pred (Z.of_nat (S k))) with (Z.of_nat k) by lia.
  apply inOrder_app; [apply slotsOfDate_inOrder | apply IH |].
  intros x y Hx Hy. destruct (slotsOfDate_date _ _ _ Hx) as [Hxd Hxs].
  apply list_elem_of_In, in_concat in Hy as (l & Hl & Hy).
  apply list_elem_of_In, list_elem_of_fmap in Hl as (d & -> & Hd).
  apply list_elem_of_fmap in Hd as (m & -> & Hm%elem_of_seqZ).
  apply list_elem_of_In in Hy. destruct (slotsOfDate_date _ _ _ Hy) as [Hyd Hys].
  apply (compareSlots_earlier x y c m); [| done | done | lia].
  rewrite Hxs, Hys. intros Heq%canonical_inj. lia.
Qed.

Lemma generateSlots_inOrder `{HostEnv} (st : Scheduler) :
  inOrder compareSlots (generateSlots st).
Proof.
  unfold generateSlots. destruct (generateDates_consecutive st) as (c & k & ->).
  apply slots_of_days_inOrder.
Qed.

(** X9.  The [sort] of [generateSchedule] finds the slots already in its
    order: the fill takes them as [generateSlots] made them, by date and,
    within a date, the primary slots before the secondary ones. *)
Theorem sortedSlots_generateSlots `{HostEnv} (st : Scheduler) :
  sortedSlots st = generateSlots st
  /\ forall i j a b,
       (i < j)%nat -> generateSlots st !! i = Some a -> generateSlots st !! j = Some b ->
       compareSlots a b <= 0.
Proof.
  pose proof (generateSlots_inOrder st) as Hord. split.
  - by apply stableSort_inOrder.
  - generalize dependent (generateSlots st). intros l. induction l as [|x l IH];
      simpl; intros Hord i j a b Hij Hi Hj; [by rewrite lookup_nil in Hi |].
    destruct Hord as [Hx Hord]. destruct j as [|j]; [lia |]. simpl in Hj. destruct i as [|i].
    + injection Hi as <-. apply Hx. by eapply list_elem_of_lookup_2.
    + simpl in Hi. eapply (IH Hord i j); [lia | done | done].
Qed.

Lemma sortedSlots_generateSlots_witness :
  exists a b,
    @generateSlots sampleHost weekendRange !! 1%nat = Some a
    /\ @generateSlots sampleHost weekendRange !! 2%nat = Some b
    /\ compareSlots a b <= 0.
Proof.
  eexists _, _.
  match goal with |- ?A /\ ?B /\ _ =>
    assert (Ha : A) by (vm_compute; reflexivity);
    assert (Hb : B) by (vm_compute; reflexivity)
  end.
  split; [exact Ha |]. split; [exact Hb |].
  refine (proj2 (@sortedSlots_generateSlots sampleHost weekendRange) 1%nat 2%nat _ _ _ Ha Hb).
  lia.
Defined.

(** ** What a completed run returns *)

Lemma optimizePass_moves (targets : Targets.t) (n i : nat) (st st' : Scheduler)
      (l l' : gmap string Load.t) (improved improved' : bool) :
  optimizePass targets n i st l improved = Ok (st', l', improved') ->
  Moves st l st' l'.
Proof.
  revert i st l improved. induction n as [|n IH]; cbn [optimizePass];
    intros i st l improved Hpass.
  - injection Hpass as <- <- _. constructor.
  - destruct (schedule st !! i) as [slot|] eqn:Hi.
    + apply bind_Ok_inv in Hpass as ([[st1 l1] swapped] & Hopt & Hpass).
      eapply Moves_trans; [by eapply optimizeSlot_moves | by eapply IH].
    + injection Hpass as <- <- _. constructor.
Qed.

Lemma optimizeLoop_moves (targets : Targets.t) (fuel : nat) (st st' : Scheduler)
      (l l' : gmap string Load.t) :
  optimizeLoop targets fuel st l = Ok (st', l') -> Moves st l st' l'.
Proof.
  revert st l. induction fuel as [|fuel IH]; cbn [optimizeLoop]; intros st l Hloop.
  - injection Hloop as <- <-. constructor.
  - apply bind_Ok_inv in Hloop as ([[st1 l1] improved] & Hpass & Hloop).
    apply optimizePass_moves in Hpass. destruct improved.
    + eapply Moves_trans; [exact Hpass | by apply IH].
    + by injection Hloop as <- <-.
Qed.

Lemma balanceLoop_moves (shiftType : ShiftType.t) (fuel : nat) (st st' : Scheduler)
      (l l' : gmap string Load.t) :
  balanceLoop shiftType fuel st l = Ok (st', l') -> Moves st l st' l'.
Proof.
  revert st l. induction fuel as [|fuel IH]; cbn [balanceLoop]; intros st l Hloop.
  - injection Hloop as <- <-. constructor.
  - apply bind_Ok_inv in Hloop as (r & Hstep & Hloop). destruct r as [[st1 l1]|].
    + eapply Moves_trans; [by eapply balanceStep_moves | by apply IH].
    + injection Hloop as <- <-. constructor.
Qed.

Lemma balanceTypes_moves (shiftTypes : list ShiftType.t) (st st' : Scheduler)
      (l l' : gmap string Load.t) :
  balanceTypes shiftTypes st l = Ok (st', l') -> Moves st l st' l'.
Proof.
  revert st l. induction shiftTypes as [|k ks IH]; cbn [balanceTypes]; intros st l Hb.
  - injection Hb as <- <-. constructor.
  - apply bind_Ok_inv in Hb as ([st1 l1] & Hloop & Hb).
    eapply Moves_trans; [by eapply balanceLoop_moves | by apply IH].
Qed.

(** The phases of a run that returns. *)
Lemma generateSchedule_phases `{HostEnv} (st st' : Scheduler) (out : Output) :
  generateSchedule st = (Ok out, st') ->
  exists st1 l1 st2 l2 l3,
    assignAll (calculateTargetShifts st) (sortedSlots st)
              (withSchedule st []) (initializeLoad st) = (st1, l1, None)
    /\ optimizeWithSwaps (calculateTargetShifts st) st1 l1 = Ok (st2, l2)
    /\ balanceShifts st2 l2 = Ok (st', l3)
    /\ generateFairnessReport st' l3 = Ok (fairnessReport out)
    /\ outSchedule out = schedule st'.
Proof.
  unfold generateSchedule. destruct (_ <? _); [discriminate |].
  destruct (dateRange st); [| discriminate].
  unfold runPhases. fold (sortedSlots st).
  destruct (assignAll _ _ _ _) as [[st1 l1] [e|]] eqn:Hfill; [discriminate |].
  destruct (optimizeWithSwaps _ st1 l1) as [[st2 l2]|e] eqn:Hopt; [| discriminate].
  destruct (balanceShifts st2 l2) as [[st3 l3]|e] eqn:Hbal; [| discriminate].
  destruct (generateFairnessReport st3 l3) as [report|e] eqn:Hrep; [| discriminate].
  intros [= <- <-]. exists st1, l1, st2, l2, l3. by split_and!.
Qed.

Lemma bareSlot_setAssigned (s : Slot.t) (p : Person.t) (c : option Z) :
  bareSlot (Slot.setAssigned s p c) = bareSlot s.
Proof. reflexivity. Qed.

Lemma list_fmap_insert_same {A B} (f : A -> B) (l : list A) (i : nat) (x y : A) :
  l !! i = Some x -> f y = f x -> f <$> <[i := y]> l = f <$> l.
Proof.
  intros Hi Hf. rewrite list_fmap_insert, Hf.
  apply list_insert_id. by rewrite list_lookup_fmap, Hi.
Qed.

(** A move changes the holder and the cost of one slot and nothing else. *)
Lemma Moves_slots (st st' : Scheduler) (l l' : gmap string Load.t) :
  Moves st l st' l' ->
  bareSlot <$> schedule st' = bareSlot <$> schedule st
  /\ Slot.warning <$> schedule st' = Slot.warning <$> schedule st.
Proof.
  induction 1 as [st l | st l st1 l1 st2 l2 Hm _ [IHb IHw]]; [done |].
  destruct Hm as (i & slot & from & toPerson & c & load1
                  & Hi & _ & _ & _ & _ & _ & _ & ->).
  rewrite IHb, IHw. unfold reassign. simpl.
  split; by apply (list_fmap_insert_same _ _ _ slot).
Qed.

Lemma assignAll_slots (targets : Targets.t) (slots : list Slot.t) (st st' : Scheduler)
      (l l' : gmap string Load.t) :
  assignAll targets slots st l = (st', l', None) ->
  bareSlot <$> schedule st' = (bareSlot <$> schedule st) ++ (bareSlot <$> slots).
Proof.
  revert st l. induction slots as [|slot rest IH]; cbn [assignAll]; intros st l Ha.
  - injection Ha as <- _. by rewrite app_nil_r.
  - destruct (assignSlot targets st l slot) as [[st1 l1]|e] eqn:Hs; [| discriminate].
    destruct (assignSlot_inv _ _ _ _ _ _ Hs)
      as (best & slot1 & Hslot1 & _ & _ & Hst1 & _).
    rewrite (IH _ _ Ha), Hst1. simpl. rewrite fmap_app, <- app_assoc. simpl.
    by destruct Hslot1 as [-> | ->].
Qed.

(** Where a run that returns ends. *)
Lemma generateSchedule_final `{HostEnv} (st st' : Scheduler) (out : Output) :
  generateSchedule st = (Ok out, st') ->
  outSchedule out = schedule st'
  /\ bareSlot <$> schedule st' = generateSlots st
  /\ people st' = people st /\ preferences st' = preferences st
  /\ (forall s, s ∈ schedule st' ->
        exists p, Slot.assignedPerson s = Some p /\ p ∈ people st)
  /\ exists l, LoadMatches st' l /\ generateFairnessReport st' l = Ok (fairnessReport out).
Proof.
  intros Hgen.
  destruct (generateSchedule_visited _ _ _ Hgen) as (l & Hvis & _ & Hrep).
  destruct (generateSchedule_phases _ _ _ Hgen)
    as (st1 & l1 & st2 & l2 & l3 & Hfill & Hopt & Hbal & _ & Hout).
  assert (Hr0 : RunReady (withSchedule st []) (initializeLoad st)).
  { split.
    - intros p Hp. by apply initializeLoad_lookup.
    - intros s Hs. inversion Hs. }
  destruct (assignAll_outcome _ _ _ _ _ _ _ Hr0 Hfill) as (Hr1 & Hq1 & Hp1).
  pose proof (Moves_trans _ _ _ _ _ _ (optimizeLoop_moves _ _ _ _ _ _ Hopt)
                          (balanceTypes_moves _ _ _ _ _ Hbal)) as Hm.
  destruct (Moves_slots _ _ _ _ Hm) as [Hbare _].
  destruct (Moves_fields _ _ _ _ Hm) as (Hp3 & Hq3 & _).
  split_and!.
  - exact Hout.
  - rewrite Hbare, (assignAll_slots _ _ _ _ _ _ Hfill). simpl.
    unfold sortedSlots. rewrite (stableSort_inOrder _ _ (generateSlots_inOrder st)).
    apply generateSlots_bare.
  - by rewrite Hp3, Hp1.
  - by rewrite Hq3, Hq1.
  - intros s Hs. destruct (proj2 (RunReady_Moves _ _ _ _ Hm Hr1) s Hs)
      as (p & Hp & Hin).
    exists p. split; [exact Hp |]. rewrite Hp3, Hp1 in Hin. exact Hin.
  - exists l. split; [exact (Visited_LoadMatches st _ _ Hvis) | exact Hrep].
Qed.

(** X12.  The schedule of a run that returns, which is also the one stored:
    slot for slot the list [generateSlots] made (same identifiers, dates,
    roles, labels, weekend flags and durations, in the same order), each
    slot held by somebody of the roster. *)
Theorem generateSchedule_covers `{HostEnv} (st st' : Scheduler) (out : Output) :
  generateSchedule st = (Ok out, st') ->
  outSchedule out = schedule st'
  /\ bareSlot <$> schedule st' = generateSlots st
  /\ (forall s, s ∈ schedule st' ->
        exists p, Slot.assignedPerson s = Some p /\ p ∈ people st)
  /\ length (schedule st')
     = (length (generateDates st)
        * (Z.to_nat (primaryCount st) + Z.to_nat (secondaryCount st)))%nat.
Proof.
  intros (Hout & Hslots & _ & _ & Hheld & _)%generateSchedule_final.
  split_and!; [exact Hout | exact Hslots | exact Hheld |].
  rewrite <- (length_fmap bareSlot), Hslots. apply length_generateSlots.
Qed.

Lemma generateSchedule_covers_witness :
  exists out st',
    @generateSchedule sampleHost sixPeople = (Ok out, st')
    /\ bareSlot <$> schedule st' = @generateSlots sampleHost sixPeople
    /\ length (schedule st') = 15%nat.
Proof.
  assert (Hrun : exists out st', @generateSchedule sampleHost sixPeople = (Ok out, st')).
  { eexists _, _. vm_compute. reflexivity. }
  destruct Hrun as (out & st' & Hrun). exists out, st'. split; [exact Hrun |].
  destruct (@generateSchedule_covers sampleHost sixPeople st' out Hrun)
    as (_ & Hslots & _ & Hlen).
  split; [exact Hslots |]. rewrite Hlen. vm_compute. reflexivity.
Defined.

(** X15.  Neither the optimizer nor the balancer drops, adds, reorders or
    relabels a slot: date, role, label, weekend flag, duration and also
    the warning of every slot stay as they were, only the holder and the
    cost may change.  The warning of a slot that was assigned as a last
    resort therefore stays on it even when the slot goes to somebody
    else. *)
Theorem later_phases_keep_slots (targets : Targets.t) (st st' : Scheduler)
        (l l' : gmap string Load.t) :
  optimizeWithSwaps targets st l = Ok (st', l') \/ balanceShifts st l = Ok (st', l') ->
  bareSlot <$> schedule st' = bareSlot <$> schedule st
  /\ Slot.warning <$> schedule st' = Slot.warning <$> schedule st
  /\ people st' = people st /\ preferences st' = preferences st.
Proof.
  intros Hphase.
  assert (Hm : Moves st l st' l').
  { destruct Hphase as [Hopt | Hbal];
      [by eapply optimizeLoop_moves | by eapply balanceTypes_moves]. }
  destruct (Moves_slots _ _ _ _ Hm) as [Hb Hw].
  destruct (Moves_fields _ _ _ _ Hm) as (Hp & Hq & _).
  by split_and!.
Qed.

Lemma later_phases_keep_slots_witness :
  exists st' l',
    balanceShifts lopsided lopsidedLoad = Ok (st', l')
    /\ bareSlot <$> schedule st' = bareSlot <$> schedule lopsided
    /\ Slot.assignedPerson <$> schedule st' <> Slot.assignedPerson <$> schedule lopsided.
Proof.
  eexists _, _.
  match goal with |- ?A /\ _ => assert (Hrun : A) by (vm_compute; reflexivity) end.
  split; [exact Hrun |].
  split; [| vm_compute; congruence].
  exact (proj1 (later_phases_keep_slots (@calculateTargetShifts sampleHost lopsided)
                  _ _ _ _ (or_intror Hrun))).
Defined.

(** ** What the optimizer and the balancer do to the counters *)

Lemma bumpLoad_shift (l l' : gmap string Load.t) (e0 : string) (k : ShiftType.t)
      (dc dh : Z) :
  bumpLoad l e0 k dc dh = Ok l' ->
  loadShift (fun e => if String.eqb e e0 then dc else 0) k l l'.
Proof.
  intros (rec & Hrec & ->)%bumpLoad_Ok_inv e.
  destruct (String.eqb_spec e e0) as [-> | Hne].
  - rewrite Hrec, lookup_insert_eq. intros k'. apply Load_get_bump.
  - rewrite lookup_insert_ne by done.
    destruct (l !! e); [| done]. intros k'. destruct (ShiftType.eqb k' k); lia.
Qed.

Lemma loadShift_trans (f g : string -> Z) (k : ShiftType.t)
      (l l1 l2 : gmap string Load.t) :
  loadShift f k l l1 -> loadShift g k l1 l2 -> loadShift (fun e => f e + g e) k l l2.
Proof.
  intros H1 H2 e. specialize (H1 e). specialize (H2 e).
  destruct (l !! e), (l1 !! e), (l2 !! e); try done.
  intros k'. rewrite H2, H1. destruct (ShiftType.eqb k' k); lia.
Qed.

Lemma loadShift_ext (f g : string -> Z) (k : ShiftType.t) (l l' : gmap string Load.t) :
  (forall e, f e = g e) -> loadShift f k l l' -> loadShift g k l l'.
Proof.
  intros Hfg Hs e. specialize (Hs e). rewrite <- Hfg.
  destruct (l !! e), (l' !! e); done.
Qed.

(** One slot of category [k] going from [from] to [to]. *)
Lemma two_bumps_shift (l l1 l2 : gmap string Load.t) (from to : string)
      (k : ShiftType.t) (h1 h2 : Z) :
  bumpLoad l from k (-1) h1 = Ok l1 ->
  bumpLoad l1 to k 1 h2 = Ok l2 ->
  loadShift (fun e => at_ to e - at_ from e) k l l2.
Proof.
  intros H1 H2.
  eapply loadShift_ext;
    [| exact (loadShift_trans _ _ _ _ _ _ (bumpLoad_shift _ _ _ _ _ _ H1)
                              (bumpLoad_shift _ _ _ _ _ _ H2))].
  intros e. unfold at_. simpl. destruct (String.eqb e from), (String.eqb e to); lia.
Qed.

(** *** The optimizer *)

Lemma trySwap_shift (targets : Targets.t) (st st' : Scheduler)
      (l l' : gmap string Load.t) (i : nat) (slot : Slot.t)
      (currentPerson person : Person.t) (currentCost : Z) :
  trySwap targets st l i slot currentPerson currentCost person = Ok (Some (st', l')) ->
  Person.email person <> Person.email currentPerson
  /\ (exists newPersonLoad,
        l !! Person.email person = Some newPersonLoad
        /\ Load.get newPersonLoad (getShiftTypeKey slot)
           < Target.max (Targets.get targets (getShiftTypeKey slot)))
  /\ loadShift (fun e => at_ (Person.email person) e - at_ (Person.email currentPerson) e)
               (getShiftTypeKey slot) l l'.
Proof.
  intros Hswap. unfold trySwap in Hswap.
  destruct (String.eqb_spec (Person.email person) (Person.email currentPerson))
    as [| Hne]; [discriminate |].
  apply bind_Ok_inv in Hswap as (newPersonLoad & Hnew%deref_Ok_inv & Hswap).
  destruct (Z.leb_spec (Target.max (Targets.get targets (getShiftTypeKey slot)))
                       (Load.get newPersonLoad (getShiftTypeKey slot)));
    [discriminate |].
  destruct (negb _ && _); [discriminate |].
  destruct (0 <? _)%nat; [discriminate |].
  apply bind_Ok_inv in Hswap as (swapCost & _ & Hswap).
  destruct (swapCost <? _); [| discriminate].
  apply bind_Ok_inv in Hswap as (l1 & Hb1 & Hswap).
  apply bind_Ok_inv in Hswap as (l2 & Hb2 & Hswap).
  injection Hswap as _ <-.
  split; [exact Hne |]. split; [eauto |]. by eapply two_bumps_shift.
Qed.

Lemma keepsTargets_refl (targets : Targets.t) (l : gmap string Load.t) :
  keepsTargets targets l l.
Proof. intros e rec Hrec. exists rec. split; [done |]. intros k. tauto. Qed.

Lemma keepsTargets_trans (targets : Targets.t) (l l1 l2 : gmap string Load.t) :
  keepsTargets targets l l1 -> keepsTargets targets l1 l2 -> keepsTargets targets l l2.
Proof.
  intros H1 H2 e rec2 Hrec2.
  destruct (H2 e rec2 Hrec2) as (rec1 & Hrec1 & H12).
  destruct (H1 e rec1 Hrec1) as (rec & Hrec & H01).
  exists rec. split; [done |]. intros k.
  destruct (H12 k) as [Ha Hb]. destruct (H01 k) as [Hc Hd]. split; auto.
Qed.

Lemma optimizeSlot_keeps (targets : Targets.t) (st st' : Scheduler)
      (l l' : gmap string Load.t) (i : nat) (slot : Slot.t) (swapped : bool) :
  optimizeSlot targets st l i slot = Ok (st', l', swapped) ->
  keepsTargets targets l l'.
Proof.
  intros Hopt. unfold optimizeSlot in Hopt.
  apply bind_Ok_inv in Hopt as (cur & _ & Hopt).
  apply bind_Ok_inv in Hopt as (curLoad & Hcur%deref_Ok_inv & Hopt).
  set (k := getShiftTypeKey slot) in *.
  destruct (Z.leb_spec (Load.get curLoad k) (Target.min (Targets.get targets k)))
    as [| Habove].
  { injection Hopt as _ <- _. apply keepsTargets_refl. }
  apply bind_Ok_inv in Hopt as (cost & _ & Hopt).
  apply bind_Ok_inv in Hopt as (r & Hfirst & Hopt).
  destruct r as [[st1 l1]|]; injection Hopt as _ <- _; [| apply keepsTargets_refl].
  apply firstR_Some_inv in Hfirst as (person & _ & Hswap).
  destruct (trySwap_shift _ _ _ _ _ _ _ _ _ _ Hswap)
    as (Hne & (newLoad & Hnew & Hbelow) & Hshift).
  fold k in Hbelow, Hshift.
  intros e rec' Hrec'. specialize (Hshift e). rewrite Hrec' in Hshift.
  destruct (l !! e) as [rec|] eqn:Hrec; [| done].
  exists rec. split; [done |]. intros k'. rewrite (Hshift k'). unfold at_.
  destruct (ShiftType_eqb_eq k' k) as [Hk _].
  destruct (ShiftType.eqb k' k); [specialize (Hk eq_refl) as -> | lia].
  destruct (String.eqb_spec e (Person.email person)) as [He1 | He1];
    destruct (String.eqb_spec e (Person.email cur)) as [He2 | He2];
    try congruence.
  - rewrite He1, Hnew in Hrec. injection Hrec as <-. lia.
  - rewrite He2, Hcur in Hrec. injection Hrec as <-. lia.
  - lia.
Qed.

Lemma optimizePass_keeps (targets : Targets.t) (n i : nat) (st st' : Scheduler)
      (l l' : gmap string Load.t) (improved improved' : bool) :
  optimizePass targets n i st l improved = Ok (st', l', improved') ->
  keepsTargets targets l l'.
Proof.
  revert i st l improved. induction n as [|n IH]; cbn [optimizePass];
    intros i st l improved Hpass.
  - injection Hpass as _ <- _. apply keepsTargets_refl.
  - destruct (schedule st !! i) as [slot|].
    + apply bind_Ok_inv in Hpass as ([[st1 l1] swapped] & Hopt & Hpass).
      eapply keepsTargets_trans; [by eapply optimizeSlot_keeps | by eapply IH].
    + injection Hpass as _ <- _. apply keepsTargets_refl.
Qed.

(** X16.  The optimizer keeps the promise of its comment, never to violate the
    fairness constraints: whoever was at or below the maximum of a
    category before [optimizeWithSwaps] is so afterwards, and whoever was
    at or above the minimum stays at or above it. *)
Theorem optimizeWithSwaps_keeps_targets (targets : Targets.t) (st st' : Scheduler)
        (l l' : gmap string Load.t) :
  optimizeWithSwaps targets st l = Ok (st', l') -> keepsTargets targets l l'.
Proof.
  unfold optimizeWithSwaps. generalize 100%nat. intros fuel. revert st l.
  induction fuel as [|fuel IH]; cbn [optimizeLoop]; intros st l Hloop.
  - injection Hloop as _ <-. apply keepsTargets_refl.
  - apply bind_Ok_inv in Hloop as ([[st1 l1] improved] & Hpass & Hloop).
    apply optimizePass_keeps in Hpass. destruct improved.
    + eapply keepsTargets_trans; [exact Hpass | by eapply IH].
    + by injection Hloop as _ <-.
Qed.

Lemma optimizeWithSwaps_keeps_targets_witness :
  exists st' l',
    optimizeWithSwaps (@calculateTargetShifts sampleHost lopsided) lopsided lopsidedLoad
    = Ok (st', l')
    /\ keepsTargets (@calculateTargetShifts sampleHost lopsided) lopsidedLoad l'.
Proof.
  eexists _, _.
  match goal with |- ?A /\ _ => assert (Hrun : A) by (vm_compute; reflexivity) end.
  split; [exact Hrun |].
  exact (optimizeWithSwaps_keeps_targets _ _ _ _ _ Hrun).
Defined.

(** *** The balancer *)

Lemma tryTransfer_shift (shiftType : ShiftType.t) (recipients : list Person.t)
      (st st' : Scheduler) (l l' : gmap string Load.t) (fromPerson : Person.t)
      (islot : nat * Slot.t) :
  tryTransfer shiftType recipients st l fromPerson islot = Ok (Some (st', l')) ->
  exists toPerson,
    toPerson ∈ recipients
    /\ loadShift (fun e => at_ (Person.email toPerson) e - at_ (Person.email fromPerson) e)
                 shiftType l l'.
Proof.
  destruct islot as [i slot]. intros Ht. unfold tryTransfer in Ht.
  set (cands := stableSort _ _) in Ht.
  set (pick := match List.find _ cands with Some p => Some p | None => head cands end) in Ht.
  destruct pick as [toPerson|] eqn:Hpick; [| discriminate].
  assert (Hin : toPerson ∈ cands).
  { unfold pick in Hpick. destruct (List.find _ cands) as [p|] eqn:Hfind.
    - injection Hpick as ->. apply find_some in Hfind as [Hin _].
      by apply list_elem_of_In.
    - by apply head_elem. }
  unfold cands in Hin. rewrite stableSort_elem in Hin.
  apply list_elem_of_In, filter_In in Hin as [Hin _]. apply list_elem_of_In in Hin.
  apply bind_Ok_inv in Ht as (l1 & Hb1 & Ht).
  apply bind_Ok_inv in Ht as (l2 & Hb2 & Ht). injection Ht as _ <-.
  exists toPerson. split; [exact Hin | by eapply two_bumps_shift].
Qed.

Lemma tryTriangle_shift (shiftType : ShiftType.t) (recipients : list Person.t)
      (st st' : Scheduler) (l l' : gmap string Load.t) (donor intermediary : Person.t)
      (idonorSlot iintSlot : nat * Slot.t) :
  tryTriangle shiftType recipients st l donor idonorSlot intermediary iintSlot
  = Ok (Some (st', l')) ->
  exists recipient,
    recipient ∈ recipients
    /\ loadShift (fun e => at_ (Person.email recipient) e - at_ (Person.email donor) e)
                 shiftType l l'.
Proof.
  destruct idonorSlot as [di donorSlot]. destruct iintSlot as [ii intSlot].
  intros Ht. unfold tryTriangle in Ht.
  destruct (List.find _ recipients) as [recipient|] eqn:Hfind; [| discriminate].
  apply find_some in Hfind as [Hrin _]. apply list_elem_of_In in Hrin.
  apply bind_Ok_inv in Ht as (l1 & Hb1 & Ht).
  apply bind_Ok_inv in Ht as (l2 & Hb2 & Ht).
  apply bind_Ok_inv in Ht as (l3 & Hb3 & Ht).
  apply bind_Ok_inv in Ht as (l4 & Hb4 & Ht). injection Ht as _ <-.
  exists recipient. split; [exact Hrin |].
  eapply loadShift_ext;
    [| exact (loadShift_trans _ _ _ _ _ _ (two_bumps_shift _ _ _ _ _ _ _ _ Hb1 Hb2)
                              (two_bumps_shift _ _ _ _ _ _ _ _ Hb3 Hb4))].
  intros e. simpl. lia.
Qed.

(** One turn of the balancer's loop that changes something: a person with
    the highest count of the category gives one shift of it, a person
    with the lowest count receives one, the two counts being at least 2
    apart; every other counter stays. *)
Lemma balanceStep_shift (shiftType : ShiftType.t) (st st' : Scheduler)
      (l l' : gmap string Load.t) :
  balanceStep shiftType st l = Ok (Some (st', l')) ->
  exists donor recipient donorLoad recipientLoad,
    donor ∈ people st /\ recipient ∈ people st
    /\ l !! Person.email donor = Some donorLoad
    /\ l !! Person.email recipient = Some recipientLoad
    /\ Load.get recipientLoad shiftType + 1 < Load.get donorLoad shiftType
    /\ (forall p, p ∈ people st ->
          exists pl, l !! Person.email p = Some pl
                     /\ Load.get recipientLoad shiftType <= Load.get pl shiftType
                        <= Load.get donorLoad shiftType)
    /\ loadShift (fun e => at_ (Person.email recipient) e - at_ (Person.email donor) e)
                 shiftType l l'.
Proof.
  intros Hb. unfold balanceStep in Hb.
  apply bind_Ok_inv in Hb as (counts & Hcounts & Hb).
  destruct counts as [|[p0 c0] cs] eqn:Hc; [discriminate |]. rewrite <- Hc in *.
  set (minCount := minList c0 (snd <$> cs)) in *.
  set (maxCount := maxList c0 (snd <$> cs)) in *.
  destruct (Z.leb_spec (maxCount - minCount) 1) as [| Hgap]; [discriminate |].
  set (donors := fst <$> List.filter (fun pc => snd pc =? maxCount) counts) in *.
  set (recipients := fst <$> List.filter (fun pc => snd pc =? minCount) counts) in *.
  pose proof (mapR_Ok_Forall2 _ _ _ Hcounts) as Hf2.
  assert (Hcount : forall p c, (p, c) ∈ counts ->
            p ∈ people st
            /\ exists pl, l !! Person.email p = Some pl /\ c = Load.get pl shiftType).
  { intros p c [j Hj]%list_elem_of_lookup.
    destruct (Forall2_lookup_r _ _ _ _ _ Hf2 Hj) as (q & Hqj & Hq).
    apply bind_Ok_inv in Hq as (pl & Hpl%deref_Ok_inv & Hq).
    injection Hq as <- <-. split; [apply list_elem_of_lookup |]; eauto. }
  assert (Hall : forall p, p ∈ people st ->
            exists pl, l !! Person.email p = Some pl
                       /\ minCount <= Load.get pl shiftType <= maxCount).
  { intros p [j Hj]%list_elem_of_lookup.
    destruct (Forall2_lookup_l _ _ _ _ _ Hf2 Hj) as ([q c] & Hqc & Hq).
    apply bind_Ok_inv in Hq as (pl & Hpl%deref_Ok_inv & Hq).
    injection Hq as <- <-. exists pl. split; [done |].
    assert (Hin : Load.get pl shiftType ∈ c0 :: (snd <$> cs)).
    { replace (c0 :: (snd <$> cs)) with (snd <$> counts) by (by rewrite Hc).
      apply list_elem_of_fmap. exists (p, Load.get pl shiftType).
      split; [done |]. apply list_elem_of_lookup. eauto. }
    split; [by apply minList_le | by apply maxList_ge]. }
  assert (Hpick : forall c p, p ∈ fst <$> List.filter (fun pc => snd pc =? c) counts ->
            p ∈ people st
            /\ exists pl, l !! Person.email p = Some pl /\ Load.get pl shiftType = c).
  { intros c p ([q c'] & -> & Hin)%list_elem_of_fmap.
    apply list_elem_of_In, filter_In in Hin as [Hin Heq]. simpl in Heq.
    apply Z.eqb_eq in Heq as ->. apply list_elem_of_In in Hin.
    destruct (Hcount _ _ Hin) as (Hq & pl & Hpl & ->). eauto. }
  assert (Hdone : forall donor recipient,
            donor ∈ donors -> recipient ∈ recipients ->
            loadShift (fun e => at_ (Person.email recipient) e - at_ (Person.email donor) e)
                      shiftType l l' ->
            exists donor recipient donorLoad recipientLoad,
              donor ∈ people st /\ recipient ∈ people st
              /\ l !! Person.email donor = Some donorLoad
              /\ l !! Person.email recipient = Some recipientLoad
              /\ Load.get recipientLoad shiftType + 1 < Load.get donorLoad shiftType
              /\ (forall p, p ∈ people st ->
                    exists pl, l !! Person.email p = Some pl
                               /\ Load.get recipientLoad shiftType <= Load.get pl shiftType
                                  <= Load.get donorLoad shiftType)
              /\ loadShift (fun e => at_ (Person.email recipient) e
                                     - at_ (Person.email donor) e) shiftType l l').
  { intros donor recipient Hd Hr Hshift.
    destruct (Hpick _ _ Hd) as (Hdp & dl & Hdl & Hdc).
    destruct (Hpick _ _ Hr) as (Hrp & rl & Hrl & Hrc).
    exists donor, recipient, dl, rl. rewrite Hdc, Hrc.
    split_and!; [done | done | done | done | lia | exact Hall | exact Hshift]. }
  apply bind_Ok_inv in Hb as (r & Hdirect & Hb). destruct r as [[st1 l1]|].
  - injection Hb as _ <-. unfold directTransfer in Hdirect.
    apply firstR_Some_inv in Hdirect as (fromPerson & Hfrom & Hdirect).
    apply firstR_Some_inv in Hdirect as (islot & _ & Hdirect).
    destruct (tryTransfer_shift _ _ _ _ _ _ _ _ Hdirect) as (toPerson & Hto & Hshift).
    by apply (Hdone fromPerson toPerson).
  - unfold triangleSwap in Hb.
    apply firstR_Some_inv in Hb as (donor & Hdonor & Hb).
    apply firstR_Some_inv in Hb as (idonorSlot & _ & Hb).
    apply bind_Ok_inv in Hb as (intermediaries & _ & Hb).
    apply firstR_Some_inv in Hb as (intermediary & _ & Hb).
    destruct (0 <? _)%nat; [discriminate |].
    apply firstR_Some_inv in Hb as (iintSlot & _ & Hb).
    destruct (tryTriangle_shift _ _ _ _ _ _ _ _ _ _ Hb) as (recipient & Hr & Hshift).
    by apply (Hdone donor recipient).
Qed.

Lemma balanceStep_within (shiftType : ShiftType.t) (st st' : Scheduler)
      (l l' : gmap string Load.t) (k : ShiftType.t) (lo hi : Z) :
  balanceStep shiftType st l = Ok (Some (st', l')) ->
  countsWithin (people st) l k lo hi -> countsWithin (people st) l' k lo hi.
Proof.
  intros (donor & recipient & dl & rl & Hdp & Hrp & Hdl & Hrl & Hgap & Hall & Hshift)
           %balanceStep_shift Hwithin p Hp.
  destruct (Hwithin p Hp) as (pl & Hpl & Hbounds).
  destruct (Hall p Hp) as (pl0 & Hpl0 & Hmid). rewrite Hpl in Hpl0. injection Hpl0 as <-.
  specialize (Hshift (Person.email p)). rewrite Hpl in Hshift.
  destruct (l' !! Person.email p) as [pl'|]; [| done].
  exists pl'. split; [reflexivity |]. rewrite (Hshift k).
  destruct (ShiftType_eqb_eq k shiftType) as [Hk _].
  destruct (ShiftType.eqb k shiftType); [specialize (Hk eq_refl) as -> | lia].
  assert (Hlo : lo <= Load.get rl shiftType).
  { destruct (Hwithin recipient Hrp) as (x & Hx & ?). rewrite Hrl in Hx.
    injection Hx as <-. lia. }
  assert (Hhi : Load.get dl shiftType <= hi).
  { destruct (Hwithin donor Hdp) as (x & Hx & ?). rewrite Hdl in Hx.
    injection Hx as <-. lia. }
  unfold at_.
  destruct (String.eqb_spec (Person.email p) (Person.email recipient)) as [He1 | He1];
    destruct (String.eqb_spec (Person.email p) (Person.email donor)) as [He2 | He2].
  - lia.
  - rewrite He1, Hrl in Hpl. injection Hpl as <-. lia.
  - rewrite He2, Hdl in Hpl. injection Hpl as <-. lia.
  - lia.
Qed.

Lemma balanceLoop_within (shiftType : ShiftType.t) (fuel : nat) (st st' : Scheduler)
      (l l' : gmap string Load.t) (k : ShiftType.t) (lo hi : Z) :
  balanceLoop shiftType fuel st l = Ok (st', l') ->
  countsWithin (people st) l k lo hi ->
  people st' = people st /\ countsWithin (people st) l' k lo hi.
Proof.
  revert st l. induction fuel as [|fuel IH]; cbn [balanceLoop]; intros st l Hloop Hw.
  - by injection Hloop as <- <-.
  - apply bind_Ok_inv in Hloop as (r & Hstep & Hloop). destruct r as [[st1 l1]|].
    + destruct (Moves_fields _ _ _ _ (balanceStep_moves _ _ _ _ _ Hstep)) as (Hp & _).
      pose proof (balanceStep_within _ _ _ _ _ _ _ _ Hstep Hw) as Hw1.
      rewrite <- Hp in Hw1. destruct (IH _ _ Hloop Hw1) as [Hp' Hw'].
      rewrite Hp in Hw'. split; [congruence | exact Hw'].
    + by injection Hloop as <- <-.
Qed.

(** X17.  The balancer never widens the spread of a category: bounds that hold
    for everybody's count of a category before [balanceShifts] hold
    afterwards, whatever category it is working on. *)
Theorem balanceShifts_never_widens (st st' : Scheduler) (l l' : gmap string Load.t)
        (k : ShiftType.t) (lo hi : Z) :
  balanceShifts st l = Ok (st', l') ->
  countsWithin (people st) l k lo hi ->
  countsWithin (people st') l' k lo hi.
Proof.
  unfold balanceShifts. generalize ShiftType.all. intros shiftTypes. revert st l.
  induction shiftTypes as [|shiftType rest IH]; cbn [balanceTypes]; intros st l Hb Hw.
  - by injection Hb as <- <-.
  - apply bind_Ok_inv in Hb as ([st1 l1] & Hloop & Hb).
    destruct (balanceLoop_within _ _ _ _ _ _ _ _ _ Hloop Hw) as [Hp Hw1].
    rewrite <- Hp in Hw1. exact (IH _ _ Hb Hw1).
Qed.

Lemma lopsided_within :
  countsWithin (people lopsided) lopsidedLoad ShiftType.weekday_primary 0 3.
Proof.
  intros p Hp. apply list_elem_of_In in Hp.
  destruct Hp as [<- | [<- | []]]; eexists; (split; [vm_compute; reflexivity |]);
    vm_compute; split; congruence.
Defined.

Lemma balanceShifts_never_widens_witness :
  exists st' l',
    balanceShifts lopsided lopsidedLoad = Ok (st', l')
    /\ countsWithin (people st') l' ShiftType.weekday_primary 0 3.
Proof.
  eexists _, _.
  match goal with |- ?A /\ _ => assert (Hrun : A) by (vm_compute; reflexivity) end.
  split; [exact Hrun |].
  exact (balanceShifts_never_widens _ _ _ _ _ _ _ Hrun lopsided_within).
Defined.

(** ** Whom the fill picks *)

Lemma strictCandidate_true (st : Scheduler) (l : gmap string Load.t) (target : Target.t)
      (slot : Slot.t) (p : Person.t) (pl : Load.t) :
  l !! Person.email p = Some pl ->
  getSameDayShifts st p slot = [] ->
  Load.get pl (getShiftTypeKey slot) < Target.max target ->
  Load.get pl (getShiftTypeKey slot) < Target.min target \/ canAssign st p slot = true ->
  strictCandidate st l target slot p = Ok true.
Proof.
  intros Hpl Hfree Hmax Hok. unfold strictCandidate. rewrite Hpl. simpl.
  destruct (Z.leb_spec (Target.max target) (Load.get pl (getShiftTypeKey slot))); [lia |].
  rewrite Hfree. simpl.
  destruct (Z.ltb_spec (Load.get pl (getShiftTypeKey slot)) (Target.min target));
    [reflexivity |].
  destruct Hok as [? | ->]; [lia | reflexivity].
Qed.

(** X14.  The fill puts fairness first: the person [assignSlot] gives a slot to
    has, in the category of the slot, no more shifts than anybody else
    who is free that day, below the category maximum, and either below
    the category minimum or not unwilling; and when there is no such
    person, no more than anybody else who is free that day. *)
Theorem assignSlot_least_loaded (targets : Targets.t) (st st' : Scheduler)
        (l l' : gmap string Load.t) (slot : Slot.t) :
  let k := getShiftTypeKey slot in
  let target := Targets.get targets k in
  assignSlot targets st l slot = Ok (st', l') ->
  exists best bestLoad slot',
    schedule st' = schedule st ++ [slot']
    /\ Slot.assignedPerson slot' = Some best
    /\ best ∈ people st
    /\ l !! Person.email best = Some bestLoad
    /\ (forall p pl,
          p ∈ people st -> l !! Person.email p = Some pl ->
          getSameDayShifts st p slot = [] ->
          Load.get pl k < Target.max target ->
          Load.get pl k < Target.min target \/ canAssign st p slot = true ->
          Load.get bestLoad k <= Load.get pl k)
    /\ (strictPool st l target slot = Ok [] ->
        forall p pl,
          p ∈ people st -> l !! Person.email p = Some pl ->
          getSameDayShifts st p slot = [] ->
          Load.get bestLoad k <= Load.get pl k).
Proof.
  intros k target Ha. unfold assignSlot in Ha. fold k target in Ha.
  apply bind_Ok_inv in Ha as ([candidates slot1] & Hpool & Ha).
  apply bind_Ok_inv in Ha as (counts & Hcounts & Ha).
  apply bind_Ok_inv in Ha as (fair & Hfair & Ha).
  apply bind_Ok_inv in Ha as (best & Hhead%deref_Ok_inv & Ha).
  apply bind_Ok_inv in Ha as (l1 & Hbump & Ha). injection Ha as <- <-.
  set (m := match counts with c :: cs => minList c cs | [] => 0 end) in *.
  assert (Hbest : rPerson best ∈ fair).
  { apply head_elem in Hhead.
    rewrite <- (rankCandidates_perm st slot1 fair). by apply list_elem_of_fmap_2. }
  destruct (filterR_Ok_elem _ _ _ _ Hfair Hbest) as [Hbc Hbmin].
  apply bind_Ok_inv in Hbmin as (bl & Hbl%deref_Ok_inv & Hbmin).
  injection Hbmin as Hbmin. apply Z.eqb_eq in Hbmin.
  pose proof (mapR_Ok_Forall2 _ _ _ Hcounts) as Hf2.
  assert (Hmin : forall p pl, p ∈ candidates -> l !! Person.email p = Some pl ->
                   Load.get bl k <= Load.get pl k).
  { intros p pl [j Hj]%list_elem_of_lookup Hpl.
    destruct (Forall2_lookup_l _ _ _ _ _ Hf2 Hj) as (c & Hc & Hpc).
    rewrite Hpl in Hpc. injection Hpc as <-. rewrite Hbmin. unfold m.
    destruct counts as [|c0 cs]; [by rewrite lookup_nil in Hc |].
    apply minList_le. apply list_elem_of_lookup. eauto. }
  destruct (candidatePool_inv _ _ _ _ _ _ Hpool) as [_ Hcands].
  exists (rPerson best), bl, (Slot.setAssigned slot1 (rPerson best) None).
  split_and!; [reflexivity | reflexivity | by apply Hcands | exact Hbl | |].
  - intros p pl Hp Hpl Hfree Hmax Hok. apply (Hmin p pl); [| exact Hpl].
    pose proof (strictCandidate_true st l target slot p pl Hpl Hfree Hmax Hok) as Hsc.
    unfold candidatePool in Hpool.
    apply bind_Ok_inv in Hpool as (pool & Hstrict & Hpool).
    pose proof (filterR_Ok_keep _ _ _ p Hstrict Hp Hsc) as Hin.
    destruct pool as [|q qs]; [inversion Hin |]. by injection Hpool as <- _.
  - intros Hempty p pl Hp Hpl Hfree. apply (Hmin p pl); [| exact Hpl].
    unfold candidatePool in Hpool. rewrite Hempty in Hpool. simpl in Hpool.
    destruct (List.filter (freeThatDay st slot) (people st)) as [|q qs] eqn:Hlast;
      [discriminate |].
    injection Hpool as <- _. rewrite <- Hlast.
    apply list_elem_of_In, filter_In. split; [by apply list_elem_of_In |].
    by apply freeThatDay_true.
Qed.

Lemma assignSlot_least_loaded_witness :
  exists st' l' best bestLoad,
    assignSlot oneSlotForTwo bothReluctant (initializeLoad bothReluctant) mondaySlot
    = Ok (st', l')
    /\ best ∈ people bothReluctant
    /\ initializeLoad bothReluctant !! Person.email best = Some bestLoad.
Proof.
  assert (Hrun : exists st' l',
            assignSlot oneSlotForTwo bothReluctant (initializeLoad bothReluctant) mondaySlot
            = Ok (st', l')).
  { eexists _, _. vm_compute. reflexivity. }
  destruct Hrun as (st' & l' & Hrun). exists st', l'.
  destruct (assignSlot_least_loaded _ _ _ _ _ _ Hrun)
    as (best & bestLoad & slot' & _ & _ & Hin & Hload & _).
  exists best, bestLoad. split_and!; done.
Defined.

(** ** The fairness report of a completed run *)

Lemma sumZ_add {A} (f g : A -> Z) (l : list A) :
  sumZ ((fun x => f x + g x) <$> l) = sumZ (f <$> l) + sumZ (g <$> l).
Proof. unfold sumZ. induction l as [|x l IH]; csimpl; lia. Qed.

Lemma sumZ_zero {A} (f : A -> Z) (l : list A) :
  (forall x, x ∈ l -> f x = 0) -> sumZ (f <$> l) = 0.
Proof.
  unfold sumZ. induction l as [|x l IH]; csimpl; intros Hall; [reflexivity |].
  rewrite (Hall x) by left. rewrite IH; [lia |]. intros y Hy. apply Hall. by right.
Qed.

Lemma sumZ_Forall2 {A B} (f : A -> Z) (g : B -> Z) (l : list A) (l' : list B) :
  Forall2 (fun x y => f x = g y) l l' -> sumZ (f <$> l) = sumZ (g <$> l').
Proof. unfold sumZ. induction 1 as [|x y l l' Hxy _ IH]; csimpl; congruence. Qed.

(** Among pairwise different addresses exactly one is the given one. *)
Lemma sumZ_one_holder (ps : list Person.t) (q : Person.t) (v : Z) :
  NoDup (Person.email <$> ps) -> q ∈ ps ->
  sumZ ((fun p => if String.eqb (Person.email q) (Person.email p) then v else 0) <$> ps)
  = v.
Proof.
  unfold sumZ. induction ps as [|p ps IH]; csimpl; intros Hnd Hq; [inversion Hq |].
  apply NoDup_cons in Hnd as [Hp Hnd].
  destruct (String.eqb_spec (Person.email q) (Person.email p)) as [Heq | Hne].
  - fold (sumZ ((fun p0 => if String.eqb (Person.email q) (Person.email p0) then v else 0)
                  <$> ps)).
    rewrite sumZ_zero; [lia |]. intros x Hx.
    destruct (String.eqb_spec (Person.email q) (Person.email x)) as [Heq' | _];
      [| reflexivity].
    exfalso. apply Hp. rewrite <- Heq, Heq'. by apply list_elem_of_fmap_2.
  - apply elem_of_cons in Hq as [-> | Hq]; [done |]. rewrite IH by done. lia.
Qed.

(** With pairwise different addresses and every slot held by somebody of
    the roster, the counts of a category add up to its slots. *)
Lemma roster_sum (ps : list Person.t) (k : ShiftType.t) (sch : list Slot.t) :
  NoDup (Person.email <$> ps) ->
  (forall s, s ∈ sch -> exists p, Slot.assignedPerson s = Some p /\ p ∈ ps) ->
  sumZ ((fun p => shiftCount (Person.email p) k sch) <$> ps) = slotsIn k sch.
Proof.
  intros Hnd. induction sch as [|s sch IH]; intros Hheld.
  - unfold shiftCount, slotsIn. simpl. by apply sumZ_zero.
  - destruct (Hheld s) as (q & Hq & Hin); [left |].
    assert (Hstep : forall e, shiftCount e k (s :: sch)
              = (if String.eqb (Person.email q) e
                 then (if ShiftType.eqb (getShiftTypeKey s) k then 1 else 0) else 0)
                + shiftCount e k sch).
    { intros e. unfold shiftCount. simpl. rewrite (assignedTo_eq _ _ _ Hq).
      destruct (String.eqb (Person.email q) e); simpl; [| lia].
      destruct (ShiftType.eqb (getShiftTypeKey s) k); simpl; lia. }
    erewrite list_fmap_ext; [| intros i p _; apply Hstep].
    rewrite (sumZ_add (fun p => if String.eqb (Person.email q) (Person.email p)
                                then (if ShiftType.eqb (getShiftTypeKey s) k then 1 else 0)
                                else 0)
                      (fun p => shiftCount (Person.email p) k sch)).
    rewrite sumZ_one_holder by done. rewrite IH.
    + unfold slotsIn. simpl. destruct (ShiftType.eqb (getShiftTypeKey s) k); simpl; lia.
    + intros x Hx. apply Hheld. by right.
Qed.

Lemma slotsIn_bare (k : ShiftType.t) (sch : list Slot.t) :
  slotsIn k (bareSlot <$> sch) = slotsIn k sch.
Proof.
  unfold slotsIn. f_equal. induction sch as [|s sch IH]; csimpl; [reflexivity |].
  change (getShiftTypeKey (bareSlot s)) with (getShiftTypeKey s).
  destruct (ShiftType.eqb (getShiftTypeKey s) k); simpl; by rewrite IH.
Qed.

Lemma slotsIn_app (k : ShiftType.t) (a b : list Slot.t) :
  slotsIn k (a ++ b) = slotsIn k a + slotsIn k b.
Proof. unfold slotsIn. rewrite List.filter_app, length_app. lia. Qed.

Lemma slotsIn_block (k : ShiftType.t) (d : JS.Date) (ds : string) (r : Role) (w : bool)
      (n : Z) :
  slotsIn k (mkSlot d ds r w <$> seqZ 0 n)
  = if ShiftType.eqb (getShiftTypeKey (mkSlot d ds r w 0)) k then Z.max 0 n else 0.
Proof.
  unfold slotsIn.
  assert (Hlen : forall l : list Z,
            length (List.filter (fun s => ShiftType.eqb (getShiftTypeKey s) k)
                                (mkSlot d ds r w <$> l))
            = if ShiftType.eqb (getShiftTypeKey (mkSlot d ds r w 0)) k
              then length l else 0%nat).
  { induction l as [|i l IH]; csimpl.
    - by destruct (ShiftType.eqb _ k).
    - change (getShiftTypeKey (mkSlot d ds r w i))
        with (getShiftTypeKey (mkSlot d ds r w 0)).
      destruct (ShiftType.eqb _ k); simpl; by rewrite IH. }
  rewrite Hlen, length_seqZ. destruct (ShiftType.eqb _ k); lia.
Qed.

(** The slots of a category, counted: the total of [calculateTargetShifts]. *)
Lemma slotsIn_generateSlots `{HostEnv} (st : Scheduler) (k : ShiftType.t) :
  0 <= primaryCount st -> 0 <= secondaryCount st ->
  slotsIn k (generateSlots st) = Target.total (Targets.get (calculateTargetShifts st) k).
Proof.
  intros HP HS. unfold generateSlots, calculateTargetShifts.
  generalize (generateDates st). intros dates.
  induction dates as [|d dates IH]; csimpl.
  - unfold slotsIn. by destruct k.
  - rewrite slotsIn_app, IH. unfold slotsOfDate.
    rewrite slotsIn_app, !slotsIn_block. clear IH.
    destruct (isWeekendNight d), k; simpl; lia.
Qed.

Lemma report_rows `{HostEnv} (st : Scheduler) (l : gmap string Load.t)
      (report : FairnessReport.t) :
  generateFairnessReport st l = Ok report ->
  Forall2 (fun p r => PersonReport.name r = Person.name p
                      /\ PersonReport.email r = Person.email p
                      /\ PersonReport.totalShifts r
                         = Z.of_nat (length (List.filter (assignedTo (Person.email p))
                                                         (schedule st)))
                      /\ PersonReport.preferredAssignments r
                         + PersonReport.indifferentAssignments r
                         + PersonReport.notPreferredAssignments r
                         = PersonReport.totalShifts r)
          (people st) (FairnessReport.byPerson report).
Proof.
  intros Hrep. unfold generateFairnessReport in Hrep.
  apply bind_Ok_inv in Hrep as (rows & Hrows & Hrep). injection Hrep as <-. simpl.
  eapply Forall2_impl; [exact (mapR_Ok_Forall2 _ _ _ Hrows) |].
  intros p r Hpr. unfold personReport in Hpr.
  apply bind_Ok_inv in Hpr as (kinds & Hkinds & Hpr).
  apply bind_Ok_inv in Hpr as (pl & _ & Hpr). injection Hpr as <-. simpl.
  split_and!; try reflexivity.
  pose proof (mapR_Ok_Forall2 _ _ _ Hkinds) as Hf2.
  rewrite (Forall2_length _ _ _ Hf2).
  assert (Hvals : Forall (fun x => x = 0 \/ x = 1 \/ x = 2)%nat kinds).
  { apply Forall_forall. intros x [j Hj]%list_elem_of_lookup.
    destruct (Forall2_lookup_r _ _ _ _ _ Hf2 Hj) as (s & _ & Hs).
    apply bind_Ok_inv in Hs as (prefs & _ & Hs). injection Hs as <-.
    repeat case_bool_decide; auto. }
  clear Hf2 Hkinds. induction Hvals as [|x xs Hx _ IH]; [reflexivity |].
  simpl. destruct Hx as [-> | [-> | ->]]; simpl; lia.
Qed.

(** X19.  In the report of a completed run over a roster with pairwise
    different addresses, the counts of each category add up, over the
    rows, to the total that [calculateTargetShifts] gives for the
    category: days of that kind times slots of that role a night. *)
Theorem report_adds_up `{HostEnv} (st st' : Scheduler) (out : Output)
        (k : ShiftType.t) :
  NoDup (Person.email <$> people st) ->
  0 <= primaryCount st -> 0 <= secondaryCount st ->
  generateSchedule st = (Ok out, st') ->
  sumZ ((fun r => reportCount r k) <$> FairnessReport.byPerson (fairnessReport out))
  = Target.total (Targets.get (calculateTargetShifts st) k).
Proof.
  intros Hnd HP HS (Hout & Hslots & Hp & _ & Hheld & l & Hlm & Hrep)%generateSchedule_final.
  rewrite <- (slotsIn_generateSlots st k HP HS), <- Hslots, slotsIn_bare.
  rewrite <- (roster_sum (people st) k (schedule st') Hnd Hheld).
  pose proof (generateFairnessReport_counters st' l _ Hlm Hrep) as Hrows.
  pose proof (report_rows st' l _ Hrep) as Hf2. rewrite Hp in Hf2.
  symmetry. apply sumZ_Forall2. apply Forall2_same_length_lookup.
  split; [by eapply Forall2_length |]. intros i p r Hi Hj.
  destruct (Forall2_lookup_lr _ _ _ _ _ _ Hf2 Hi Hj) as (_ & He & _).
  destruct (Hrows r) as [Hc _]; [by eapply list_elem_of_lookup_2 |].
  by rewrite Hc, He.
Qed.

Lemma report_adds_up_witness :
  exists out st',
    @generateSchedule sampleHost sixPeople = (Ok out, st')
    /\ sumZ ((fun r => reportCount r ShiftType.weekday_primary)
               <$> FairnessReport.byPerson (fairnessReport out))
       = 9.
Proof.
  eexists _, _.
  match goal with |- ?A /\ _ => assert (Hrun : A) by (vm_compute; reflexivity) end.
  split; [exact Hrun |].
  assert (Hnd : NoDup (Person.email <$> people sixPeople))
    by (apply (bool_decide_unpack _); vm_compute; exact I).
  assert (HP : 0 <= primaryCount sixPeople) by (vm_compute; congruence).
  assert (HS : 0 <= secondaryCount sixPeople) by (vm_compute; congruence).
  rewrite (@report_adds_up sampleHost sixPeople _ _ ShiftType.weekday_primary
             Hnd HP HS Hrun).
  vm_compute. reflexivity.
Defined.

Lemma filter_assigned_by_key (e : string) (sch : list Slot.t) :
  Z.of_nat (length (List.filter (assignedTo e) sch))
  = shiftCount e ShiftType.weekday_primary sch
    + shiftCount e ShiftType.weekend_primary sch
    + shiftCount e ShiftType.weekday_secondary sch
    + shiftCount e ShiftType.weekend_secondary sch.
Proof.
  unfold shiftCount. induction sch as [|s sch IH]; simpl; [reflexivity |].
  destruct (assignedTo e s); simpl; [| exact IH].
  destruct (getShiftTypeKey s); simpl; lia.
Qed.

Lemma hours_by_key (e : string) (sch : list Slot.t) :
  (forall s, s ∈ sch ->
     Slot.duration s
     = if ShiftType.eqb (getShiftTypeKey s) ShiftType.weekend_primary then 24 else 12) ->
  hoursOf e sch
  = 12 * Z.of_nat (length (List.filter (assignedTo e) sch))
    + 12 * shiftCount e ShiftType.weekend_primary sch.
Proof.
  unfold hoursOf, shiftCount. induction sch as [|s sch IH]; simpl; intros Hdur;
    [reflexivity |].
  assert (IH' := IH (fun x Hx => Hdur x (list_elem_of_further _ _ _ Hx))).
  destruct (assignedTo e s); simpl; [| exact IH'].
  rewrite (Hdur s) by left.
  destruct (ShiftType.eqb (getShiftTypeKey s) ShiftType.weekend_primary); simpl; lia.
Qed.

(** X20.  Every row of the report of a completed run is consistent: the
    person's [totalShifts] is the sum of the four category counts and
    also of the three preference counts, and [totalHours] is twelve hours
    a shift plus twelve more for each weekend primary shift. *)
Theorem report_row_consistent `{HostEnv} (st st' : Scheduler) (out : Output)
        (r : PersonReport.t) :
  generateSchedule st = (Ok out, st') ->
  r ∈ FairnessReport.byPerson (fairnessReport out) ->
  PersonReport.totalShifts r
  = PersonReport.weekdayPrimary r + PersonReport.weekendPrimary r
    + PersonReport.weekdaySecondary r + PersonReport.weekendSecondary r
  /\ PersonReport.totalShifts r
     = PersonReport.preferredAssignments r + PersonReport.indifferentAssignments r
       + PersonReport.notPreferredAssignments r
  /\ PersonReport.totalHours r
     = 12 * PersonReport.totalShifts r + 12 * PersonReport.weekendPrimary r.
Proof.
  intros (Hout & Hslots & Hp & _ & Hheld & l & Hlm & Hrep)%generateSchedule_final Hr.
  destruct (generateFairnessReport_counters st' l _ Hlm Hrep r Hr) as [Hc Hh].
  apply list_elem_of_lookup in Hr as [j Hj].
  destruct (Forall2_lookup_r _ _ _ _ _ (report_rows st' l _ Hrep) Hj)
    as (p & _ & _ & He & Htot & Hprefs).
  assert (Hdur : forall s, s ∈ schedule st' ->
            Slot.duration s
            = if ShiftType.eqb (getShiftTypeKey s) ShiftType.weekend_primary
              then 24 else 12).
  { intros s Hs.
    assert (Hin : bareSlot s ∈ generateSlots st)
      by (rewrite <- Hslots; by apply list_elem_of_fmap_2).
    apply generateSlots_elem in Hin as (d & role & i & _ & _ & Hmk).
    change (Slot.duration s) with (Slot.duration (bareSlot s)).
    change (getShiftTypeKey s) with (getShiftTypeKey (bareSlot s)).
    rewrite Hmk. by destruct role, (isWeekendNight d). }
  rewrite <- He in Htot.
  pose proof (filter_assigned_by_key (PersonReport.email r) (schedule st')) as Hsum.
  pose proof (hours_by_key (PersonReport.email r) _ Hdur) as Hhours.
  pose proof (Hc ShiftType.weekday_primary) as H1.
  pose proof (Hc ShiftType.weekend_primary) as H2.
  pose proof (Hc ShiftType.weekday_secondary) as H3.
  pose proof (Hc ShiftType.weekend_secondary) as H4.
  simpl in H1, H2, H3, H4. lia.
Qed.

Lemma report_row_consistent_witness :
  exists out st' r,
    @generateSchedule sampleHost sixPeople = (Ok out, st')
    /\ r ∈ FairnessReport.byPerson (fairnessReport out)
    /\ PersonReport.totalHours r
       = 12 * PersonReport.totalShifts r + 12 * PersonReport.weekendPrimary r.
Proof.
  eexists _, _, _.
  match goal with |- ?A /\ _ => assert (Hrun : A) by (vm_compute; reflexivity) end.
  match goal with |- _ /\ ?B /\ _ => assert (Hr : B) by apply list_elem_of_here end.
  split; [exact Hrun |]. split; [exact Hr |].
  exact (proj2 (proj2 (@report_row_consistent sampleHost _ _ _ _ Hrun Hr))).
Defined.

(** ** The calendar view *)

Lemma filter_true {A} (f : A -> bool) (l : list A) :
  (forall x, x ∈ l -> f x = true) -> List.filter f l = l.
Proof.
  induction l as [|x l IH]; simpl; intros Hall; [reflexivity |].
  rewrite (Hall x) by left. f_equal. apply IH. intros y Hy. apply Hall. by right.
Qed.

Lemma eventShown_person (email : string) (slot : Slot.t) :
  email <> EmptyString ->
  eventShown (Some email) None slot = assignedTo email slot.
Proof.
  intros Hne. unfold eventShown. simpl.
  apply String.eqb_neq in Hne. rewrite Hne. simpl.
  by destruct (assignedTo email slot).
Qed.

(** X21.  [getCalendarEvents] without a filter, which is what [null] and the
    empty string both mean, shows every slot of the schedule, in order and
    under its identifier, the slots nobody holds included; with a
    person's address it shows the slots that person holds and no other;
    and with a role that is neither [primary] nor [secondary] it shows
    nothing. *)
Theorem getCalendarEvents_filters (st : Scheduler) (filterPerson filterRole : option string)
        (email role : string) :
  (truthy filterPerson = false -> truthy filterRole = false ->
   getCalendarEvents filterPerson filterRole st = eventOf <$> schedule st)
  /\ (email <> EmptyString ->
      getCalendarEvents (Some email) None st
      = eventOf <$> List.filter (assignedTo email) (schedule st))
  /\ (role <> EmptyString -> role <> "primary" -> role <> "secondary" ->
      getCalendarEvents filterPerson (Some role) st = []).
Proof.
  split_and!.
  - intros Hp Hr. unfold getCalendarEvents. f_equal. apply filter_true.
    intros s _. unfold eventShown. by rewrite Hp, Hr.
  - intros Hne. unfold getCalendarEvents. f_equal. apply filter_ext.
    intros s. by apply eventShown_person.
  - intros Hne Hp Hs. unfold getCalendarEvents.
    rewrite filter_nil_all; [reflexivity |]. intros s _. unfold eventShown.
    destruct (truthy filterPerson && _); [reflexivity |]. simpl.
    apply String.eqb_neq in Hne. rewrite Hne. simpl.
    assert (String.eqb (roleName (Slot.role s)) role = false) as ->; [| reflexivity].
    apply String.eqb_neq. destruct (Slot.role s); simpl; congruence.
Qed.

Lemma getCalendarEvents_filters_witness :
  getCalendarEvents (Some EmptyString) None oneUnassigned
  = eventOf <$> schedule oneUnassigned.
Proof.
  apply (proj1 (getCalendarEvents_filters oneUnassigned (Some EmptyString) None "x" "y"));
    reflexivity.
Defined.

(** X22.  The calendar and the report agree: filtered to the address of a row of
    the report, the calendar of a completed run shows as many events as
    the row counts shifts. *)
Theorem calendar_matches_report `{HostEnv} (st st' : Scheduler) (out : Output)
        (r : PersonReport.t) :
  generateSchedule st = (Ok out, st') ->
  r ∈ FairnessReport.byPerson (fairnessReport out) ->
  PersonReport.email r <> EmptyString ->
  Z.of_nat (length (getCalendarEvents (Some (PersonReport.email r)) None st'))
  = PersonReport.totalShifts r.
Proof.
  intros (_ & _ & _ & _ & _ & l & _ & Hrep)%generateSchedule_final Hr Hne.
  apply list_elem_of_lookup in Hr as [j Hj].
  destruct (Forall2_lookup_r _ _ _ _ _ (report_rows st' l _ Hrep) Hj)
    as (p & _ & _ & He & Htot & _).
  rewrite Htot, <- He. unfold getCalendarEvents. rewrite length_fmap. do 2 f_equal.
  apply filter_ext. intros s. by apply eventShown_person.
Qed.

Lemma calendar_matches_report_witness :
  exists out st' r,
    @generateSchedule sampleHost sixPeople = (Ok out, st')
    /\ r ∈ FairnessReport.byPerson (fairnessReport out)
    /\ Z.of_nat (length (getCalendarEvents (Some (PersonReport.email r)) None st'))
       = PersonReport.totalShifts r.
Proof.
  eexists _, _, _.
  match goal with |- ?A /\ _ => assert (Hrun : A) by (vm_compute; reflexivity) end.
  match goal with |- _ /\ ?B /\ _ => assert (Hr : B) by apply list_elem_of_here end.
  split; [exact Hrun |]. split; [exact Hr |].
  apply (@calendar_matches_report sampleHost _ _ _ _ Hrun Hr).
  vm_compute. congruence.
Defined.

Lemma paletteColor_small (palette : list string) (i : Z) :
  0 <= i < Z.of_nat (length palette) -> paletteColor palette i = palette !! Z.to_nat i.
Proof.
  intros Hi. unfold paletteColor. rewrite Z.rem_small by lia.
  destruct (Z.ltb_spec i 0); [lia | reflexivity].
Qed.

Lemma eventOf_color (s : Slot.t) :
  0 <= Slot.slotIndex s < 10 ->
  CalendarEvent.backgroundColor (eventOf s)
  = (primaryColors ++ secondaryColors)
      !! (Z.to_nat (Slot.slotIndex s)
          + match Slot.role s with primary => 0 | secondary => 10 end)%nat.
Proof.
  intros Hi. unfold eventOf. cbn [CalendarEvent.backgroundColor]. destruct (Slot.role s).
  - rewrite paletteColor_small by (simpl; lia).
    rewrite lookup_app_l by (simpl; lia). by rewrite Nat.add_0_r.
  - rewrite paletteColor_small by (simpl; lia).
    rewrite lookup_app_r by (simpl; lia). f_equal. simpl. lia.
Qed.

Lemma palettes_NoDup : NoDup (primaryColors ++ secondaryColors).
Proof. apply (bool_decide_unpack _). vm_compute. exact I. Qed.

(** X23.  With at most ten slots of a role a night, which is what
    [setShiftCounts] allows, the colours tell the slots of a night apart:
    every event of a completed run has a background colour, and two
    events of the same day with the same colour are one event. *)
Theorem calendar_colours_distinct `{HostEnv} (st st' : Scheduler) (out : Output)
        (filterPerson filterRole : option string) (a b : CalendarEvent.t) :
  shiftCountsClamped st ->
  generateSchedule st = (Ok out, st') ->
  a ∈ getCalendarEvents filterPerson filterRole st' ->
  b ∈ getCalendarEvents filterPerson filterRole st' ->
  is_Some (CalendarEvent.backgroundColor a)
  /\ (CalendarEvent.start a = CalendarEvent.start b ->
      CalendarEvent.backgroundColor a = CalendarEvent.backgroundColor b ->
      CalendarEvent.id a = CalendarEvent.id b).
Proof.
  intros [HP HS] (_ & Hslots & _)%generateSchedule_final Ha Hb.
  assert (Hgen : forall e, e ∈ getCalendarEvents filterPerson filterRole st' ->
            exists s, e = eventOf s /\ 0 <= Slot.slotIndex s < 10
                      /\ Slot.id s = slotId (Slot.dateStr s) (Slot.role s) (Slot.slotIndex s)).
  { intros e (s & -> & Hs)%list_elem_of_fmap.
    apply list_elem_of_In, filter_In in Hs as [Hs _]. apply list_elem_of_In in Hs.
    assert (Hin : bareSlot s ∈ generateSlots st)
      by (rewrite <- Hslots; by apply list_elem_of_fmap_2).
    apply generateSlots_elem in Hin as (d & role & i & _ & Hi & Hmk).
    exists s. split; [reflexivity |].
    change (Slot.slotIndex s) with (Slot.slotIndex (bareSlot s)).
    change (Slot.id s) with (Slot.id (bareSlot s)).
    change (Slot.dateStr s) with (Slot.dateStr (bareSlot s)).
    change (Slot.role s) with (Slot.role (bareSlot s)).
    rewrite Hmk. simpl. split; [destruct role; lia | reflexivity]. }
  destruct (Hgen a Ha) as (sa & -> & Hia & Hida).
  destruct (Hgen b Hb) as (sb & -> & Hib & Hidb).
  rewrite !eventOf_color by done. split.
  - apply lookup_lt_is_Some. simpl. destruct (Slot.role sa); lia.
  - intros Hstart Hcol. change (Slot.dateStr sa = Slot.dateStr sb) in Hstart.
    change (Slot.id sa = Slot.id sb). rewrite Hida, Hidb, Hstart.
    assert (Hidx : (Z.to_nat (Slot.slotIndex sa)
                    + match Slot.role sa with primary => 0 | secondary => 10 end
                    = Z.to_nat (Slot.slotIndex sb)
                      + match Slot.role sb with primary => 0 | secondary => 10 end)%nat).
    { destruct ((primaryColors ++ secondaryColors)
                  !! (Z.to_nat (Slot.slotIndex sa)
                      + match Slot.role sa with primary => 0 | secondary => 10 end)%nat)
        as [c|] eqn:Hc.
      - eapply NoDup_lookup; [apply palettes_NoDup | exact Hc | by rewrite Hcol in Hc].
      - apply lookup_ge_None in Hc. simpl in Hc. destruct (Slot.role sa); lia. }
    destruct (Slot.role sa), (Slot.role sb); try lia;
      by replace (Slot.slotIndex sa) with (Slot.slotIndex sb) by lia.
Qed.

Lemma calendar_colours_distinct_witness :
  exists out st' a,
    @generateSchedule sampleHost sixPeople = (Ok out, st')
    /\ a ∈ getCalendarEvents None (Some "primary") st'
    /\ is_Some (CalendarEvent.backgroundColor a).
Proof.
  eexists _, _, _.
  match goal with |- ?A /\ _ => assert (Hrun : A) by (vm_compute; reflexivity) end.
  match goal with |- _ /\ ?B /\ _ => assert (Ha : B) by apply list_elem_of_here end.
  split; [exact Hrun |]. split; [exact Ha |].
  refine (proj1 (@calendar_colours_distinct sampleHost sixPeople _ _ _ _ _ _ _ Hrun Ha Ha)).
  vm_compute. repeat split; congruence.
Defined.

(** ** Shifts by week *)

Lemma weekOf_pushWeek (k key : string) (x : WeekShift.t)
      (weeks : list (string * list WeekShift.t)) :
  weekOf k (pushWeek key x weeks)
  = if String.eqb k key then Some (default [] (weekOf k weeks) ++ [x])
    else weekOf k weeks.
Proof.
  induction weeks as [|[k0 xs] weeks IH]; simpl.
  - destruct (String.eqb_spec key k), (String.eqb_spec k key);
      try congruence; reflexivity.
  - destruct (String.eqb_spec k0 key) as [-> | Hne]; simpl.
    + destruct (String.eqb_spec key k), (String.eqb_spec k key);
        try congruence; reflexivity.
    + destruct (String.eqb_spec k0 k) as [-> | Hk0].
      * destruct (String.eqb_spec k key); [congruence | reflexivity].
      * exact IH.
Qed.

Lemma keys_pushWeek (key : string) (x : WeekShift.t)
      (weeks : list (string * list WeekShift.t)) :
  fst <$> pushWeek key x weeks
  = if bool_decide (key ∈ fst <$> weeks) then fst <$> weeks
    else (fst <$> weeks) ++ [key].
Proof.
  induction weeks as [|[k0 xs] weeks IH]; csimpl; [reflexivity |].
  destruct (String.eqb_spec k0 key) as [-> | Hne]; csimpl.
  - rewrite bool_decide_true by left. reflexivity.
  - rewrite IH. destruct (bool_decide (key ∈ fst <$> weeks)) eqn:Hd.
    + apply bool_decide_eq_true in Hd. by rewrite bool_decide_true by (by right).
    + apply bool_decide_eq_false in Hd. rewrite bool_decide_false; [reflexivity |].
      intros [? | ?]%elem_of_cons; congruence.
Qed.

Lemma entries_pushWeek (key : string) (x : WeekShift.t)
      (weeks : list (string * list WeekShift.t)) :
  length (concat (snd <$> pushWeek key x weeks)) = S (length (concat (snd <$> weeks))).
Proof.
  induction weeks as [|[k0 xs] weeks IH]; csimpl; [reflexivity |].
  destruct (String.eqb k0 key); csimpl.
  - rewrite !length_app. simpl. lia.
  - rewrite !length_app, IH. lia.
Qed.

Lemma foldl_addShift_groups `{HostEnv} (sch : list Slot.t) :
  NoDup (fst <$> foldl addShift [] sch)
  /\ (forall weekKey,
        weekOf weekKey (foldl addShift [] sch)
        = match shiftsOfWeek weekKey sch with
          | [] => None
          | shifts => Some shifts
          end)
  /\ length (concat (snd <$> foldl addShift [] sch))
     = length (List.filter (fun s => bool_decide (is_Some (Slot.assignedPerson s))) sch).
Proof.
  induction sch as [|s sch IH] using rev_ind.
  - simpl. split_and!; [apply NoDup_nil_2 | intros k; reflexivity | reflexivity].
  - destruct IH as (Hnd & Hweeks & Hlen). rewrite foldl_app. cbn [foldl].
    unfold addShift at 1 3 5. unfold shiftsOfWeek.
    rewrite List.filter_app, length_app. setoid_rewrite omap_app.
    fold (shiftsOfWeek). csimpl.
    destruct (Slot.assignedPerson s) as [p|] eqn:Hp.
    + split_and!.
      * rewrite keys_pushWeek. case_bool_decide; [exact Hnd |].
        apply NoDup_app. split; [exact Hnd |]. split; [| apply NoDup_singleton].
        intros k Hk ->%list_elem_of_singleton. done.
      * intros weekKey. rewrite weekOf_pushWeek, Hweeks.
        rewrite (String.eqb_sym (weekKeyOf s) weekKey).
        destruct (String.eqb weekKey (weekKeyOf s)); csimpl;
          fold (shiftsOfWeek weekKey sch).
        -- by destruct (shiftsOfWeek weekKey sch).
        -- by rewrite app_nil_r.
      * rewrite entries_pushWeek, Hlen. rewrite bool_decide_true by eauto. simpl. lia.
    + split_and!; [exact Hnd | | ].
      * intros weekKey. rewrite Hweeks. fold (shiftsOfWeek weekKey sch).
        by rewrite app_nil_r.
      * rewrite Hlen. rewrite bool_decide_false by (by intros [? ?]). simpl. lia.
Qed.

(** X24.  What [getShiftsByWeek] returns: one key for each week that has a
    shift, no key twice; under a key, in the order of the schedule, the
    shifts of the slots that somebody holds and whose week starts on it;
    a slot that nobody holds appears nowhere. *)
Theorem getShiftsByWeek_groups `{HostEnv} (st : Scheduler) :
  NoDup (fst <$> getShiftsByWeek st)
  /\ (forall weekKey,
        weekOf weekKey (getShiftsByWeek st)
        = match shiftsOfWeek weekKey (schedule st) with
          | [] => None
          | shifts => Some shifts
          end)
  /\ length (concat (snd <$> getShiftsByWeek st))
     = length (List.filter (fun s => bool_decide (is_Some (Slot.assignedPerson s)))
                           (schedule st)).
Proof. unfold getShiftsByWeek. apply foldl_addShift_groups. Qed.

Lemma weekStart_sunday (n : Z) :
  - JS.maxDay + 6 <= n <= JS.maxDay ->
  exists m, weekStart (JS.Day n) = JS.Day m
            /\ JS.getDay (JS.Day m) = Some 0 /\ n - 6 <= m <= n.
Proof.
  intros Hn. unfold weekStart. simpl. exists (n - (n + 4) mod 7).
  pose proof (Z.mod_pos_bound (n + 4) 7 ltac:(lia)) as Hmod.
  split_and!; [| | lia | lia].
  - unfold JS.clip.
    destruct (Z.leb_spec (- JS.maxDay) (n - (n + 4) mod 7)); [| lia].
    destruct (Z.leb_spec (n - (n + 4) mod 7) JS.maxDay); [reflexivity | lia].
  - f_equal. replace (n - (n + 4) mod 7 + 4) with (n + 4 - (n + 4) mod 7) by lia.
    rewrite Zminus_mod, Zmod_mod, Z.sub_diag. reflexivity.
Qed.

Lemma weekOf_key (key : string) (weeks : list (string * list WeekShift.t)) :
  key ∈ fst <$> weeks -> is_Some (weekOf key weeks).
Proof.
  induction weeks as [|[k xs] weeks IH]; csimpl; [inversion 1 |].
  intros [-> | Hin]%elem_of_cons; [rewrite String.eqb_refl; eauto |].
  destruct (String.eqb k key); [eauto | by apply IH].
Qed.

(** X25.  Every key of [getShiftsByWeek] is the day string of a Sunday, the one
    on or before the date of a slot somebody holds (for slots dated at
    least a week inside the range a [Date] can hold). *)
Theorem getShiftsByWeek_keys `{HostEnv} (st : Scheduler) (weekKey : string) :
  (forall s, s ∈ schedule st ->
     exists n, Slot.date s = JS.Day n /\ - JS.maxDay + 6 <= n <= JS.maxDay) ->
  weekKey ∈ fst <$> getShiftsByWeek st ->
  exists s n m,
    s ∈ schedule st /\ is_Some (Slot.assignedPerson s) /\ Slot.date s = JS.Day n
    /\ weekKey = normalizeDate (InDate (JS.Day m))
    /\ JS.getDay (JS.Day m) = Some 0 /\ n - 6 <= m <= n.
Proof.
  intros Hdates Hkey. apply weekOf_key in Hkey as [shifts Hshifts].
  destruct (foldl_addShift_groups (schedule st)) as (_ & Hweeks & _).
  unfold getShiftsByWeek in Hshifts. rewrite Hweeks in Hshifts.
  destruct (shiftsOfWeek weekKey (schedule st)) as [|x xs] eqn:Hof; [discriminate |].
  assert (Hx : x ∈ shiftsOfWeek weekKey (schedule st)) by (rewrite Hof; left).
  unfold shiftsOfWeek in Hx. apply list_elem_of_omap in Hx as (s & Hs & Hx).
  destruct (Slot.assignedPerson s) as [p|] eqn:Hp; [| discriminate].
  destruct (String.eqb_spec (weekKeyOf s) weekKey) as [Hk | _]; [| discriminate].
  destruct (Hdates s Hs) as (n & Hn & Hrange).
  destruct (weekStart_sunday n Hrange) as (m & Hm & Hsun & Hnear).
  exists s, n, m. split_and!; [exact Hs | by rewrite Hp | exact Hn | | exact Hsun | lia | lia].
  rewrite <- Hk. unfold weekKeyOf. by rewrite Hn, Hm.
Qed.

Lemma getShiftsByWeek_keys_witness :
  exists s n m,
    s ∈ schedule shortRoster /\ is_Some (Slot.assignedPerson s) /\ Slot.date s = JS.Day n
    /\ "2024-12-29" = @normalizeDate sampleHost (InDate (JS.Day m))
    /\ JS.getDay (JS.Day m) = Some 0 /\ n - 6 <= m <= n.
Proof.
  apply (@getShiftsByWeek_keys sampleHost shortRoster "2024-12-29").
  - intros s Hs. apply list_elem_of_singleton in Hs as ->.
    exists 20087. split; [reflexivity |]. unfold JS.maxDay. lia.
  - vm_compute. left.
Defined.

(** ** [hashString] *)

Lemma wrap_spec (z : Z) : exists q, Int32.wrap z = z + q * 2 ^ 32.
Proof.
  unfold Int32.wrap. exists (- ((z + 2 ^ 31) / 2 ^ 32)).
  pose proof (Z.div_mod (z + 2 ^ 31) (2 ^ 32) ltac:(lia)). lia.
Qed.

Lemma wrap_add_mul (z q : Z) : Int32.wrap (z + q * 2 ^ 32) = Int32.wrap z.
Proof.
  unfold Int32.wrap. f_equal.
  replace (z + q * 2 ^ 32 + 2 ^ 31) with (z + 2 ^ 31 + q * 2 ^ 32) by lia.
  apply Z_mod_plus_full.
Qed.

Lemma wrap_range (z : Z) : - 2 ^ 31 <= Int32.wrap z < 2 ^ 31.
Proof.
  unfold Int32.wrap. pose proof (Z.mod_pos_bound (z + 2 ^ 31) (2 ^ 32) ltac:(lia)). lia.
Qed.

Lemma wrap_small (z : Z) : - 2 ^ 31 <= z < 2 ^ 31 -> Int32.wrap z = z.
Proof. intros Hz. unfold Int32.wrap. rewrite Z.mod_small; lia. Qed.

Lemma hashStep_wrap (h c : Z) : hashStep h c = Int32.wrap (31 * h + c).
Proof.
  unfold hashStep, Int32.and, Int32.shl. rewrite Z.land_diag.
  rewrite (wrap_small (Int32.wrap _)) by apply wrap_range.
  rewrite Z.shiftl_mul_pow2 by lia.
  destruct (wrap_spec h) as [q1 ->].
  destruct (wrap_spec ((h + q1 * 2 ^ 32) * 2 ^ 5)) as [q2 ->].
  replace ((h + q1 * 2 ^ 32) * 2 ^ 5 + q2 * 2 ^ 32 - h + c)
    with (31 * h + c + (32 * q1 + q2) * 2 ^ 32) by lia.
  apply wrap_add_mul.
Qed.

Lemma foldl_hashStep (codes : list Z) :
  foldl hashStep 0 codes = Int32.wrap (poly31 codes).
Proof.
  unfold poly31. induction codes as [|c codes IH] using rev_ind; [reflexivity |].
  rewrite !foldl_app. cbn [foldl]. rewrite IH, hashStep_wrap.
  destruct (wrap_spec (foldl (fun h c0 => 31 * h + c0) 0 codes)) as [q ->].
  replace (31 * (foldl (fun h c0 => 31 * h + c0) 0 codes + q * 2 ^ 32) + c)
    with (31 * foldl (fun h c0 => 31 * h + c0) 0 codes + c + (31 * q) * 2 ^ 32) by lia.
  apply wrap_add_mul.
Qed.

(** X26.  [hashString] is the hash of Java's [String.hashCode], made positive:
    the polynomial with base 31 over the code units, reduced to a signed
    32-bit integer, then its absolute value.  The result lies between 0
    and 2^31 (2^31 itself, which is no signed 32-bit integer, for the
    reduced value -2^31). *)
Theorem hashString_formula (str : string) :
  hashString str = Z.abs (Int32.wrap (poly31 (charCodes str)))
  /\ 0 <= hashString str <= 2 ^ 31.
Proof.
  unfold hashString, hashCodes. rewrite foldl_hashStep.
  pose proof (wrap_range (poly31 (charCodes str))) as Hr.
  split_and!; [reflexivity | lia | lia].
Qed.

(** ** [parseCSVLine] *)

Lemma append_empty_r (s : string) : s +:+ EmptyString = s.
Proof.
  induction s as [|c s IH]; [reflexivity |].
  change (String c (s +:+ EmptyString) = String c s). by f_equal.
Qed.

Lemma split_cons (sep : ascii) (s : string) :
  exists hd tl, JS.split sep s = hd :: tl.
Proof.
  induction s as [|c s (hd & tl & IH)]; simpl; [by eauto |].
  destruct (Ascii.eqb c sep); [by eauto |]. rewrite IH. by eauto.
Qed.

Lemma parseCSVLine_loop_unquoted (line : string) :
  forall result current hd tl,
    Text.noChar dquote line = true ->
    JS.split comma line = hd :: tl ->
    parseCSVLine_loop line result current false
    = result ++ Text.trim (current +:+ hd) :: (Text.trim <$> tl).
Proof.
  induction line as [|c line IH]; intros result current hd tl Hq Hs.
  - simpl in Hs. injection Hs as <- <-. simpl. by rewrite append_empty_r.
  - simpl in Hq. apply andb_prop in Hq as [Hc Hq].
    apply negb_true_iff in Hc. cbn [parseCSVLine_loop]. rewrite Hc.
    simpl in Hs. destruct (split_cons comma line) as (hd' & tl' & Hs').
    rewrite Hs' in Hs. destruct (Ascii.eqb c comma).
    + injection Hs as <- <-. cbn [andb negb].
      rewrite (IH _ EmptyString hd' tl' Hq Hs'). rewrite append_empty_r.
      by rewrite <- app_assoc.
    + injection Hs as <- <-. cbn [andb].
      rewrite (IH _ _ hd' tl' Hq Hs'). by rewrite append_assoc.
Qed.

Lemma parseCSVLine_loop_plain (line : string) :
  Text.noChar dquote line = true ->
  parseCSVLine line = Text.trim <$> JS.split comma line.
Proof.
  intros Hq. destruct (split_cons comma line) as (hd & tl & Hs).
  unfold parseCSVLine. rewrite (parseCSVLine_loop_unquoted _ _ _ _ _ Hq Hs), Hs.
  reflexivity.
Qed.

(** X27.  On a line with no double quote in it, [parseCSVLine] is
    [line.split(',')] with every field trimmed. *)
Theorem parseCSVLine_unquoted (line : string) :
  Text.noChar dquote line = true ->
  parseCSVLine line = Text.trim <$> JS.split comma line.
Proof. apply parseCSVLine_loop_plain. Qed.

Lemma parseCSVLine_unquoted_witness :
  parseCSVLine " ann@x.org, strict ,,Ann "
  = Text.trim <$> JS.split comma " ann@x.org, strict ,,Ann ".
Proof. apply parseCSVLine_unquoted. reflexivity. Defined.

Lemma parseCSVLine_loop_inside (cell : string) :
  forall tail result current,
    Text.noChar dquote cell = true ->
    parseCSVLine_loop (cell +:+ tail) result current true
    = parseCSVLine_loop tail result (current +:+ cell) true.
Proof.
  induction cell as [|c cell IH]; intros tail result current Hq.
  - simpl. by rewrite append_empty_r.
  - simpl in Hq. apply andb_prop in Hq as [Hc Hq].
    apply negb_true_iff in Hc.
    change (String c cell +:+ tail) with (String c (cell +:+ tail)).
    cbn [parseCSVLine_loop]. rewrite Hc.
    cbn [negb]. rewrite andb_false_r. rewrite (IH _ _ _ Hq).
    by rewrite append_assoc.
Qed.


Lemma parseCSVLine_loop_quoted (cell tail : string) (result : list string) :
  Text.noChar dquote cell = true ->
  parseCSVLine_loop (quote cell +:+ tail) result EmptyString false
  = parseCSVLine_loop tail result cell false.
Proof.
  intros Hq. unfold quote.
  change ((String dquote cell +:+ String dquote EmptyString) +:+ tail)
    with (String dquote ((cell +:+ String dquote EmptyString) +:+ tail)).
  cbn [parseCSVLine_loop]. rewrite Ascii.eqb_refl. cbn [negb].
  rewrite append_assoc, (parseCSVLine_loop_inside _ _ _ _ Hq).
  change (String dquote EmptyString +:+ tail) with (String dquote tail).
  cbn [parseCSVLine_loop]. rewrite Ascii.eqb_refl. reflexivity.
Qed.

Lemma parseCSVLine_loop_row (cells : list string) :
  forall result,
    cells <> [] ->
    Forall (fun cell => Text.noChar dquote cell = true) cells ->
    parseCSVLine_loop (JS.join "," (quote <$> cells)) result EmptyString false
    = result ++ (Text.trim <$> cells).
Proof.
  induction cells as [|cell cells IH]; intros result Hne Hq; [done |].
  apply Forall_cons in Hq as [Hc Hq].
  destruct cells as [|cell' cells].
  - cbn [fmap list_fmap JS.join].
    rewrite <- (append_empty_r (quote cell)), parseCSVLine_loop_quoted by done.
    reflexivity.
  - change (JS.join "," (quote <$> cell :: cell' :: cells))
      with (quote cell +:+ "," +:+ JS.join "," (quote <$> cell' :: cells)).
    rewrite parseCSVLine_loop_quoted by done.
    change ("," +:+ JS.join "," (quote <$> cell' :: cells))
      with (String comma (JS.join "," (quote <$> cell' :: cells))).
    cbn [parseCSVLine_loop].
    change (Ascii.eqb comma dquote) with false.
    rewrite Ascii.eqb_refl. cbn [andb negb].
    rewrite IH by done. by rewrite <- app_assoc.
Qed.

(** X28.  A row written the way [exportForWhenToWork] writes it, every cell
    between double quotes and the cells joined by commas, is read back by
    [parseCSVLine] as the same cells, trimmed, when the row has a cell and
    no cell contains a double quote.  Commas inside the cells are kept. *)
Theorem parseCSVLine_quoted_row (cells : list string) :
  cells <> [] ->
  Forall (fun cell => Text.noChar dquote cell = true) cells ->
  parseCSVLine (JS.join "," (quote <$> cells)) = Text.trim <$> cells.
Proof.
  intros Hne Hq. unfold parseCSVLine.
  by rewrite parseCSVLine_loop_row.
Qed.

Lemma parseCSVLine_quoted_row_witness :
  parseCSVLine (JS.join "," (quote <$> ["2025-01-06"; "RAOD - Primary AM"; "Doe, Ann"]))
  = Text.trim <$> ["2025-01-06"; "RAOD - Primary AM"; "Doe, Ann"].
Proof.
  apply parseCSVLine_quoted_row; [done |].
  repeat constructor.
Defined.

Lemma split_no_sep (sep : ascii) (s : string) :
  Text.noChar sep s = true -> JS.split sep s = [s].
Proof.
  induction s as [|c s IH]; [reflexivity |]. simpl.
  intros [Hc Hs]%andb_prop. apply negb_true_iff in Hc. by rewrite Hc, IH.
Qed.

Lemma split_append (sep : ascii) (a rest : string) :
  Text.noChar sep a = true ->
  JS.split sep (a +:+ String sep rest) = a :: JS.split sep rest.
Proof.
  induction a as [|c a IH]; intros Ha.
  - change (EmptyString +:+ String sep rest) with (String sep rest).
    cbn [JS.split]. by rewrite Ascii.eqb_refl.
  - simpl in Ha. apply andb_prop in Ha as [Hc Ha]. apply negb_true_iff in Hc.
    change (String c a +:+ String sep rest) with (String c (a +:+ String sep rest)).
    cbn [JS.split]. by rewrite Hc, IH.
Qed.

Lemma split_join (cells : list string) :
  cells <> [] ->
  Forall (fun cell => Text.noChar comma cell = true) cells ->
  JS.split comma (JS.join "," cells) = cells.
Proof.
  induction cells as [|cell cells IH]; intros Hne Hc; [done |].
  apply Forall_cons in Hc as [Hcell Hc].
  destruct cells as [|cell' cells]; [by apply split_no_sep |].
  change (JS.join "," (cell :: cell' :: cells))
    with (cell +:+ String comma (JS.join "," (cell' :: cells))).
  rewrite split_append by done. by rewrite IH.
Qed.

Lemma noChar_append (ch : ascii) (a b : string) :
  Text.noChar ch (a +:+ b) = Text.noChar ch a && Text.noChar ch b.
Proof.
  induction a as [|c a IH]; [reflexivity |].
  change (String c a +:+ b) with (String c (a +:+ b)). simpl.
  by rewrite IH, andb_assoc.
Qed.

Lemma noChar_join (ch : ascii) (cells : list string) :
  Ascii.eqb comma ch = false ->
  Forall (fun cell => Text.noChar ch cell = true) cells ->
  Text.noChar ch (JS.join "," cells) = true.
Proof.
  intros Hch. induction cells as [|cell cells IH]; intros Hc; [reflexivity |].
  apply Forall_cons in Hc as [Hcell Hc].
  destruct cells as [|cell' cells]; [exact Hcell |].
  change (JS.join "," (cell :: cell' :: cells))
    with (cell +:+ String comma (JS.join "," (cell' :: cells))).
  rewrite noChar_append, Hcell. cbn [Text.noChar andb]. rewrite Hch.
  cbn [negb andb]. by apply IH.
Qed.

(** X29.  A row written the way [exportToCSV] writes it, the cells joined by
    commas with nothing around them, is read back by [parseCSVLine] as the
    same cells, trimmed, when the row has a cell and no cell contains a
    comma or a double quote. *)
Theorem parseCSVLine_plain_row (cells : list string) :
  cells <> [] ->
  Forall (fun cell => Text.noChar comma cell = true) cells ->
  Forall (fun cell => Text.noChar dquote cell = true) cells ->
  parseCSVLine (JS.join "," cells) = Text.trim <$> cells.
Proof.
  intros Hne Hc Hq. rewrite parseCSVLine_loop_plain by (by apply noChar_join).
  by rewrite split_join.
Qed.

Lemma parseCSVLine_plain_row_witness :
  parseCSVLine (JS.join "," (csvRow (Slot.setAssigned mondaySlot ann None)))
  = Text.trim <$> csvRow (Slot.setAssigned mondaySlot ann None).
Proof.
  apply parseCSVLine_plain_row; [done | |]; vm_compute; repeat constructor.
Defined.

(** ** Running again, and the targets *)

(** X13.  A second run on the scheduler that a run left behind has the outcome
    of the first, result and stored schedule alike: the schedule of the
    earlier run plays no part in the next one. *)
Theorem generateSchedule_rerun `{HostEnv} (st st' : Scheduler) (r : Result Output) :
  generateSchedule st = (r, st') -> generateSchedule st' = (r, st').
Proof.
  intros Hrun. pose proof (generateSchedule_frame_eq _ _ _ Hrun) as Heq.
  revert Hrun. unfold generateSchedule at 1.
  destruct (_ <? _) eqn:Hcap; [by intros [= <- <-]; unfold generateSchedule; rewrite Hcap |].
  destruct (dateRange st) as [range|] eqn:Hrange;
    [| by intros [= <- <-]; unfold generateSchedule; rewrite Hcap, Hrange].
  intros Hrun. rewrite Heq at 1. unfold generateSchedule.
  cbn [withSchedule people primaryCount secondaryCount dateRange].
  rewrite Hcap, Hrange. exact Hrun.
Qed.

Lemma generateSchedule_rerun_witness :
  exists r st',
    @generateSchedule sampleHost shortRoster = (r, st')
    /\ @generateSchedule sampleHost st' = (r, st').
Proof.
  eexists _, _.
  match goal with |- ?A /\ _ => assert (Hrun : A) by (vm_compute; reflexivity) end.
  split; [exact Hrun |].
  exact (@generateSchedule_rerun sampleHost _ _ _ Hrun).
Defined.

(** X18.  The targets of [calculateTargetShifts] can be met: with somebody in
    the roster, the minimum and the maximum of a category are at most one
    apart, equal exactly when the total divides evenly, and the total lies
    between the minimum and the maximum taken once for each person. *)
Theorem calculateTargetShifts_feasible `{HostEnv} (st : Scheduler) (k : ShiftType.t) :
  people st <> [] ->
  let t := Targets.get (calculateTargetShifts st) k in
  let n := Z.of_nat (length (people st)) in
  Target.min t <= Target.max t <= Target.min t + 1
  /\ n * Target.min t <= Target.total t <= n * Target.max t
  /\ (Target.min t = Target.max t <-> Target.total t = n * Target.min t).
Proof.
  intros Hne t n. assert (Hn : 0 < n).
  { subst n. destruct (people st); [done | simpl; lia]. }
  assert (Hmk : forall total, let t := mkTarget total n in
            Target.min t <= Target.max t <= Target.min t + 1
            /\ n * Target.min t <= Target.total t <= n * Target.max t
            /\ (Target.min t = Target.max t <-> Target.total t = n * Target.min t)).
  { intros total. simpl.
    pose proof (Z.div_mod total n ltac:(lia)) as H1.
    pose proof (Z.mod_pos_bound total n Hn) as H2.
    pose proof (Z.div_mod (- total) n ltac:(lia)) as H3.
    pose proof (Z.mod_pos_bound (- total) n Hn) as H4.
    split_and!; nia. }
  subst t. unfold calculateTargetShifts. fold n. destruct k; apply Hmk.
Qed.

Lemma calculateTargetShifts_feasible_witness :
  let t := Targets.get (@calculateTargetShifts sampleHost sixPeople) ShiftType.weekday_primary in
  Target.min t = 1 /\ Target.max t = 2 /\ 6 * Target.min t <= Target.total t <= 6 * Target.max t.
Proof.
  split; [vm_compute; reflexivity |]. split; [vm_compute; reflexivity |].
  refine (proj1 (proj2 (@calculateTargetShifts_feasible sampleHost sixPeople
                          ShiftType.weekday_primary _))).
  vm_compute. congruence.
Defined.
